(** * arcpyext.mapping._mapping: layer reconciliation, map comparison and
      data-source template matching

    A shallow embedding of [src/arcpyext/mapping/_mapping.py].

    Python values are JSON-like (the map descriptions come from [describe]
    and are serialised to JSON by the callers): [None], booleans, integers,
    strings, lists and string-keyed dicts.  Floats are left out.  A dict is
    an association list in [items()] order; a well-formed one has no
    repeated key.  Raised exceptions are values of [result]. *)

From stdpp Require Import base option list gmap strings sorting.
From Stdlib Require Import ZArith Ascii DecimalString Permutation Sorted Lia.

Local Set Warnings "-register-all".
Local Open Scope Z_scope.
Local Open Scope list_scope.

(** ** Exceptions *)

Inductive PyError : Type :=
  | KeyError (key : string)
  | TypeError
  | RuntimeError (msg : string).

Inductive result (A : Type) : Type :=
  | Ok (a : A)
  | Raise (e : PyError).
Arguments Ok {A} a.
Arguments Raise {A} e.

Definition result_bind {A B} (f : A → result B) (m : result A) : result B :=
  match m with
  | Ok a => f a
  | Raise e => Raise e
  end.

#[global] Instance result_ret : MRet result := @Ok.
#[global] Instance result_mbind : MBind result := @result_bind.
#[global] Instance result_fmap : FMap result :=
  λ A B f m, match m with Ok a => Ok (f a) | Raise e => Raise e end.

Definition is_ok {A} (m : result A) : bool :=
  match m with Ok _ => true | Raise _ => false end.

(** ** Values *)

Inductive value : Type :=
  | VNone
  | VBool (b : bool)
  | VInt (n : Z)
  | VStr (s : string)
  | VList (xs : list value)
  | VDict (kvs : list (string * value)).

(** [d.get(k)] / [k in d] / [d[k]] on an association list. *)
Fixpoint dict_get {A} (k : string) (d : list (string * A)) : option A :=
  match d with
  | [] => None
  | (k', v) :: d' => if String.eqb k k' then Some v else dict_get k d'
  end.

(** [d[k] = v]: overwrite in place, or append a new key. *)
Fixpoint dict_set {A} (k : string) (v : A) (d : list (string * A))
  : list (string * A) :=
  match d with
  | [] => [(k, v)]
  | (k', v') :: d' =>
      if String.eqb k k' then (k, v) :: d' else (k', v') :: dict_set k v d'
  end.

(** [dict(items)]: later items overwrite earlier ones. *)
Definition dict_of_items {A} (items : list (string * A)) : list (string * A) :=
  fold_left (λ d kv, dict_set kv.1 kv.2 d) items [].

(** [d[k]], raising [KeyError]. *)
Definition dict_item {A} (k : string) (d : list (string * A)) : result A :=
  match dict_get k d with
  | Some v => Ok v
  | None => Raise (KeyError k)
  end.

(** [xs == ys] on lists and tuples, given [==] on the elements. *)
Definition list_eqb {A} (eq : A → A → bool) : list A → list A → bool :=
  fix go (xs ys : list A) : bool :=
    match xs, ys with
    | [], [] => true
    | x :: xs', y :: ys' => eq x y && go xs' ys'
    | _, _ => false
    end.

(** Every item of [d] is an item of [e], given [==] on the values. *)
Definition items_in {A} (eq : A → A → bool) (d e : list (string * A)) : bool :=
  forallb (λ kv, match dict_get kv.1 e with
                 | Some w => eq kv.2 w
                 | None => false
                 end) d.

(** Python's [==] on JSON-like values.  [True == 1] and [False == 0]; values
    of different kinds are unequal; dicts are equal when they have the same
    number of items and every item of the left one is in the right one. *)
Fixpoint py_eq (x y : value) : bool :=
  match x, y with
  | VNone, VNone => true
  | VBool a, VBool b => Z.b2z a =? Z.b2z b
  | VBool a, VInt n => Z.b2z a =? n
  | VInt m, VBool b => m =? Z.b2z b
  | VInt m, VInt n => m =? n
  | VStr s, VStr t => String.eqb s t
  | VList xs, VList ys => list_eqb py_eq xs ys
  | VDict d, VDict e => (length d =? length e)%nat && items_in py_eq d e
  | _, _ => false
  end.

(** A value all of whose dicts have pairwise distinct keys, as every
    Python dict has. *)
Fixpoint wf_value (v : value) : bool :=
  match v with
  | VList xs => forallb wf_value xs
  | VDict d => bool_decide (NoDup d.*1) && forallb (λ kv, wf_value kv.2) d
  | _ => true
  end.

(** ** Layer reconciliation: [_match_layers] *)

(** A layer description is a dict.  [_match_layers] subscripts
    [x['index']] of every layer it is given (each new layer when it is
    recorded in [resolved_now], each old layer in the removed-layers loop),
    so the key is a field of the record; [attrs] holds the other keys. *)
Record Layer : Type := mkLayer { index : Z; attrs : list (string * value) }.

Definition _attr_shallow_eq (a b : list (string * value)) (attr_key : string)
  : bool :=
  match dict_get attr_key a, dict_get attr_key b with
  | Some va, Some vb => py_eq vb va
  | _, _ => false
  end.

(** The two dicts [resolved_was] and [resolved_now], keyed by layer index;
    a key maps to the matched layer or to [None]. *)
Record Resolved : Type := mkResolved {
  resolved_was : gmap Z (option Layer);
  resolved_now : gmap Z (option Layer)
}.

Definition is_resolved_was (st : Resolved) (x : Layer) : bool :=
  bool_decide (is_Some (resolved_was st !! index x)).
Definition is_resolved_now (st : Resolved) (x : Layer) : bool :=
  bool_decide (is_Some (resolved_now st !! index x)).

Definition same_id (a b : Layer) : bool :=
  _attr_shallow_eq (attrs a) (attrs b) "serviceId".
Definition same_name (a b : Layer) : bool :=
  _attr_shallow_eq (attrs a) (attrs b) "name".

Section match_layers.
(** [dictionaries_eq_ignore_case(get_datasource_info(a),
    get_datasource_info(b))]: both helpers live outside this file. *)
Variable same_datasource : Layer → Layer → bool.

Definition unresolved (st : Resolved) (a b : Layer) : bool :=
  negb (is_resolved_was st a) && negb (is_resolved_now st b).

(** The ['fn'] entries of [tests], in order. *)
Definition tests (st : Resolved) : list (Layer → Layer → option Layer) :=
  [ (* same id/name and datasource. Unchanged *)
    λ a b, if same_id a b && same_name a b && same_datasource a b
           then Some b else None;
    (* same name and id, datasource changed *)
    λ a b, if same_id a b && same_name a b && unresolved st a b
           then Some b else None;
    (* same id and datasource, name changed *)
    λ a b, if same_id a b && same_datasource a b && unresolved st a b
           then Some b else None;
    (* same id *)
    λ a b, if same_id a b && unresolved st a b then Some b else None;
    (* same name and datasource, id changed *)
    λ a b, if same_name a b && same_datasource a b && unresolved st a b
           then Some b else None;
    (* same name, id/datasource changed *)
    λ a b, if same_name a b && unresolved st a b then Some b else None ].

Fixpoint first_match (ts : list (Layer → Layer → option Layer))
    (was_layer now_layer : Layer) : bool :=
  match ts with
  | [] => false
  | matcher :: ts' =>
      match matcher was_layer now_layer with
      | Some _ => true
      | None => first_match ts' was_layer now_layer
      end
  end.

Definition test_if_matching_layer (st : Resolved) (was_layer now_layer : Layer)
  : bool :=
  first_match (tests st) was_layer now_layer.

Definition claim (st : Resolved) (was_layer now_layer : Layer) : Resolved :=
  {| resolved_was := <[index was_layer := Some now_layer]> (resolved_was st);
     resolved_now := <[index now_layer := Some was_layer]> (resolved_now st) |}.

(** The inner [for was_layer in was_layers] loop: the state after the
    first old layer that matches, or [None] when [found] stays false. *)
Fixpoint find_was (st : Resolved) (now_layer : Layer) (was_layers : list Layer)
  : option Resolved :=
  match was_layers with
  | [] => None
  | was_layer :: rest =>
      if test_if_matching_layer st was_layer now_layer
      then Some (claim st was_layer now_layer)
      else find_was st now_layer rest
  end.

(** One iteration of [for now_layer in now_layers]. *)
Definition step_now (was_layers : list Layer)
    (acc : Resolved * list Layer) (now_layer : Layer) : Resolved * list Layer :=
  match find_was acc.1 now_layer was_layers with
  | Some st' => (st', acc.2)
  | None =>
      ({| resolved_was := resolved_was acc.1;
          resolved_now := <[index now_layer := None]> (resolved_now acc.1) |},
       acc.2 ++ [now_layer])
  end.

Definition match_now (was_layers now_layers : list Layer)
  : Resolved * list Layer :=
  fold_left (step_now was_layers) now_layers (mkResolved ∅ ∅, []).

(** One iteration of the removed-layers loop. *)
Definition step_removed (acc : Resolved * list Layer) (was_layer : Layer)
  : Resolved * list Layer :=
  if is_resolved_was acc.1 was_layer then acc
  else ({| resolved_was := <[index was_layer := None]> (resolved_was acc.1);
           resolved_now := resolved_now acc.1 |},
        acc.2 ++ [was_layer]).

(** One iteration of the last loop.  [resolved_was[was_layer["index"]]]
    cannot raise: the loop before it has stored every old index
    ([removed_loop_stores_every_index] below).  A stored layer is a
    non-empty dict, hence truthy. *)
Definition step_matched (st : Resolved) (matched : list (Layer * Layer))
    (was_layer : Layer) : list (Layer * Layer) :=
  match resolved_was st !! index was_layer with
  | Some (Some resolved_layer) => matched ++ [(was_layer, resolved_layer)]
  | _ => matched
  end.

(** The condition of the first test. *)
Definition unchanged (a b : Layer) : bool :=
  same_id a b && same_name a b && same_datasource a b.

Definition _match_layers (was_layers now_layers : list Layer)
  : list Layer * list (Layer * Layer) * list Layer :=
  let '(st1, added) := match_now was_layers now_layers in
  let '(st2, removed) := fold_left step_removed was_layers (st1, []) in
  let matched := fold_left (step_matched st2) was_layers [] in
  (added, matched, removed).
End match_layers.

(** The state in which every layer of a list is paired with itself. *)
Definition paired_with_itself (ls : list Layer) : Resolved :=
  fold_left (λ st l, claim st l l) ls (mkResolved ∅ ∅).

(** ** The helpers behind [same_datasource] *)

Definition lower_ascii (c : ascii) : ascii :=
  let n := Ascii.nat_of_ascii c in
  if (65 <=? n)%nat && (n <=? 90)%nat then Ascii.ascii_of_nat (n + 32) else c.

(** [s.lower()] on ASCII strings. *)
Fixpoint lower_string (s : string) : string :=
  match s with
  | EmptyString => EmptyString
  | String c s' => String (lower_ascii c) (lower_string s')
  end.

(** Modelled from the spec: [lowercase_dict] of [_compare_helpers] is not
    among the sources.  Spec 4.1: keys and then values are case-lowered
    recursively, a new mapping is returned, and lowercasing applies to string
    keys and string values but not to non-string leaf values. *)
Fixpoint lowercase_value (v : value) : value :=
  match v with
  | VStr s => VStr (lower_string s)
  | VList xs => VList (map lowercase_value xs)
  | VDict d =>
      VDict (dict_of_items
               (map (λ kv, (lower_string kv.1, lowercase_value kv.2)) d))
  | _ => v
  end.

(** Modelled from the spec: [lowercase_dict] on a mapping, as
    [lowercase_value] on a mapping value. *)
Definition lowercase_dict_model (d : list (string * value))
  : list (string * value) :=
  dict_of_items (map (λ kv, (lower_string kv.1, lowercase_value kv.2)) d).

(** Modelled from the spec: [get_datasource_info] and
    [dictionaries_eq_ignore_case] of [compare_types] are not among the
    sources.  Spec 3 and 4.1: a layer's [dataSource] is the mapping describing
    its connection, two mappings are compared after case-lowering and
    without regard to key order, and (spec 7) a missing field makes the
    comparison evaluate to no match. *)
Definition same_datasource_model (a b : Layer) : bool :=
  match dict_get "dataSource" (attrs a), dict_get "dataSource" (attrs b) with
  | Some (VDict da), Some (VDict db) =>
      py_eq (VDict (lowercase_dict_model da)) (VDict (lowercase_dict_model db))
  | _, _ => false
  end.

(** ** Canonical forms: [_recursive_sort] *)

(** What [_recursive_sort] returns: scalars as they are, a list sorted, and
    a dict as the sorted list of its [(key, value)] tuples. *)
Inductive canon : Type :=
  | CNone
  | CBool (b : bool)
  | CInt (n : Z)
  | CStr (s : string)
  | CList (xs : list canon)
  | CItem (k : string) (v : canon).

(** [==] on canonical forms; a tuple never equals a list. *)
Fixpoint canon_eq (x y : canon) : bool :=
  match x, y with
  | CNone, CNone => true
  | CBool a, CBool b => Z.b2z a =? Z.b2z b
  | CBool a, CInt n => Z.b2z a =? n
  | CInt m, CBool b => m =? Z.b2z b
  | CInt m, CInt n => m =? n
  | CStr s, CStr t => String.eqb s t
  | CList xs, CList ys => list_eqb canon_eq xs ys
  | CItem k v, CItem k' v' => String.eqb k k' && canon_eq v v'
  | _, _ => false
  end.

(** [xs < ys] on lists: the first position where the two are not [==]
    decides, and a proper prefix is smaller. *)
Definition lex_lt {A} (eq : A → A → bool) (lt : A → A → result bool)
  : list A → list A → result bool :=
  fix go (xs ys : list A) : result bool :=
    match xs, ys with
    | [], [] => Ok false
    | [], _ :: _ => Ok true
    | _ :: _, [] => Ok false
    | x :: xs', y :: ys' => if eq x y then go xs' ys' else lt x y
    end.

(** [x < y] as Python 3 evaluates it: numbers by value, strings by code
    point, lists and tuples lexicographically; anything else raises
    [TypeError]. *)
Fixpoint canon_lt (x y : canon) : result bool :=
  match x, y with
  | CBool a, CBool b => Ok (Z.b2z a <? Z.b2z b)
  | CBool a, CInt n => Ok (Z.b2z a <? n)
  | CInt m, CBool b => Ok (m <? Z.b2z b)
  | CInt m, CInt n => Ok (m <? n)
  | CStr s, CStr t => Ok (String.ltb s t)
  | CList xs, CList ys => lex_lt canon_eq canon_lt xs ys
  | CItem k v, CItem k' v' =>
      if String.eqb k k'
      then (if canon_eq v v' then Ok false else canon_lt v v')
      else Ok (String.ltb k k')
  | _, _ => Raise TypeError
  end.

(** A total order that agrees with [<] wherever [<] is defined; values of
    different kinds are ordered by kind. *)
Definition kind (x : canon) : nat :=
  match x with
  | CNone => 0
  | CBool _ | CInt _ => 1
  | CStr _ => 2
  | CList _ => 3
  | CItem _ _ => 4
  end%nat.

Definition lex_cmp {A} (cmp : A → A → comparison)
  : list A → list A → comparison :=
  fix go (xs ys : list A) : comparison :=
    match xs, ys with
    | [], [] => Eq
    | [], _ :: _ => Lt
    | _ :: _, [] => Gt
    | x :: xs', y :: ys' =>
        match cmp x y with
        | Eq => go xs' ys'
        | c => c
        end
    end.

Fixpoint canon_cmp (x y : canon) : comparison :=
  match x, y with
  | CNone, CNone => Eq
  | CBool a, CBool b => Z.b2z a ?= Z.b2z b
  | CBool a, CInt n => Z.b2z a ?= n
  | CInt m, CBool b => m ?= Z.b2z b
  | CInt m, CInt n => m ?= n
  | CStr s, CStr t => String.compare s t
  | CList xs, CList ys => lex_cmp canon_cmp xs ys
  | CItem k v, CItem k' v' =>
      match String.compare k k' with
      | Eq => canon_cmp v v'
      | c => c
      end
  | _, _ => Nat.compare (kind x) (kind y)
  end.

(** The laws of a comparison at one left argument. *)
Definition cmp_laws {A} (cmp : A → A → comparison) (x : A) : Prop :=
  cmp x x = Eq
  ∧ (∀ y, cmp y x = CompOpp (cmp x y))
  ∧ (∀ y z, cmp x y = Eq → cmp x z = cmp y z)
  ∧ (∀ y z, cmp x y = Lt → cmp y z ≠ Gt → cmp x z = Lt).

Definition canon_le (x y : canon) : Prop := canon_cmp x y ≠ Gt.
Definition canon_equiv (x y : canon) : Prop := canon_cmp x y = Eq.

(** [x < y] and [y < x] both evaluate. *)
Definition comparable (x y : canon) : Prop :=
  is_ok (canon_lt x y) = true ∧ is_ok (canon_lt y x) = true.

Definition pairwise_comparable (l : list canon) : Prop :=
  ForallOrdPairs comparable l.

(** [sorted]: a stable insertion sort on [<], the element under insertion
    going before the first one it is smaller than.  An exception raised by
    a comparison ends the sort. *)
Fixpoint insert_sorted (x : canon) (l : list canon) : result (list canon) :=
  match l with
  | [] => Ok [x]
  | y :: l' =>
      b ← canon_lt x y;
      if b : bool then Ok (x :: y :: l') else (y ::.) <$> insert_sorted x l'
  end.

Fixpoint sorted_from (acc : list canon) (l : list canon) : result (list canon) :=
  match l with
  | [] => Ok acc
  | x :: l' => acc' ← insert_sorted x acc; sorted_from acc' l'
  end.

Definition sorted (l : list canon) : result (list canon) := sorted_from [] l.

(** A comprehension whose element expression may raise. *)
Definition comprehension {A B} (f : A → result B) : list A → result (list B) :=
  fix go (l : list A) : result (list B) :=
    match l with
    | [] => Ok []
    | x :: l' => y ← f x; ys ← go l'; Ok (y :: ys)
    end.

Fixpoint _recursive_sort (obj : value) : result canon :=
  match obj with
  | VDict d =>
      items ← comprehension
                (λ kv, v' ← _recursive_sort kv.2; Ok (CItem kv.1 v')) d;
      CList <$> sorted items
  | VList xs =>
      ys ← comprehension _recursive_sort xs;
      CList <$> sorted ys
  | VNone => Ok CNone
  | VBool b => Ok (CBool b)
  | VInt n => Ok (CInt n)
  | VStr s => Ok (CStr s)
  end.

Definition _attr_deep_eq (a b : list (string * value)) (attr_key : string)
  : result bool :=
  match dict_get attr_key a, dict_get attr_key b with
  | Some va, Some vb =>
      ca ← _recursive_sort va; cb ← _recursive_sort vb; Ok (canon_eq ca cb)
  | _, _ => Ok false
  end.

(** The equality that [_attr_deep_eq] applies to two values. *)
Definition canonical_eq (a b : value) : result bool :=
  ca ← _recursive_sort a; cb ← _recursive_sort b; Ok (canon_eq ca cb).

(** ** Reordered values *)

(** The two lists have one length and are related position by position. *)
Definition forall2 {A B} (R : A → B → Prop) : list A → list B → Prop :=
  fix go (xs : list A) (ys : list B) : Prop :=
    match xs, ys with
    | [], [] => True
    | x :: xs', y :: ys' => R x y ∧ go xs' ys'
    | _, _ => False
    end.

(** [b] is [a] with the elements of its sequences and the items of its
    mappings in another order, at any depth. *)
Fixpoint reordered (a b : value) : Prop :=
  match a, b with
  | VList xs, VList zs => ∃ ys, forall2 reordered xs ys ∧ ys ≡ₚ zs
  | VDict d, VDict f =>
      ∃ e, forall2 (λ kv kv' : string * value,
                      kv.1 = kv'.1 ∧ reordered kv.2 kv'.2) d e
           ∧ e ≡ₚ f
  | _, _ => a = b
  end.

(** A value that can be sorted in whatever order its sequences come: at any
    depth, the canonical elements of a sequence are pairwise comparable and
    the keys of a mapping are distinct. *)
Fixpoint orderable (a : value) : Prop :=
  match a with
  | VList xs =>
      foldr (λ x P, orderable x ∧ P) True xs
      ∧ ∃ cs, comprehension _recursive_sort xs = Ok cs ∧ pairwise_comparable cs
  | VDict d =>
      NoDup d.*1 ∧ foldr (λ kv P, orderable kv.2 ∧ P) True d
  | _ => True
  end.

(** ** Map frames: [_compare_map_frames] and [compare] *)

(** A map frame description: its own fields and its ["layers"], the key
    [_compare_map_frames] subscripts. *)
Record Frame : Type := mkFrame {
  frame_attrs : list (string * value);
  layers : list Layer
}.

(** A whole map description: document fields and its ["maps"]. *)
Record Description : Type := mkDescription {
  doc_attrs : list (string * value);
  maps : list Frame
}.

(** [itertools.zip_longest] with the default fill value [None]. *)
Fixpoint zip_longest {A B} (xs : list A) (ys : list B)
  : list (option A * option B) :=
  match xs, ys with
  | [], _ => map (λ y, (None, Some y)) ys
  | _, [] => map (λ x, (Some x, None)) xs
  | x :: xs', y :: ys' => (Some x, Some y) :: zip_longest xs' ys'
  end.

Section compare.
(** The change-type enumerations come from [compare_types]; [D] is the
    type of one reported change. *)
Context {D : Type}.
Variable DocumentChangeTypes_compare :
  Description → Description → result (list D).
Variable MapChangeTypes_compare : Frame → option Frame → result (list D).
Variable LayerChangeTypes_compare : Layer → Layer → result (list D).
Variable same_datasource : Layer → Layer → bool.

Record LayerDifferences : Type := mkLayerDifferences {
  added : list Layer;
  (** a copy of the new layer with its ["diff"] key set *)
  updated : list (Layer * list D);
  removed : list Layer
}.

Record MapDifferences : Type := mkMapDifferences {
  map_diff : list D;
  layer_diff : LayerDifferences;
  table_diff : list Layer
}.

(** The [for (was_layer, now_layer) in matched] loop. *)
Fixpoint collect_updated (matched : list (Layer * Layer))
    (acc : list (Layer * list D)) : result (list (Layer * list D)) :=
  match matched with
  | [] => Ok acc
  | (was_layer, now_layer) :: rest =>
      d ← LayerChangeTypes_compare was_layer now_layer;
      if (0 <? length d)%nat
      then collect_updated rest (acc ++ [(now_layer, d)])
      else collect_updated rest acc
  end.

Definition _compare_map_frames (was_map_desc now_map_desc : option Frame)
  : result MapDifferences :=
  match was_map_desc with
  | None =>
      (* new map introduced, ignore *)
      Ok (mkMapDifferences [] (mkLayerDifferences [] [] []) [])
  | Some was =>
      d ← MapChangeTypes_compare was now_map_desc;
      match now_map_desc with
      | None => Raise TypeError (* None["layers"] *)
      | Some now =>
          let '(added, matched, removed) :=
            _match_layers same_datasource (layers was) (layers now) in
          updated ← collect_updated matched [];
          Ok (mkMapDifferences d (mkLayerDifferences added updated removed) [])
      end
  end.

Record Differences : Type := mkDifferences {
  doc_diff : list D;
  maps_diff : list MapDifferences
}.

(** [compare] on two descriptions: an argument that is a [Mapping] is
    taken as it is, and [describe], which makes one of a document, is
    outside this file. *)
Definition compare (was_description now_description : Description)
  : result Differences :=
  d ← DocumentChangeTypes_compare was_description now_description;
  ms ← comprehension (λ p, _compare_map_frames p.1 p.2)
         (zip_longest (maps was_description) (maps now_description));
  Ok (mkDifferences d ms).
End compare.

(** ** The field-level differ behind [LayerChangeTypes.compare] *)

Inductive Strictness : Type := Shallow | Deep.

Record DiffEntry : Type := mkDiffEntry {
  field : string;
  was : option value;
  now : option value
}.

(** Modelled from the spec: [LayerChangeTypes.compare] of [compare_types] is
    not among the sources.  Spec 4.2: for each field of a configured set the
    old and the new value are compared, shallowly or deeply as configured for
    the field; an entry is emitted when they are unequal or one side is
    missing, and a field present in neither is never reported.  The two
    comparisons are [_attr_shallow_eq] and [_attr_deep_eq] of this file. *)
Definition field_changed (s : Strictness) (key : string)
    (a b : list (string * value)) : result bool :=
  match dict_get key a, dict_get key b with
  | None, None => Ok false
  | _, _ =>
      match s with
      | Shallow => Ok (negb (_attr_shallow_eq a b key))
      | Deep => negb <$> _attr_deep_eq a b key
      end
  end.

(** When a value can be compared with itself without an exception. *)
Definition field_comparable (s : Strictness) (v : value) : bool :=
  match s with
  | Shallow => wf_value v
  | Deep => is_ok (_recursive_sort v)
  end.

Definition layer_comparable (comparable_fields : list (string * Strictness))
    (l : Layer) : bool :=
  forallb (λ ks, match dict_get ks.1 (attrs l) with
                 | Some v => field_comparable ks.2 v
                 | None => true
                 end) comparable_fields.

(** Modelled from the spec: the entries of spec 4.2, one for each changed
    field of the configured set, in the order of the set. *)
Fixpoint diff_fields (comparable_fields : list (string * Strictness))
    (a b : list (string * value)) : result (list DiffEntry) :=
  match comparable_fields with
  | [] => Ok []
  | (key, s) :: rest =>
      changed ← field_changed s key a b;
      ds ← diff_fields rest a b;
      Ok (if changed : bool
          then mkDiffEntry key (dict_get key a) (dict_get key b) :: ds
          else ds)
  end.

(** Modelled from the spec: [LayerChangeTypes.compare] as the differ of
    spec 4.2 over a configured set of layer fields. *)
Definition layer_diff_model (comparable_fields : list (string * Strictness))
    (was_layer now_layer : Layer) : result (list DiffEntry) :=
  diff_fields comparable_fields (attrs was_layer) (attrs now_layer).

(** ** Data-source templates: [create_replacement_data_sources_list] *)

(** What [freeze] returns and what the criteria sets hold: scalars, tuples,
    and frozensets of [(key, frozen value)] tuples. *)
Inductive frozen : Type :=
  | FNone
  | FBool (b : bool)
  | FInt (n : Z)
  | FStr (s : string)
  | FTuple (xs : list frozen)
  | FSet (items : list (string * frozen)).

(** [==] on frozen values; the items of a frozenset have distinct keys. *)
Fixpoint frozen_eq (x y : frozen) : bool :=
  match x, y with
  | FNone, FNone => true
  | FBool a, FBool b => Z.b2z a =? Z.b2z b
  | FBool a, FInt n => Z.b2z a =? n
  | FInt m, FBool b => m =? Z.b2z b
  | FInt m, FInt n => m =? n
  | FStr s, FStr t => String.eqb s t
  | FTuple xs, FTuple ys => list_eqb frozen_eq xs ys
  | FSet s, FSet t => (length s =? length t)%nat && items_in frozen_eq s t
  | _, _ => false
  end.

(** [(k, v) == (k', v')] on the tuples held by the sets. *)
Definition item_eq (a b : string * frozen) : bool :=
  String.eqb a.1 b.1 && frozen_eq a.2 b.2.

(** [s.issubset(t)] *)
Definition issubset (s t : list (string * frozen)) : bool :=
  forallb (λ a, existsb (item_eq a) t) s.

(** Hashing a criteria value when it is put into a [set]: lists and dicts
    are unhashable. *)
Definition hashable (v : value) : result frozen :=
  match v with
  | VNone => Ok FNone
  | VBool b => Ok (FBool b)
  | VInt n => Ok (FInt n)
  | VStr s => Ok (FStr s)
  | VList _ | VDict _ => Raise TypeError
  end.

(** Nesting depth of a value, the recursion depth [freeze] needs. *)
Fixpoint depth (v : value) : nat :=
  match v with
  | VList xs => S (foldr (λ x n, Nat.max (depth x) n) 0%nat xs)
  | VDict d => S (foldr (λ kv n, Nat.max (depth kv.2) n) 0%nat d)
  | _ => 0%nat
  end.

(** A replacement template (spec 3): [matchCriteria] and [dataSource] are
    mappings, [matchOptions] is an optional mapping. *)
Record Template : Type := mkTemplate {
  matchCriteria : list (string * value);
  dataSource : list (string * value);
  matchOptions : option (list (string * value))
}.

(** An element of [template_sets]: the template with its [matchCriteria]
    replaced by the set of its lower-cased items. *)
Record TemplateSet : Type := mkTemplateSet {
  criteria : list (string * frozen);
  ts_dataSource : list (string * value);
  ts_matchOptions : option (list (string * value))
}.

(** What [tokenise_datasource] returns when it can parse. *)
Record Tokens : Type := mkTokens {
  schema : option string;
  dataSet : option string;
  table : option string
}.

(** One element of [map_desc["maps"]]; a layer that could not be described
    is [None]. *)
Record DataFrame : Type := mkDataFrame {
  df_layers : list (option (list (string * value)));
  df_tables : list (option (list (string * value)))
}.

Record Replacements : Type := mkReplacements {
  new_layers : list (option (list (string * value)));
  new_tables : list (option (list (string * value)))
}.

(** [x == True] for the result of a [.get]. *)
Definition is_True (v : option value) : bool :=
  match v with
  | Some x => py_eq x (VBool true)
  | None => false
  end.

(** A group layer that is not a network-analyst layer. *)
Definition group_layer_without_data (layer : list (string * value)) : bool :=
  is_True (dict_get "isGroupLayer" layer)
  && negb (is_True (dict_get "isNetworkAnalystLayer" layer)).

(** [template.get("matchOptions", {}).get("isWorkspaceContainer") == True] *)
Definition is_workspace_container
    (matchOptions : option (list (string * value))) : bool :=
  is_True (dict_get "isWorkspaceContainer" (default [] matchOptions)).

(** A token under [str.format]. *)
Definition format_token (t : option string) : string :=
  match t with
  | Some s => s
  | None => "None"
  end.

Section templates.
(** [lowercase_dict] of [_compare_helpers], [tokenise_datasource] of
    [_mapping_helpers] and Python's [str] are not part of this file. *)
Variable lowercase_dict : list (string * value) → list (string * value).
Variable tokenise_datasource : value → option Tokens.
Variable py_str : value → string.

Definition template_set (template : Template) : result TemplateSet :=
  items ← comprehension (λ kv, f ← hashable kv.2; Ok (kv.1, f))
            (lowercase_dict (matchCriteria template));
  Ok (mkTemplateSet items (dataSource template) (matchOptions template)).

(** [freeze], with the recursion depth as fuel: the nesting depth of the
    value is enough whenever [lowercase_dict] returns values no deeper
    than it was given ([freeze_dict] and [freeze_list] below are the
    equations of the source). *)
Fixpoint freeze_fuel (fuel : nat) (d : value) : frozen :=
  match d with
  | VDict kvs =>
      match fuel with
      | O => FSet []
      | S fuel' =>
          FSet (map (λ kv, (kv.1, freeze_fuel fuel' kv.2)) (lowercase_dict kvs))
      end
  | VList xs =>
      match fuel with
      | O => FTuple []
      | S fuel' => FTuple (map (freeze_fuel fuel') xs)
      end
  | VNone => FNone
  | VBool b => FBool b
  | VInt n => FInt n
  | VStr s => FStr s
  end.

Definition freeze (d : value) : frozen := freeze_fuel (depth d) d.

(** [set(freeze(layer_or_table))] *)
Definition frozen_items (layer : list (string * value))
  : list (string * frozen) :=
  match freeze (VDict layer) with
  | FSet items => items
  | _ => []
  end.

Definition template_matches (template : TemplateSet)
    (layer : list (string * value)) : bool :=
  issubset (criteria template) (frozen_items layer).

(** The body of the [isWorkspaceContainer] branch. *)
Definition infer_workspace (template : TemplateSet)
    (layer new_conn : list (string * value)) : result (list (string * value)) :=
  if is_workspace_container (ts_matchOptions template)
  then
    ds ← dict_item "dataSource" layer;
    match tokenise_datasource ds with
    | Some tokens =>
        wp ← dict_item "workspacePath" new_conn;
        let path :=
          match dataSet tokens, schema tokens with
          | Some ds_name, Some schema_name =>
              py_str wp +:+ "\" +:+ schema_name +:+ "." +:+ ds_name +:+ ".gdb"
          | Some ds_name, None =>
              py_str wp +:+ "\" +:+ ds_name +:+ ".gdb"
          | None, _ =>
              py_str wp +:+ "\" +:+ format_token (table tokens) +:+ ".gdb"
          end in
        Ok (dict_set "workspacePath" (VStr path) new_conn)
    | None => Ok new_conn
    end
  else Ok new_conn.

(** The [for template in template_sets] loop. *)
Fixpoint scan_templates (template_sets : list TemplateSet)
    (layer : list (string * value)) : result (option (list (string * value))) :=
  match template_sets with
  | [] => Ok None
  | template :: rest =>
      if template_matches template layer
      then Some <$> infer_workspace template layer (ts_dataSource template)
      else scan_templates rest layer
  end.

Definition no_match_error : PyError :=
  RuntimeError "No matching data source was found for layer".

Definition match_new_data_source (template_sets : list TemplateSet)
    (raise_exception_no_change : bool)
    (layer_or_table : option (list (string * value)))
  : result (option (list (string * value))) :=
  match layer_or_table with
  | None => Ok None
  | Some layer =>
      if group_layer_without_data layer
      then Ok None
      else
        new_conn ← scan_templates template_sets layer;
        match new_conn with
        | None =>
            if raise_exception_no_change then Raise no_match_error else Ok None
        | Some conn => Ok (Some conn)
        end
  end.

(** The element expression of the returned comprehension. *)
Definition replace_frame (template_sets : list TemplateSet)
    (raise_exception_no_change : bool) (df : DataFrame) : result Replacements :=
  ls ← comprehension
         (match_new_data_source template_sets raise_exception_no_change)
         (df_layers df);
  ts ← comprehension
         (match_new_data_source template_sets raise_exception_no_change)
         (df_tables df);
  Ok (mkReplacements ls ts).

Definition create_replacement_data_sources_list (map_desc : list DataFrame)
    (data_source_templates : list Template) (raise_exception_no_change : bool)
  : result (list Replacements) :=
  template_sets ← comprehension template_set data_source_templates;
  comprehension (replace_frame template_sets raise_exception_no_change)
    map_desc.
End templates.

(** ** Instances of the outside helpers, for concrete runs *)

(** A tokenizer that reads the tokens off the data source itself: a dict
    with a string ["table"] parses, anything else does not. *)
Definition tokens_of_fields (ds : value) : option Tokens :=
  let str_field (d : list (string * value)) (k : string) : option string :=
    match dict_get k d with
    | Some (VStr s) => Some s
    | _ => None
    end in
  match ds with
  | VDict d =>
      match str_field d "table" with
      | Some t => Some (mkTokens (str_field d "schema") (str_field d "dataSet") (Some t))
      | None => None
      end
  | _ => None
  end.

(** [str] on scalars.  The renderings of lists and dicts are not modelled
    (the empty string stands for them); the results below use [str] on
    strings only. *)
Definition str_of_scalar (v : value) : string :=
  match v with
  | VStr s => s
  | VNone => "None"
  | VBool true => "True"
  | VBool false => "False"
  | VInt n => NilZero.string_of_int (Z.to_int n)
  | VList _ | VDict _ => ""
  end.

(** ** Example data *)

Definition layer_of (i id : Z) (name workspace : string) : Layer :=
  mkLayer i [("serviceId", VInt id); ("name", VStr name);
             ("dataSource", VDict [("workspacePath", VStr workspace)])].

(** A feature layer whose data source carries its own tokens. *)
Definition feature_layer (name : string) (tokens : list (string * value))
  : list (string * value) :=
  [("type", VStr "Feature"); ("name", VStr name); ("dataSource", VDict tokens)].

(** A workspace-container template for feature layers, and a plain one for
    feature layers at scale 10. *)
Definition container_template : TemplateSet :=
  mkTemplateSet [("type", FStr "feature")] [("workspacePath", VStr "C:\Data")]
    (Some [("isWorkspaceContainer", VBool true)]).

Definition scale_template : TemplateSet :=
  mkTemplateSet [("type", FStr "feature"); ("scale", FInt 10)]
    [("workspacePath", VStr "C:\Other")] None.

Definition plain_template : TemplateSet :=
  mkTemplateSet [("type", FStr "feature")] [("workspacePath", VStr "C:\Plain")]
    None.

Definition roads_tokens (schema_name data_set : option string)
  : list (string * value) :=
  match schema_name with Some s => [("schema", VStr s)] | None => [] end
  ++ match data_set with Some d => [("dataSet", VStr d)] | None => [] end
  ++ [("table", VStr "Roads_Lines")].

(** The unprocessed template behind [scale_template]. *)
Definition scale_template_source : Template :=
  mkTemplate [("Type", VStr "Feature"); ("scale", VInt 10)]
    [("workspacePath", VStr "C:\Other")] None.

(** A layer with an index and a data source, but neither id nor name. *)
Definition bare_layer (i : Z) : Layer :=
  mkLayer i [("dataSource", VDict [("workspacePath", VStr "C:\Data")])].


(** ** Validity: [is_valid] *)

(** Truth-value testing, as [if i["isBroken"]] does it. *)
Definition truthy (v : value) : bool :=
  match v with
  | VNone => false
  | VBool b => b
  | VInt n => negb (n =? 0)
  | VStr s => negb (String.eqb s "")
  | VList xs => negb (bool_decide (xs = []))
  | VDict d => negb (bool_decide (d = []))
  end.

(** What a [for] loop over [v] visits: the elements of a list, the keys of
    a dict, the characters of a string; [None], booleans and integers are
    not iterable. *)
Definition iterate (v : value) : result (list value) :=
  match v with
  | VList xs => Ok xs
  | VDict d => Ok (map (λ kv, VStr kv.1) d)
  | VStr s =>
      Ok (map (λ c, VStr (String c EmptyString)) (String.list_ascii_of_string s))
  | VNone | VBool _ | VInt _ => Raise TypeError
  end.

(** [v[k]] for a string key: [KeyError] on a dict without the key,
    [TypeError] on anything that is not a dict. *)
Definition subscript (k : string) (v : value) : result value :=
  match v with
  | VDict d => dict_item k d
  | _ => Raise TypeError
  end.

(** The body of [for i in chain(m["layers"], m["tables"])], over the items
    of one of the two sequences. *)
Fixpoint scan_items (items broken_items : list value) : result (list value) :=
  match items with
  | [] => Ok broken_items
  | i :: rest =>
      b ← subscript "isBroken" i;
      scan_items rest (if truthy b then broken_items ++ [i] else broken_items)
  end.

(** One iteration of [for m in description["maps"]].  [chain] takes both
    sequences when it is built and iterates the second one only when the
    first one is exhausted. *)
Definition scan_map (m : value) (broken_items : list value)
  : result (list value) :=
  ls ← subscript "layers" m;
  ts ← subscript "tables" m;
  xs ← iterate ls;
  acc ← scan_items xs broken_items;
  ys ← iterate ts;
  scan_items ys acc.

Fixpoint scan_maps (ms broken_items : list value) : result (list value) :=
  match ms with
  | [] => Ok broken_items
  | m :: rest => acc ← scan_map m broken_items; scan_maps rest acc
  end.

(** [layer["longName"] if "longName" in layer else layer["name"]].  On a
    value that is not a dict either the membership test or the subscript
    raises [TypeError]. *)
Definition logged_name (layer : value) : result value :=
  match layer with
  | VDict d =>
      if bool_decide (is_Some (dict_get "longName" d))
      then dict_item "longName" d
      else dict_item "name" d
  | _ => Raise TypeError
  end.

(** The arguments of the two [logger.debug] calls made for each broken
    item; the log records themselves are not modelled. *)
Fixpoint log_broken (broken_items : list value) : result unit :=
  match broken_items with
  | [] => Ok ()
  | layer :: rest =>
      _ ← logged_name layer;
      _ ← subscript "dataSource" layer;
      log_broken rest
  end.

(** [is_valid] on a description (a [Mapping] is taken as it is);
    [_get_logger] is taken to return a logger. *)
Definition is_valid (description : list (string * value)) : result bool :=
  maps ← dict_item "maps" description;
  ms ← iterate maps;
  broken_items ← scan_maps ms [];
  if (0 <? length broken_items)%nat
  then
    _ ← dict_item "filePath" description;
    _ ← log_broken broken_items;
    Ok false
  else Ok true.

(** The layers and then the tables of one map, when both are there and can
    be iterated. *)
Definition map_items (m : value) : result (list value) :=
  ls ← subscript "layers" m;
  ts ← subscript "tables" m;
  xs ← iterate ls;
  ys ← iterate ts;
  Ok (xs ++ ys).

(** All the items [is_valid] looks at, in the order it visits them. *)
Definition description_items (description : list (string * value))
  : result (list value) :=
  maps ← dict_item "maps" description;
  ms ← iterate maps;
  items ← comprehension map_items ms;
  Ok (concat items).

(** An item with a true [isBroken]. *)
Definition is_broken (i : value) : bool :=
  match subscript "isBroken" i with
  | Ok b => truthy b
  | Raise _ => false
  end.

(** A layer or table description with the keys [is_valid] reads. *)
Definition item_of (name : string) (broken : bool) : value :=
  VDict [("name", VStr name); ("isBroken", VBool broken);
         ("dataSource", VDict [("workspacePath", VStr "C:\Data")])].

Definition map_of (ls ts : list value) : value :=
  VDict [("name", VStr "Layers"); ("layers", VList ls); ("tables", VList ts)].

(** ** Kinds of values *)

(** A value that is neither a list nor a dict. *)
Definition is_scalar (v : value) : bool :=
  match v with
  | VList _ | VDict _ => false
  | _ => true
  end.

(** A number: an integer or a boolean. *)
Definition is_number (v : value) : bool :=
  match v with
  | VInt _ | VBool _ => true
  | _ => false
  end.

Definition is_string (v : value) : bool :=
  match v with
  | VStr _ => true
  | _ => false
  end.

(** No element is [<] an element before it. *)
Definition ascending (s : list canon) : Prop :=
  StronglySorted (λ a b, canon_lt b a ≠ Ok true) s.

(** The tuple [_recursive_sort] makes of one item of a dict. *)
Definition sorted_item (kv : string * value) : result canon :=
  v' ← _recursive_sort kv.2; Ok (CItem kv.1 v').

(** ** Layers the matcher looks at *)

(** A layer or table that [match_new_data_source] does not skip: it was
    described, and it is not a group layer without data. *)
Definition processed (layer_or_table : option (list (string * value))) : bool :=
  match layer_or_table with
  | Some layer => negb (group_layer_without_data layer)
  | None => false
  end.

(** [None] for every layer and every table of a frame. *)
Definition no_replacements (df : DataFrame) : Replacements :=
  mkReplacements (map (λ _, None) (df_layers df)) (map (λ _, None) (df_tables df)).

(** ** Changing data sources: [change_data_sources] *)

(** [len(v)]: lists, dicts and strings have a length. *)
Definition py_len (v : value) : result nat :=
  match v with
  | VList xs => Ok (length xs)
  | VDict d => Ok (length d)
  | VStr s => Ok (String.length s)
  | VNone | VBool _ | VInt _ => Raise TypeError
  end.

(** [k in d] on a dict. *)
Definition has_key {A} (k : string) (d : list (string * A)) : bool :=
  bool_decide (is_Some (dict_get k d)).

(** What an outside call raises: a [MapLayerError], or anything else. *)
Inductive raised (LayerError Foreign : Type) : Type :=
  | RaisedMapLayerError (e : LayerError)
  | RaisedOther (x : Foreign).
Arguments RaisedMapLayerError {LayerError Foreign} e.
Arguments RaisedOther {LayerError Foreign} x.

(** What [change_data_sources] raises: its own [ChangeDataSourcesError],
    with the collected errors when it has them; the exception of an outside
    call; or the exception of one of its own subscripts, [len] calls and
    attribute reads. *)
Inductive Exception (LayerError Foreign : Type) : Type :=
  | ChangeDataSourcesError (msg : string) (errors : option (list LayerError))
  | MapLayerError (e : LayerError)
  | OtherError (x : Foreign)
  | Builtin (e : PyError)
  | AttributeError.
Arguments ChangeDataSourcesError {LayerError Foreign} msg errors.
Arguments MapLayerError {LayerError Foreign} e.
Arguments OtherError {LayerError Foreign} x.
Arguments Builtin {LayerError Foreign} e.
Arguments AttributeError {LayerError Foreign}.

Inductive outcome (E A : Type) : Type :=
  | Returned (a : A)
  | Raised (e : E).
Arguments Returned {E A} a.
Arguments Raised {E A} e.

(** A computation on the state of arcpy: the state it leaves, and what it
    returned or raised. *)
Definition stateful (World E A : Type) : Type := World → World * outcome E A.

Definition keys_missing : string :=
  "Data sources dictionary does not contain both layers and tables keys".
Definition layer_count_mismatch : string :=
  "Number of layers does not match number of data sources.".
Definition table_count_mismatch : string :=
  "Number of data tables does not match number of data table data sources.".
Definition errors_encountered : string :=
  "A number of errors were encountered whilst change layer data sources.".

Section change_data_sources.
(** The arcpy side.  A [Document], a [MapFrame] and an [Item] (a layer or
    a data table) are objects of arcpy, [World] is the state the calls
    read and change, [LayerError] is a [MapLayerError] and [Foreign] any
    other exception of an outside call. *)
Context {Path Document MapFrame Item LayerError Foreign World : Type}.

Local Abbreviation outside := (stateful World (raised LayerError Foreign)).
Local Abbreviation M := (stateful World (Exception LayerError Foreign)).

(** The calls that leave this file: [open_document] and the helpers of
    [_mapping2]/[_mapping3], the two attributes read for the log, and
    [save].  The listing helpers return lists. *)
Record Arcpy : Type := mkArcpy {
  open_document : Path → outside Document;
  _list_maps : Document → outside (list MapFrame);
  _list_layers : Document → option MapFrame → outside (list Item);
  _list_tables : Document → option MapFrame → outside (list Item);
  longName : Item → outside value;
  name : Item → outside value;
  _get_data_source_desc : Item → outside value;
  _change_data_source : Item → value → outside unit;
  save : Document → outside unit
}.

Definition ret {A} (a : A) : M A := λ w, (w, Returned a).

Definition raise {A} (e : Exception LayerError Foreign) : M A :=
  λ w, (w, Raised e).

Definition bind {A B} (m : M A) (k : A → M B) : M B :=
  λ w, match m w with
       | (w', Returned a) => k a w'
       | (w', Raised e) => (w', Raised e)
       end.

(** An outside call, its exception passed on. *)
Definition call {A} (c : outside A) : M A :=
  λ w, match c w with
       | (w', Returned a) => (w', Returned a)
       | (w', Raised (RaisedMapLayerError e)) => (w', Raised (MapLayerError e))
       | (w', Raised (RaisedOther x)) => (w', Raised (OtherError x))
       end.

(** A subscript, [len] or iteration of this function. *)
Definition lift {A} (r : result A) : M A :=
  match r with
  | Ok a => ret a
  | Raise e => raise (Builtin e)
  end.

Local Notation "x ←ₘ m ; k" := (bind m (λ x, k))
  (at level 20, m at level 100, k at level 200, right associativity,
   only parsing).

Variable mh : Arcpy.

(** The body of the [try] for one layer or data table, with the
    attribute [label] read for the log.  The arguments of the
    [logger.debug] calls are evaluated; the records are not modelled. *)
Definition change_item (label : Item → outside value)
    (item : option Item) (source : option value) : M unit :=
  match source with
  | None => ret ()
  | Some src =>
      if py_eq src VNone then ret ()
      else
        match item with
        | None => raise AttributeError
        | Some i =>
            _ ←ₘ call (label i);
            _ ←ₘ call (_get_data_source_desc mh i);
            _ ←ₘ call (_change_data_source mh i src);
            _ ←ₘ call (_get_data_source_desc mh i);
            ret ()
        end
  end.

(** The loop over the layers, or the data tables, of one frame: a
    [MapLayerError] is appended to [errors], any other exception ends
    the call. *)
Fixpoint change_items (label : Item → outside value)
    (pairs : list (option Item * option value)) (errors : list LayerError)
  : M (list LayerError) :=
  match pairs with
  | [] => ret errors
  | (item, source) :: rest =>
      λ w, match change_item label item source w with
           | (w', Returned _) => change_items label rest errors w'
           | (w', Raised (MapLayerError e)) =>
               change_items label rest (errors ++ [e]) w'
           | (w', Raised e) => (w', Raised e)
           end
  end.

(** One iteration of the loop over the frames. *)
Definition change_frame (doc : Document) (map_frame : option MapFrame)
    (map_data_sources : option (list (string * value)))
    (errors : list LayerError) : M (list LayerError) :=
  match map_data_sources with
  | None => raise (Builtin TypeError) (* 'layers' in None *)
  | Some ds =>
      if negb (has_key "layers" ds) || negb (has_key "tables" ds)
      then raise (ChangeDataSourcesError keys_missing None)
      else
        layers ←ₘ call (_list_layers mh doc map_frame);
        layer_sources ←ₘ lift (dict_item "layers" ds);
        if py_eq layer_sources VNone
        then raise (ChangeDataSourcesError layer_count_mismatch None)
        else
          n ←ₘ lift (py_len layer_sources);
          if negb (length layers =? n)%nat
          then raise (ChangeDataSourcesError layer_count_mismatch None)
          else
            sources ←ₘ lift (iterate layer_sources);
            errors ←ₘ change_items (longName mh)
                        (zip_longest layers sources) errors;
            data_tables ←ₘ call (_list_tables mh doc map_frame);
            data_table_sources ←ₘ lift (dict_item "tables" ds);
            m ←ₘ lift (py_len data_table_sources);
            if negb (length data_tables =? m)%nat
            then raise (ChangeDataSourcesError table_count_mismatch None)
            else
              sources ←ₘ lift (iterate data_table_sources);
              change_items (name mh) (zip_longest data_tables sources) errors
  end.

Fixpoint change_frames (doc : Document)
    (pairs : list (option MapFrame * option (list (string * value))))
    (errors : list LayerError) : M (list LayerError) :=
  match pairs with
  | [] => ret errors
  | (map_frame, map_data_sources) :: rest =>
      errors ←ₘ change_frame doc map_frame map_data_sources errors;
      change_frames doc rest errors
  end.

(** [change_data_sources]: [mxd_or_proj] is a [Document] or the path of
    one, [data_sources] a list of dicts. *)
Definition change_data_sources (mxd_or_proj : Document + Path)
    (data_sources : list (list (string * value))) : M unit :=
  opened ←ₘ match mxd_or_proj with
            | inl doc => ret (doc, false)
            | inr path => doc ←ₘ call (open_document mh path); ret (doc, true)
            end;
  maps ←ₘ call (_list_maps mh opened.1);
  errors ←ₘ change_frames opened.1 (zip_longest maps data_sources) [];
  if negb (length errors =? 0)%nat
  then raise (ChangeDataSourcesError errors_encountered (Some errors))
  else if opened.2 : bool then call (save mh opened.1) else ret ().
End change_data_sources.

(** An outside call that raises no [MapLayerError]. *)
Definition raises_no_layer_error {World LayerError Foreign A}
    (c : stateful World (raised LayerError Foreign) A) : Prop :=
  ∀ w w' e, c w ≠ (w', Raised (RaisedMapLayerError e)).

(** The [Arcpy] with another [open_document] and another [save]. *)
Definition with_open_and_save
    {Path Document MapFrame Item LayerError Foreign World : Type}
    (mh : @Arcpy Path Document MapFrame Item LayerError Foreign World)
    (open' : Path → stateful World (raised LayerError Foreign) Document)
    (save' : Document → stateful World (raised LayerError Foreign) unit)
  : Arcpy :=
  mkArcpy open' (_list_maps mh) (_list_layers mh) (_list_tables mh)
    (longName mh) (name mh) (_get_data_source_desc mh)
    (_change_data_source mh) save'.

(** The [Arcpy] with other calls on layers and data tables. *)
Definition with_item_calls
    {Path Document MapFrame Item LayerError Foreign World : Type}
    (mh : @Arcpy Path Document MapFrame Item LayerError Foreign World)
    (longName' name' desc' : Item → stateful World (raised LayerError Foreign) value)
    (change' : Item → value → stateful World (raised LayerError Foreign) unit)
  : Arcpy :=
  mkArcpy (open_document mh) (_list_maps mh) (_list_layers mh)
    (_list_tables mh) longName' name' desc' change' (save mh).

(** Every source of a list of sources is [None]. *)
Definition all_none (sources : value) : bool :=
  match iterate sources with
  | Ok srcs => forallb (λ s, py_eq s VNone) srcs
  | Raise _ => true
  end.

(** An entry of [data_sources] that asks for no change. *)
Definition asks_for_no_change (ds : list (string * value)) : bool :=
  match dict_get "layers" ds, dict_get "tables" ds with
  | Some ls, Some ts => all_none ls && all_none ts
  | _, _ => true
  end.

(** An entry of [data_sources] that gets past the checks of its frame. *)
Definition well_formed_sources (ds : list (string * value)) : Prop :=
  ∃ ls ts, dict_get "layers" ds = Some ls ∧ dict_get "tables" ds = Some ts
           ∧ py_eq ls VNone = false
           ∧ is_ok (py_len ls) = true ∧ is_ok (py_len ts) = true.

(** The dict [create_replacement_data_sources_list] makes for a frame. *)
Definition replacement_value (o : option (list (string * value))) : value :=
  match o with
  | Some new_conn => VDict new_conn
  | None => VNone
  end.

Definition replacements_dict (r : Replacements) : list (string * value) :=
  [("layers", VList (map replacement_value (new_layers r)));
   ("tables", VList (map replacement_value (new_tables r)))].

(** ** A small arcpy, for concrete runs *)

(** Layers and data tables are known by their names, a frame is the list
    of its layers and the list of its tables, a document the list of its
    frames, and the state holds the data source of every item that has
    one.  A data source that is not a dict is refused with a
    [MapLayerError]. *)
Definition toy_frame : Type := list string * list string.

Definition toy_arcpy (on_disk : list toy_frame)
  : @Arcpy string (list toy_frame) toy_frame string string string
      (list (string * value)) :=
  {| open_document path :=
       λ w, if String.eqb path ""
            then (w, Raised (RaisedOther "no such file"))
            else (w, Returned on_disk);
     _list_maps doc := λ w, (w, Returned doc);
     _list_layers doc map_frame :=
       λ w, match map_frame with
            | Some f => (w, Returned f.1)
            | None => (w, Raised (RaisedOther "no frame"))
            end;
     _list_tables doc map_frame :=
       λ w, match map_frame with
            | Some f => (w, Returned f.2)
            | None => (w, Raised (RaisedOther "no frame"))
            end;
     longName i := λ w, (w, Returned (VStr i));
     name i := λ w, (w, Returned (VStr i));
     _get_data_source_desc i := λ w, (w, Returned (default VNone (dict_get i w)));
     _change_data_source i src :=
       λ w, match src with
            | VDict _ => (dict_set i src w, Returned ())
            | _ => (w, Raised (RaisedMapLayerError i))
            end;
     save doc := λ w, (dict_set "saved" (VBool true) w, Returned ()) |}.

Definition toy_document : list toy_frame := [(["Roads"; "Rivers"], ["Owners"])].

Definition gdb (path : string) : value := VDict [("workspacePath", VStr path)].

(** Every exception the computation raises satisfies [P]. *)
Definition raises_only {World E A} (P : E → Prop) (m : stateful World E A)
  : Prop :=
  ∀ w w' e, m w = (w', Raised e) → P e.
(** * Results *)

(** ** List helpers *)

Lemma filter_ext_elem {A} (P Q : A → Prop) `{∀ x, Decision (P x)}
    `{∀ x, Decision (Q x)} (l : list A) :
  (∀ x, x ∈ l → P x ↔ Q x) → filter P l = filter Q l.
Proof.
  induction l as [|x l IH]; intros HPQ; [done|].
  rewrite !filter_cons. rewrite IH by (intros y Hy; apply HPQ; by right).
  destruct (decide (P x)) as [HP|HP], (decide (Q x)) as [HQ|HQ];
    try done; exfalso; apply (HPQ x) in HP || apply (HPQ x) in HQ;
    try done; by left.
Qed.

Lemma omap_ext_elem {A B} (f g : A → option B) (l : list A) :
  (∀ x, x ∈ l → f x = g x) → omap f l = omap g l.
Proof.
  induction l as [|x l IH]; intros Hfg; [done|]. csimpl.
  rewrite Hfg by left. rewrite IH; [done|].
  intros y Hy. apply Hfg. by right.
Qed.

Lemma filter_all {A} (P : A → Prop) `{∀ x, Decision (P x)} (l : list A) :
  (∀ x, x ∈ l → P x) → filter P l = l.
Proof.
  induction l as [|x l IH]; intros HP; [done|].
  rewrite filter_cons_True by (apply HP; by left).
  f_equal. apply IH. intros y Hy. apply HP. by right.
Qed.

Lemma filter_none {A} (P : A → Prop) `{∀ x, Decision (P x)} (l : list A) :
  (∀ x, x ∈ l → ¬ P x) → filter P l = [].
Proof.
  induction l as [|x l IH]; intros HP; [done|].
  rewrite filter_cons_False by (apply HP; by left).
  apply IH. intros y Hy. apply HP. by right.
Qed.

Lemma omap_none {A B} (f : A → option B) (l : list A) :
  (∀ x, x ∈ l → f x = None) → omap f l = [].
Proof.
  induction l as [|x l IH]; intros Hf; [done|]. csimpl.
  rewrite Hf by left. apply IH. intros y Hy. apply Hf. by right.
Qed.

Lemma omap_all {A B} (f : A → option B) (g : A → B) (l : list A) :
  (∀ x, x ∈ l → f x = Some (g x)) → omap f l = g <$> l.
Proof.
  induction l as [|x l IH]; intros Hf; [done|]. csimpl.
  rewrite Hf by left. f_equal. apply IH. intros y Hy. apply Hf. by right.
Qed.

(** ** The specificity tests *)

Section match_layers_facts.
Variable sd : Layer → Layer → bool.

(** The tests as one formula: the first test asks for nothing about the
    resolved layers, the other five ask for both sides unresolved. *)
Lemma test_if_matching_layer_eq st a b :
  test_if_matching_layer sd st a b =
    (same_id a b && same_name a b && sd a b)
    || (unresolved st a b && (same_id a b || same_name a b)).
Proof.
  unfold test_if_matching_layer, tests; simpl.
  destruct (same_id a b), (same_name a b), (sd a b),
    (unresolved st a b); reflexivity.
Qed.

Lemma find_was_first st now_layer pre w post :
  (∀ x, x ∈ pre → test_if_matching_layer sd st x now_layer = false) →
  test_if_matching_layer sd st w now_layer = true →
  find_was sd st now_layer (pre ++ w :: post) = Some (claim st w now_layer).
Proof.
  intros Hpre Hw. induction pre as [|x pre IH]; simpl.
  - by rewrite Hw.
  - rewrite Hpre by left. apply IH. intros y Hy. apply Hpre. by right.
Qed.

Lemma find_was_none st now_layer was_layers :
  (∀ x, x ∈ was_layers → test_if_matching_layer sd st x now_layer = false) →
  find_was sd st now_layer was_layers = None.
Proof.
  intros H. induction was_layers as [|x l IH]; simpl; [done|].
  rewrite H by left. apply IH. intros y Hy. apply H. by right.
Qed.

Lemma is_resolved_was_false st w :
  is_resolved_was st w = false ↔ resolved_was st !! index w = None.
Proof.
  unfold is_resolved_was. rewrite bool_decide_eq_false.
  by rewrite eq_None_not_Some.
Qed.

Lemma is_resolved_was_true st w :
  is_resolved_was st w = true ↔ is_Some (resolved_was st !! index w).
Proof. unfold is_resolved_was. by rewrite bool_decide_eq_true. Qed.

Lemma step_removed_unfold st rem w :
  step_removed (st, rem) w =
    if is_resolved_was st w then (st, rem)
    else ({| resolved_was := <[index w := None]> (resolved_was st);
             resolved_now := resolved_now st |}, rem ++ [w]).
Proof. reflexivity. Qed.

(** The removed-layers loop: it collects the old layers that are not
    resolved and stores [None] for each of them. *)
Lemma removed_loop was_layers : ∀ st rem,
  NoDup (index <$> was_layers) →
  let r := fold_left step_removed was_layers (st, rem) in
  r.2 = rem ++ filter (λ w, is_resolved_was st w = false) was_layers
  ∧ resolved_now r.1 = resolved_now st
  ∧ ∀ i, resolved_was r.1 !! i =
           match resolved_was st !! i with
           | Some x => Some x
           | None => if bool_decide (i ∈ index <$> was_layers)
                     then Some None else None
           end.
Proof.
  induction was_layers as [|w l IH]; intros st rem Hnd.
  - simpl. split_and!; [by rewrite app_nil_r|done|].
    intros i. by destruct (resolved_was st !! i).
  - rewrite fmap_cons in Hnd. apply NoDup_cons in Hnd as [Hw Hnd].
    cbn zeta. cbn [fold_left]. rewrite step_removed_unfold.
    destruct (is_resolved_was st w) eqn:Hres.
    + destruct (IH st rem Hnd) as (H1 & H2 & H3).
      split_and!; [|done|].
      * rewrite H1. f_equal. rewrite filter_cons_False; [done|].
        by rewrite Hres.
      * intros i. rewrite H3. destruct (resolved_was st !! i) eqn:Hi; [done|].
        assert (i ≠ index w) as Hne.
        { intros ->. apply is_resolved_was_true in Hres.
          rewrite Hi in Hres. by destruct Hres. }
        rewrite fmap_cons.
        rewrite (bool_decide_ext (i ∈ index w :: (index <$> l)) (i ∈ index <$> l));
          [done|]. rewrite elem_of_cons. split; [by intros [?|?]|by right].
    + apply is_resolved_was_false in Hres as Hwn.
      match goal with |- context [fold_left _ l (?s, ?r)] =>
        destruct (IH s r Hnd) as (H1 & H2 & H3) end.
      cbn [resolved_was resolved_now] in H2, H3.
      split_and!; [|done|].
      * rewrite H1, filter_cons_True by done. rewrite <-app_assoc.
        cbn [app]. do 2 f_equal. apply filter_ext_elem.
        intros x Hx. rewrite !is_resolved_was_false. cbn [resolved_was].
        rewrite lookup_insert_ne; [done|].
        intros Heq. apply Hw. rewrite Heq. by apply list_elem_of_fmap_2.
      * intros i. rewrite H3. rewrite fmap_cons.
        destruct (decide (i = index w)) as [->|Hne].
        -- rewrite lookup_insert_eq, Hwn.
           rewrite bool_decide_eq_true_2; [done|]. by left.
        -- rewrite lookup_insert_ne by done.
           destruct (resolved_was st !! i); [done|].
           rewrite (bool_decide_ext (i ∈ index w :: (index <$> l)) (i ∈ index <$> l));
             [done|]. rewrite elem_of_cons. split; [by intros [?|?]|by right].
Qed.

Lemma removed_loop_keeps_keys was_layers : ∀ st rem i,
  is_Some (resolved_was st !! i) →
  is_Some (resolved_was (fold_left step_removed was_layers (st, rem)).1 !! i).
Proof.
  induction was_layers as [|w l IH]; intros st rem i Hi; [done|].
  cbn [fold_left]. rewrite step_removed_unfold.
  destruct (is_resolved_was st w); apply IH; [done|].
  cbn. destruct (decide (i = index w)) as [->|Hne].
  - by rewrite lookup_insert_eq.
  - by rewrite lookup_insert_ne.
Qed.

(** After the removed-layers loop every old index is a key of
    [resolved_was]: the subscript in the last loop finds it. *)
Lemma removed_loop_stores_every_index was_layers : ∀ st rem w,
  w ∈ was_layers →
  is_Some (resolved_was (fold_left step_removed was_layers (st, rem)).1
           !! index w).
Proof.
  induction was_layers as [|w' l IH]; intros st rem w Hw;
    [by apply elem_of_nil in Hw|].
  cbn [fold_left]. rewrite step_removed_unfold.
  apply elem_of_cons in Hw as [->|Hw].
  - destruct (is_resolved_was st w') eqn:Hres;
      apply removed_loop_keeps_keys.
    + by apply is_resolved_was_true.
    + cbn. by rewrite lookup_insert_eq.
  - destruct (is_resolved_was st w'); by apply IH.
Qed.

(** The last loop pairs every old layer with the layer stored for it. *)
Lemma matched_loop st was_layers : ∀ acc,
  fold_left (step_matched st) was_layers acc =
    acc ++ omap (λ w, match resolved_was st !! index w with
                      | Some (Some n) => Some (w, n)
                      | _ => None
                      end) was_layers.
Proof.
  induction was_layers as [|w l IH]; intros acc; simpl.
  - by rewrite app_nil_r.
  - rewrite IH. unfold step_matched.
    destruct (resolved_was st !! index w) as [[n|]|]; simpl;
      by rewrite <-?app_assoc.
Qed.

(** [_match_layers] in terms of the state the first loop leaves. *)
Lemma match_layers_unfold was_layers now_layers :
  NoDup (index <$> was_layers) →
  let r := match_now sd was_layers now_layers in
  _match_layers sd was_layers now_layers =
    (r.2,
     omap (λ w, match resolved_was r.1 !! index w with
                | Some (Some n) => Some (w, n)
                | _ => None
                end) was_layers,
     filter (λ w, is_resolved_was r.1 w = false) was_layers).
Proof.
  intros Hnd r. unfold _match_layers. fold r.
  destruct r as [st1 added'] eqn:Hr.
  destruct (removed_loop was_layers st1 [] Hnd) as (H1 & H2 & H3).
  destruct (fold_left step_removed was_layers (st1, [])) as [st2 removed'].
  cbn [fst snd] in *. rewrite matched_loop. cbn [app]. rewrite H1.
  do 2 f_equal. apply omap_ext_elem. intros w Hw. rewrite H3.
  destruct (resolved_was st1 !! index w) as [[n|]|]; try done.
  rewrite bool_decide_eq_true_2; [done|]. by apply list_elem_of_fmap_2.
Qed.
End match_layers_facts.

Section single_new_layer.
Variable sd : Layer → Layer → bool.

Lemma unresolved_empty a b : unresolved (mkResolved ∅ ∅) a b = true.
Proof.
  unfold unresolved, is_resolved_was, is_resolved_now; simpl.
  rewrite !lookup_empty.
  rewrite !bool_decide_eq_false_2; [done|by intros [? ?]..].
Qed.

(** With one new layer, the first old layer that passes any test is the
    one it is paired with. *)
Lemma match_layers_single pre w post n :
  NoDup (index <$> (pre ++ w :: post)) →
  (∀ x, x ∈ pre → test_if_matching_layer sd (mkResolved ∅ ∅) x n = false) →
  test_if_matching_layer sd (mkResolved ∅ ∅) w n = true →
  _match_layers sd (pre ++ w :: post) [n] = ([], [(w, n)], pre ++ post).
Proof.
  intros Hnd Hpre Hw. rewrite match_layers_unfold by done.
  unfold match_now. cbn [fold_left]. unfold step_now. cbn [fst snd].
  rewrite (find_was_first sd _ _ _ _ _ Hpre Hw). cbn [fst snd].
  rewrite fmap_app, fmap_cons in Hnd.
  apply NoDup_app in Hnd as (Hnd1 & Hnd2 & Hnd3).
  apply NoDup_cons in Hnd3 as [Hnd3 Hnd4].
  assert (∀ x, x ∈ pre ++ post → index x ≠ index w) as Hne.
  { intros x [Hx|Hx]%elem_of_app Heq.
    - apply (Hnd2 (index x)); [by apply list_elem_of_fmap_2|].
      rewrite Heq. by left.
    - apply Hnd3. rewrite <-Heq. by apply list_elem_of_fmap_2. }
  assert (∀ x, x ∈ pre ++ post →
            resolved_was (claim (mkResolved ∅ ∅) w n) !! index x = None) as Hlk.
  { intros x Hx. cbn. rewrite lookup_insert_ne by (symmetry; by apply Hne).
    apply lookup_empty. }
  assert (resolved_was (claim (mkResolved ∅ ∅) w n) !! index w = Some (Some n))
    as Hlw by (cbn; apply lookup_insert_eq).
  generalize dependent (claim (mkResolved ∅ ∅) w n). intros st1 Hlk Hlw.
  f_equal; [f_equal|].
  - rewrite omap_app. csimpl. rewrite Hlw.
    rewrite !omap_none; [done|..]; intros x Hx; rewrite Hlk; [done| |done|];
      apply elem_of_app; auto.
  - rewrite filter_app, filter_cons_False.
    + rewrite !filter_all; [done|..]; intros x Hx;
        apply is_resolved_was_false, Hlk, elem_of_app; auto.
    + intros Hf. apply is_resolved_was_false in Hf. by rewrite Hlw in Hf.
Qed.
End single_new_layer.

(** ** Reconciling a layer list with itself *)

Lemma ForallOrdPairs_app_cons {A} (R : A → A → Prop) (P Q : list A) (l x : A) :
  ForallOrdPairs R (P ++ l :: Q) → x ∈ P → R x l.
Proof.
  induction P as [|a P IH]; intros HF Hx; [by apply elem_of_nil in Hx|].
  inversion HF as [|? ? Ha HP]; subst.
  apply elem_of_cons in Hx as [->|Hx]; [|by apply IH].
  rewrite Forall_forall in Ha. apply Ha, elem_of_app. right. by left.
Qed.

Lemma paired_with_itself_snoc P l :
  paired_with_itself (P ++ [l]) = claim (paired_with_itself P) l l.
Proof. unfold paired_with_itself. by rewrite fold_left_app. Qed.

Lemma paired_with_itself_fresh P i :
  i ∉ index <$> P →
  resolved_was (paired_with_itself P) !! i = None
  ∧ resolved_now (paired_with_itself P) !! i = None.
Proof.
  induction P as [|l P IH] using rev_ind; intros Hi.
  - split; apply lookup_empty.
  - rewrite paired_with_itself_snoc. rewrite fmap_app in Hi. cbn in *.
    apply not_elem_of_app in Hi as [Hi1 Hi2].
    apply not_elem_of_cons in Hi2 as [Hi2 _].
    rewrite !lookup_insert_ne by done. by apply IH.
Qed.

Lemma paired_with_itself_lookup P l :
  NoDup (index <$> P) → l ∈ P →
  resolved_was (paired_with_itself P) !! index l = Some (Some l).
Proof.
  induction P as [|l' P IH] using rev_ind; intros Hnd Hl.
  - by apply elem_of_nil in Hl.
  - rewrite paired_with_itself_snoc. rewrite fmap_app in Hnd. cbn in *.
    apply NoDup_app in Hnd as (Hnd1 & Hnd2 & _).
    apply elem_of_app in Hl as [Hl| ->%list_elem_of_singleton].
    + rewrite lookup_insert_ne; [by apply IH|].
      intros Heq. apply (Hnd2 (index l)); [by apply list_elem_of_fmap_2|].
      rewrite <-Heq. by left.
    + apply lookup_insert_eq.
Qed.

Section identity.
Variable sd : Layer → Layer → bool.

Lemma match_now_identity L :
  NoDup (index <$> L) →
  (∀ l, l ∈ L → same_id l l || same_name l l = true) →
  ForallOrdPairs (λ a b, unchanged sd a b = false) L →
  ∀ Q P, L = P ++ Q →
    fold_left (step_now sd L) Q (paired_with_itself P, []) =
      (paired_with_itself L, []).
Proof.
  intros Hnd Hself Hpairs. induction Q as [|l Q IH]; intros P HL.
  - rewrite app_nil_r in HL. by subst.
  - cbn [fold_left]. unfold step_now at 2. cbn [fst snd].
    assert (NoDup (index <$> P) ∧ index l ∉ index <$> P) as [HndP HlP].
    { rewrite HL, fmap_app, fmap_cons in Hnd.
      apply NoDup_app in Hnd as (? & Hd & _). split; [done|].
      intros Hin. apply (Hd _ Hin). by left. }
    assert (find_was sd (paired_with_itself P) l L =
              Some (claim (paired_with_itself P) l l)) as Hfind.
    { rewrite HL. apply find_was_first.
      - intros x Hx. rewrite test_if_matching_layer_eq.
        fold (unchanged sd x l).
        assert (unchanged sd x l = false) as ->.
        { apply (ForallOrdPairs_app_cons
                   (λ a b, unchanged sd a b = false) P Q l x); [|done].
          by rewrite <-HL. }
        unfold unresolved.
        rewrite (proj2 (is_resolved_was_true _ x)); [done|].
        by rewrite paired_with_itself_lookup.
      - rewrite test_if_matching_layer_eq.
        apply orb_true_iff. right. apply andb_true_iff. split.
        + destruct (paired_with_itself_fresh P (index l) HlP) as [H1 H2].
          unfold unresolved, is_resolved_was, is_resolved_now.
          rewrite H1, H2.
          rewrite !bool_decide_eq_false_2; [done|by intros [? ?]..].
        + apply Hself. rewrite HL. apply elem_of_app. right. by left. }
    rewrite Hfind, <-paired_with_itself_snoc. apply IH.
    by rewrite <-app_assoc.
Qed.

(** A list without a layer that the first test pairs with a later one,
    each layer having an id or a name, is matched with itself layer by
    layer. *)
Lemma match_layers_identity L :
  NoDup (index <$> L) →
  (∀ l, l ∈ L → same_id l l || same_name l l = true) →
  ForallOrdPairs (λ a b, unchanged sd a b = false) L →
  _match_layers sd L L = ([], (λ l, (l, l)) <$> L, []).
Proof.
  intros Hnd Hself Hpairs. rewrite match_layers_unfold by done.
  unfold match_now.
  change (mkResolved ∅ ∅) with (paired_with_itself []).
  rewrite (match_now_identity L Hnd Hself Hpairs L []) by done.
  cbn [fst snd]. f_equal; [f_equal|].
  - apply omap_all. intros l Hl. by rewrite paired_with_itself_lookup.
  - apply filter_none. intros l Hl Hf. apply is_resolved_was_false in Hf.
    by rewrite paired_with_itself_lookup in Hf.
Qed.
End identity.

(** ** What holds of the partition *)

Section partition.
Variable sd : Layer → Layer → bool.

(** Tests two to six never match a resolved layer: against one, only the
    first test is left. *)
Lemma resolved_layer_passes_first_test_only st a b :
  is_resolved_was st a = true ∨ is_resolved_now st b = true →
  test_if_matching_layer sd st a b = unchanged sd a b.
Proof.
  intros H. rewrite test_if_matching_layer_eq. unfold unchanged, unresolved.
  destruct H as [-> | ->]; simpl; rewrite ?andb_false_r; apply orb_false_r.
Qed.

Lemma find_was_resolved_was st now_layer was_layers st' :
  (∀ i x, resolved_was st !! i = Some x → is_Some x) →
  find_was sd st now_layer was_layers = Some st' →
  ∀ i x, resolved_was st' !! i = Some x → is_Some x.
Proof.
  intros Hst. induction was_layers as [|w l IH]; simpl; [done|].
  destruct (test_if_matching_layer sd st w now_layer); [|done].
  intros [= <-] i x. cbn. destruct (decide (i = index w)) as [->|Hne].
  - rewrite lookup_insert_eq. intros [= <-]. eauto.
  - rewrite lookup_insert_ne by done. apply Hst.
Qed.

(** The first loop stores layers only, never [None], in [resolved_was]. *)
Lemma match_now_resolved_was was_layers now_layers i x :
  resolved_was (match_now sd was_layers now_layers).1 !! i = Some x →
  is_Some x.
Proof.
  unfold match_now.
  assert (∀ acc, (∀ i x, resolved_was acc.1 !! i = Some x → is_Some x) →
            ∀ i x, resolved_was
                     (fold_left (step_now sd was_layers) now_layers acc).1
                   !! i = Some x → is_Some x) as H.
  { induction now_layers as [|n l IH]; intros acc Hacc; [done|].
    cbn [fold_left]. apply IH. unfold step_now.
    destruct (find_was sd acc.1 n was_layers) as [st'|] eqn:Hf; [|done].
    cbn [fst]. by eapply find_was_resolved_was. }
  apply H. intros j y. cbn. by rewrite lookup_empty.
Qed.

Lemma matched_old_layers st was_layers :
  (∀ i x, resolved_was st !! i = Some x → is_Some x) →
  (omap (λ w, match resolved_was st !! index w with
              | Some (Some n) => Some (w, n)
              | _ => None
              end) was_layers).*1
  = filter (λ w, is_resolved_was st w = true) was_layers.
Proof.
  intros Hst. induction was_layers as [|w l IH]; [done|]. csimpl.
  rewrite filter_cons.
  destruct (resolved_was st !! index w) as [[n|]|] eqn:Hl.
  - rewrite decide_True; [by rewrite fmap_cons, IH|].
    apply is_resolved_was_true. by rewrite Hl.
  - apply Hst in Hl. by destruct Hl.
  - rewrite decide_False; [apply IH|].
    intros Hres%is_resolved_was_true. rewrite Hl in Hres. by destruct Hres.
Qed.

(** Every old layer is in exactly one of [matched] and [removed]. *)
Lemma match_layers_old_side was_layers now_layers :
  NoDup (index <$> was_layers) →
  (_match_layers sd was_layers now_layers).1.2.*1
    ++ (_match_layers sd was_layers now_layers).2
  ≡ₚ was_layers.
Proof.
  intros Hnd. rewrite match_layers_unfold by done. cbn [fst snd].
  rewrite matched_old_layers by apply match_now_resolved_was.
  set (st := (match_now sd was_layers now_layers).1).
  rewrite <-(filter_app_complement (λ w, is_resolved_was st w = true)
               was_layers) at 3.
  f_equiv. apply reflexive_eq, filter_ext_elem. intros w _.
  by destruct (is_resolved_was st w).
Qed.
End partition.

(** ** The order on canonical forms *)

Lemma canon_ind_nested (P : canon → Prop) :
  P CNone → (∀ b, P (CBool b)) → (∀ n, P (CInt n)) → (∀ s, P (CStr s)) →
  (∀ xs, Forall P xs → P (CList xs)) →
  (∀ k v, P v → P (CItem k v)) →
  ∀ c, P c.
Proof.
  intros HN HB HI HS HL HT. fix IH 1. intros [| b | n | s | xs | k v].
  - exact HN.
  - apply HB.
  - apply HI.
  - apply HS.
  - apply HL. induction xs as [|x xs IHxs]; constructor; [apply IH|exact IHxs].
  - apply HT, IH.
Qed.

Lemma Z_cmp_laws (x : Z) : cmp_laws Z.compare x.
Proof.
  split_and!.
  - apply Z.compare_refl.
  - intros y. apply Z.compare_antisym.
  - intros y z ->%Z.compare_eq. done.
  - intros y z H1 H2.
    destruct (Z.compare_spec x y), (Z.compare_spec y z), (Z.compare_spec x z);
      try done; lia.
Qed.

Lemma ascii_cmp_laws (x : ascii) : cmp_laws Ascii.compare x.
Proof.
  unfold Ascii.compare. split_and!.
  - apply N.compare_refl.
  - intros y. apply N.compare_antisym.
  - intros y z H%N.compare_eq. by rewrite H.
  - intros y z H1 H2.
    destruct (N.compare_spec (N_of_ascii x) (N_of_ascii y)),
      (N.compare_spec (N_of_ascii y) (N_of_ascii z)),
      (N.compare_spec (N_of_ascii x) (N_of_ascii z)); try done; lia.
Qed.

Lemma string_cmp_laws (x : string) : cmp_laws String.compare x.
Proof.
  induction x as [|c x (I1 & I2 & I3 & I4)].
  - split_and!; [done|by intros []|by intros [] []|].
    intros [|d y] [|e z]; simpl; try done;
      by destruct (Ascii.compare d e), (String.compare y z).
  - destruct (ascii_cmp_laws c) as (A1 & A2 & A3 & A4).
    split_and!.
    + simpl. by rewrite A1.
    + intros [|d y]; simpl; [done|].
      rewrite A2, I2. by destruct (Ascii.compare c d).
    + intros [|d y] [|e z]; simpl; try done;
        destruct (Ascii.compare c d) eqn:Hcd; try done;
        intros Hl; rewrite (A3 d e Hcd); destruct (Ascii.compare d e); auto.
    + intros [|d y] [|e z]; simpl; try done;
        destruct (Ascii.compare c d) eqn:Hcd; try done; intros Hl Hg.
      * rewrite (A3 d e Hcd).
        destruct (Ascii.compare d e); [by apply (I4 y z)|done..].
      * rewrite (A4 d e Hcd); [done|]. intros Hgt. by rewrite Hgt in Hg.
Qed.

Lemma lex_cmp_laws {A} (cmp : A → A → comparison) (xs : list A) :
  Forall (cmp_laws cmp) xs → cmp_laws (lex_cmp cmp) xs.
Proof.
  induction 1 as [|x xs (X1 & X2 & X3 & X4) _ (I1 & I2 & I3 & I4)].
  - split_and!; [done|by intros []|by intros [] []|].
    intros [|y ys] [|z zs]; simpl; try done;
      by destruct (cmp y z), (lex_cmp cmp ys zs).
  - split_and!.
    + simpl. by rewrite X1.
    + intros [|y ys]; simpl; [done|].
      rewrite X2, I2. by destruct (cmp x y).
    + intros [|y ys] [|z zs]; simpl; try done;
        destruct (cmp x y) eqn:Hxy; try done;
        intros Hl; rewrite (X3 y z Hxy); destruct (cmp y z); auto.
    + intros [|y ys] [|z zs]; simpl; try done;
        destruct (cmp x y) eqn:Hxy; try done; intros Hl Hg.
      * rewrite (X3 y z Hxy).
        destruct (cmp y z); [by apply (I4 ys zs)|done..].
      * rewrite (X4 y z Hxy); [done|]. intros Hgt. by rewrite Hgt in Hg.
Qed.

Lemma pair_cmp_laws {A B} (ca : A → A → comparison) (cb : B → B → comparison)
    (a : A) (b : B) :
  cmp_laws ca a → cmp_laws cb b →
  cmp_laws (λ p q : A * B, match ca p.1 q.1 with
                           | Eq => cb p.2 q.2
                           | c => c
                           end) (a, b).
Proof.
  intros (A1 & A2 & A3 & A4) (B1 & B2 & B3 & B4). split_and!; simpl.
  - by rewrite A1.
  - intros [a' b']; simpl. rewrite A2, B2. by destruct (ca a a').
  - intros [a' b'] [a'' b'']; simpl.
    destruct (ca a a') eqn:Ha; try done.
    intros Hb. rewrite (A3 a' a'' Ha). destruct (ca a' a''); auto.
  - intros [a' b'] [a'' b'']; simpl.
    destruct (ca a a') eqn:Ha; try done; intros Hb Hg.
    + rewrite (A3 a' a'' Ha).
      destruct (ca a' a''); [by apply (B4 b' b'')|done..].
    + rewrite (A4 a' a'' Ha); [done|]. intros Hgt. by rewrite Hgt in Hg.
Qed.

Lemma canon_cmp_laws (x : canon) : cmp_laws canon_cmp x.
Proof.
  induction x as [|b|n|s|xs IH|k v IH] using canon_ind_nested.
  - split_and!; [done|by intros []|by intros [] []|by intros [] []].
  - destruct (Z_cmp_laws (Z.b2z b)) as (Z1 & Z2 & Z3 & Z4).
    split_and!; [apply Z1|intros []; simpl; try done; apply Z2|..];
      intros [] []; simpl; try done; first [apply Z3|apply Z4].
  - destruct (Z_cmp_laws n) as (Z1 & Z2 & Z3 & Z4).
    split_and!; [apply Z1|intros []; simpl; try done; apply Z2|..];
      intros [] []; simpl; try done; first [apply Z3|apply Z4].
  - destruct (string_cmp_laws s) as (S1 & S2 & S3 & S4).
    split_and!; [apply S1|intros []; simpl; try done; apply S2|..];
      intros [] []; simpl; try done; first [apply S3|apply S4].
  - destruct (lex_cmp_laws canon_cmp xs IH) as (L1 & L2 & L3 & L4).
    split_and!; [apply L1|intros []; simpl; try done; apply L2|..];
      intros [] []; simpl; try done; first [apply L3|apply L4].
  - destruct (pair_cmp_laws String.compare canon_cmp k v
                (string_cmp_laws k) IH) as (P1 & P2 & P3 & P4).
    split_and!; [apply P1|intros [| | | | |k' v']; simpl; try done;
                           apply (P2 (k', v'))|..];
      intros [| | | | |k' v'] [| | | | |k'' v'']; simpl; try done;
      first [apply (P3 (k', v') (k'', v''))|apply (P4 (k', v') (k'', v''))].
Qed.

Lemma canon_cmp_refl x : canon_cmp x x = Eq.
Proof. apply canon_cmp_laws. Qed.

Lemma canon_cmp_antisym x y : canon_cmp y x = CompOpp (canon_cmp x y).
Proof. apply canon_cmp_laws. Qed.

Lemma canon_cmp_eq_l x y z :
  canon_cmp x y = Eq → canon_cmp x z = canon_cmp y z.
Proof. apply canon_cmp_laws. Qed.

Lemma canon_cmp_lt_le x y z :
  canon_cmp x y = Lt → canon_cmp y z ≠ Gt → canon_cmp x z = Lt.
Proof. apply canon_cmp_laws. Qed.

#[local] Instance canon_equiv_equivalence : Equivalence canon_equiv.
Proof.
  unfold canon_equiv. split.
  - intros x. apply canon_cmp_refl.
  - intros x y H. by rewrite canon_cmp_antisym, H.
  - intros x y z Hxy Hyz. by rewrite (canon_cmp_eq_l x y z Hxy).
Qed.

#[local] Instance canon_le_transitive : Transitive canon_le.
Proof.
  unfold canon_le. intros x y z Hxy Hyz.
  destruct (canon_cmp x y) eqn:H; [|by rewrite (canon_cmp_lt_le x y z H)|done].
  by rewrite (canon_cmp_eq_l x y z H).
Qed.

Lemma canon_le_antisym x y : canon_le x y → canon_le y x → canon_equiv x y.
Proof.
  unfold canon_le, canon_equiv. rewrite (canon_cmp_antisym x y).
  by destruct (canon_cmp x y).
Qed.

Lemma canon_le_flip x y : canon_cmp x y ≠ Lt → canon_le y x.
Proof.
  unfold canon_le. rewrite (canon_cmp_antisym x y).
  by destruct (canon_cmp x y).
Qed.

(** [==] is the equivalence of the order. *)
Lemma list_eqb_lex_cmp {A} (eq : A → A → bool) (cmp : A → A → comparison) xs :
  Forall (λ x, ∀ y, eq x y = match cmp x y with Eq => true | _ => false end) xs →
  ∀ ys, list_eqb eq xs ys =
        match lex_cmp cmp xs ys with Eq => true | _ => false end.
Proof.
  induction 1 as [|x xs Hx _ IH]; intros [|y ys]; simpl; try done.
  rewrite Hx, IH. by destruct (cmp x y).
Qed.

Lemma string_eqb_compare s t :
  String.eqb s t = match String.compare s t with Eq => true | _ => false end.
Proof.
  destruct (String.eqb_spec s t) as [->|Hne].
  - by rewrite (proj1 (string_cmp_laws t)).
  - destruct (String.compare s t) eqn:Hc; try done.
    by apply String.compare_eq_iff in Hc.
Qed.

Lemma Z_eqb_compare (m n : Z) :
  (m =? n) = match m ?= n with Eq => true | _ => false end.
Proof. destruct (Z.eqb_spec m n), (Z.compare_spec m n); try done; lia. Qed.

Lemma canon_eq_cmp x : ∀ y,
  canon_eq x y = match canon_cmp x y with Eq => true | _ => false end.
Proof.
  induction x as [|b|n|s|xs IH|k v IH] using canon_ind_nested;
    intros [| | | |ys|k' v']; simpl; try done;
    try apply Z_eqb_compare; try apply string_eqb_compare.
  - by apply list_eqb_lex_cmp.
  - rewrite string_eqb_compare, IH. by destruct (String.compare k k').
Qed.

Lemma canon_eq_equiv x y : canon_eq x y = true ↔ canon_equiv x y.
Proof.
  unfold canon_equiv. rewrite canon_eq_cmp. by destruct (canon_cmp x y).
Qed.

(** [<] agrees with the order wherever it evaluates. *)
Lemma lex_lt_lex_cmp xs :
  Forall (λ x, ∀ y b, canon_lt x y = Ok b →
                      b = match canon_cmp x y with Lt => true | _ => false end) xs →
  ∀ ys b, lex_lt canon_eq canon_lt xs ys = Ok b →
          b = match lex_cmp canon_cmp xs ys with Lt => true | _ => false end.
Proof.
  induction 1 as [|x xs Hx _ IH]; intros [|y ys] b; simpl;
    try (intros [= <-]; done).
  rewrite canon_eq_cmp. destruct (canon_cmp x y) eqn:Hc.
  - apply IH.
  - intros Hlt. apply Hx in Hlt. by rewrite Hc in Hlt.
  - intros Hlt. apply Hx in Hlt. by rewrite Hc in Hlt.
Qed.

Lemma canon_lt_cmp x : ∀ y b,
  canon_lt x y = Ok b →
  b = match canon_cmp x y with Lt => true | _ => false end.
Proof.
  induction x as [|b|n|s|xs IH|k v IH] using canon_ind_nested;
    intros [| | | |ys|k' v'] b'; simpl; try done; try (intros [= <-]; done).
  - by apply lex_lt_lex_cmp.
  - rewrite string_eqb_compare, canon_eq_cmp.
    destruct (String.compare k k') eqn:Hk;
      try (intros [= <-]; unfold String.ltb; by rewrite Hk).
    destruct (canon_cmp v v') eqn:Hv; try (intros [= <-]; done).
    + intros Hlt. apply IH in Hlt. by rewrite Hv in Hlt.
    + intros Hlt. apply IH in Hlt. by rewrite Hv in Hlt.
Qed.

(** ** [sorted] on pairwise comparable elements *)

Lemma insert_sorted_spec x l :
  (∀ y, y ∈ l → is_ok (canon_lt x y) = true) →
  StronglySorted canon_le l →
  ∃ l', insert_sorted x l = Ok l' ∧ l' ≡ₚ x :: l ∧ StronglySorted canon_le l'.
Proof.
  induction l as [|y l IH]; intros Hcmp Hs.
  - exists [x]. split_and!; [done..|]. repeat constructor.
  - apply StronglySorted_cons in Hs as [Hy Hs]. simpl.
    destruct (canon_lt x y) as [b|] eqn:Hlt;
      [|by specialize (Hcmp y ltac:(left)); rewrite Hlt in Hcmp].
    apply canon_lt_cmp in Hlt as Hb. simpl. destruct b.
    + exists (x :: y :: l). split_and!; [done..|].
      assert (canon_le x y) as Hxy.
      { unfold canon_le. by destruct (canon_cmp x y). }
      apply StronglySorted_cons. split; [|by apply StronglySorted_cons].
      constructor; [done|].
      eapply Forall_impl; [exact Hy|]. intros z Hz. by etrans.
    + destruct IH as (l' & -> & Hp & Hs'); [|done|].
      { intros z Hz. apply Hcmp. by right. }
      exists (y :: l'). split_and!; [done|..].
      * rewrite Hp. apply Permutation_swap.
      * apply StronglySorted_cons. split; [|done].
        rewrite Hp. constructor; [|done].
        apply canon_le_flip. by destruct (canon_cmp x y).
Qed.

Lemma sorted_from_spec l : ∀ acc,
  StronglySorted canon_le acc →
  (∀ x y, x ∈ l → y ∈ acc → is_ok (canon_lt x y) = true) →
  ForallOrdPairs (λ a b, is_ok (canon_lt b a) = true) l →
  ∃ s, sorted_from acc l = Ok s ∧ s ≡ₚ acc ++ l ∧ StronglySorted canon_le s.
Proof.
  induction l as [|x l IH]; intros acc Hs Hacc Hl; simpl.
  - exists acc. by rewrite app_nil_r.
  - inversion Hl as [|? ? Hx Hl']; subst.
    destruct (insert_sorted_spec x acc) as (acc' & -> & Hp & Hs'); [|done|].
    { intros y Hy. apply Hacc; [by left|done]. }
    simpl. destruct (IH acc' Hs') as (s & -> & Hps & Hss); [|done|].
    + intros x' y Hx' Hy. rewrite Hp in Hy.
      apply elem_of_cons in Hy as [->|Hy].
      * rewrite Forall_forall in Hx. by apply Hx.
      * apply Hacc; [by right|done].
    + exists s. split_and!; [done| |done].
      rewrite Hps, Hp. simpl. apply Permutation_middle.
Qed.

Lemma sorted_spec l :
  pairwise_comparable l →
  ∃ s, sorted l = Ok s ∧ s ≡ₚ l ∧ StronglySorted canon_le s.
Proof.
  intros Hl. apply (sorted_from_spec l []).
  - constructor.
  - intros x y _ Hy. by apply elem_of_nil in Hy.
  - unfold pairwise_comparable in Hl. induction Hl as [|a l Ha _ IH];
      constructor; [|done].
    eapply Forall_impl; [exact Ha|]. by intros b [_ ?].
Qed.

Lemma pairwise_comparable_perm l1 l2 :
  l1 ≡ₚ l2 → pairwise_comparable l1 → pairwise_comparable l2.
Proof.
  unfold pairwise_comparable.
  induction 1 as [|x l1 l2 Hp IH|x y l|l1 l2 l3 _ IH1 _ IH2]; intros Hl.
  - done.
  - inversion Hl as [|? ? Hx Hl']; subst. constructor; [|by apply IH].
    by rewrite <-Hp.
  - inversion Hl as [|? ? Hy Hl']; subst.
    inversion Hl' as [|? ? Hx Hl'']; subst.
    inversion Hy as [|? ? Hyx Hy']; subst.
    constructor; [|by constructor].
    constructor; [|done]. destruct Hyx. by split.
  - auto.
Qed.

Lemma equiv_shift a b : ∀ x x',
  canon_equiv x x' →
  (∀ y, y ∈ a → canon_equiv x y) →
  Forall2 canon_equiv (x :: a ++ b) (a ++ x' :: b).
Proof.
  induction a as [|y a IH]; intros x x' Hx Ha; simpl.
  - constructor; [done|]. apply Forall2_same_length_lookup_2; [done|].
    intros. by simplify_eq.
  - assert (canon_equiv x y) as Hxy by (apply Ha; by left).
    constructor; [done|]. apply IH.
    + by rewrite <-Hxy.
    + intros z Hz. rewrite <-Hxy. apply Ha. by right.
Qed.

(** Two sorted arrangements of the same elements agree position by
    position up to [==]. *)
Lemma sorted_equiv_unique s1 : ∀ s2,
  StronglySorted canon_le s1 → StronglySorted canon_le s2 → s1 ≡ₚ s2 →
  Forall2 canon_equiv s1 s2.
Proof.
  induction s1 as [|x t1 IH]; intros s2 H1 H2 Hp.
  - apply Permutation_nil in Hp. by subst.
  - apply StronglySorted_cons in H1 as [Hx H1].
    assert (x ∈ s2) as Hin by (rewrite <-Hp; by left).
    apply list_elem_of_split in Hin as (a & b & ->).
    apply Permutation_cons_app_inv in Hp.
    apply StronglySorted_app in H2 as (Hab & Ha & Hxb).
    apply StronglySorted_cons in Hxb as [Hxb Hb].
    assert (∀ y, y ∈ a → canon_equiv x y) as Hxa.
    { intros y Hy. apply canon_le_antisym.
      - rewrite Forall_forall in Hx. apply Hx. rewrite Hp.
        apply elem_of_app. by left.
      - apply Hab; [done|by left]. }
    assert (Forall2 canon_equiv t1 (a ++ b)) as Ht.
    { apply IH; [done| |done]. apply StronglySorted_app. split_and!; [|done..].
      intros y z Hy Hz. apply Hab; [done|by right]. }
    trans (x :: a ++ b); [by constructor|by apply equiv_shift].
Qed.

Lemma Forall2_equiv_list_eqb s1 s2 :
  Forall2 canon_equiv s1 s2 → list_eqb canon_eq s1 s2 = true.
Proof.
  induction 1 as [|x y s1 s2 Hxy _ IH]; simpl; [done|].
  by rewrite (proj2 (canon_eq_equiv x y) Hxy).
Qed.

(** [sorted] does not depend on the order of its argument. *)
Lemma sorted_perm l1 l2 :
  l1 ≡ₚ l2 → pairwise_comparable l1 →
  ∃ s1 s2, sorted l1 = Ok s1 ∧ sorted l2 = Ok s2
           ∧ canon_eq (CList s1) (CList s2) = true.
Proof.
  intros Hp Hc.
  destruct (sorted_spec l1 Hc) as (s1 & Hs1 & Hp1 & Hss1).
  destruct (sorted_spec l2 (pairwise_comparable_perm l1 l2 Hp Hc))
    as (s2 & Hs2 & Hp2 & Hss2).
  exists s1, s2. split_and!; [done..|]. simpl.
  apply Forall2_equiv_list_eqb, sorted_equiv_unique; [done..|].
  by rewrite Hp1, Hp2.
Qed.

(** ** Comprehensions *)

Lemma comprehension_cons {A B} (f : A → result B) x l :
  comprehension f (x :: l) =
    y ← f x; ys ← comprehension f l; Ok (y :: ys).
Proof. reflexivity. Qed.

Lemma comprehension_cons_ok {A B} (f : A → result B) x l r :
  comprehension f (x :: l) = Ok r ↔
  ∃ y ys, f x = Ok y ∧ comprehension f l = Ok ys ∧ r = y :: ys.
Proof.
  rewrite comprehension_cons. split.
  - destruct (f x) as [y|]; [|done].
    destruct (comprehension f l) as [ys|]; [|done].
    intros [= <-]. by exists y, ys.
  - by intros (y & ys & -> & -> & ->).
Qed.

Lemma comprehension_ok {A B} (f : A → result B) l r :
  comprehension f l = Ok r ↔ Forall2 (λ x y, f x = Ok y) l r.
Proof.
  revert r. induction l as [|x l IH]; intros r.
  - simpl. split; [by intros [= <-]; constructor|by inversion 1].
  - rewrite comprehension_cons_ok. split.
    + intros (y & ys & Hx & Hl & ->). constructor; [done|by apply IH].
    + inversion 1 as [|? y ? ys Hx Hl]; subst. exists y, ys.
      split_and!; [done| |done]. by apply IH.
Qed.

Lemma comprehension_perm {A B} (f : A → result B) l1 l2 :
  l1 ≡ₚ l2 → ∀ r1, comprehension f l1 = Ok r1 →
  ∃ r2, comprehension f l2 = Ok r2 ∧ r1 ≡ₚ r2.
Proof.
  induction 1 as [|x l1 l2 _ IH|x y l|l1 l2 l3 _ IH1 _ IH2]; intros r1.
  - intros ?. by exists r1.
  - intros (y & ys & Hx & Hl & ->)%comprehension_cons_ok.
    destruct (IH ys Hl) as (r2 & Hr2 & Hp). exists (y :: r2). split.
    + apply comprehension_cons_ok. by exists y, r2.
    + by constructor.
  - intros (y' & ys & Hy & (x' & xs & Hx & Hl & ->)%comprehension_cons_ok & ->)
      %comprehension_cons_ok.
    exists (x' :: y' :: xs). split; [|apply Permutation_swap].
    apply comprehension_cons_ok. exists x', (y' :: xs). split_and!; [done| |done].
    apply comprehension_cons_ok. by exists y', xs.
  - intros Hr1. destruct (IH1 r1 Hr1) as (r2 & Hr2 & Hp12).
    destruct (IH2 r2 Hr2) as (r3 & Hr3 & Hp23). exists r3.
    split; [done|by etrans].
Qed.

(** ** Deep equality: [_recursive_sort] and [_attr_deep_eq] *)

Lemma canon_eq_refl c : canon_eq c c = true.
Proof. by apply canon_eq_equiv. Qed.

Lemma canon_eq_sym c1 c2 : canon_eq c1 c2 = true → canon_eq c2 c1 = true.
Proof. rewrite !canon_eq_equiv. by intros ->. Qed.

Lemma canon_eq_trans c1 c2 c3 :
  canon_eq c1 c2 = true → canon_eq c2 c3 = true → canon_eq c1 c3 = true.
Proof. rewrite !canon_eq_equiv. by intros -> ->. Qed.

Lemma canonical_eq_true a b :
  canonical_eq a b = Ok true ↔
  ∃ ca cb, _recursive_sort a = Ok ca ∧ _recursive_sort b = Ok cb
           ∧ canon_eq ca cb = true.
Proof.
  unfold canonical_eq. split.
  - destruct (_recursive_sort a) as [ca|]; simpl; [|done].
    destruct (_recursive_sort b) as [cb|]; simpl; [|done].
    intros [= H]. by exists ca, cb.
  - intros (ca & cb & -> & -> & H). simpl. by rewrite H.
Qed.

Lemma attr_deep_eq_canonical a b attr_key va vb :
  dict_get attr_key a = Some va → dict_get attr_key b = Some vb →
  _attr_deep_eq a b attr_key = canonical_eq va vb.
Proof. intros Ha Hb. unfold _attr_deep_eq. by rewrite Ha, Hb. Qed.

Lemma recursive_sort_list xs :
  _recursive_sort (VList xs) =
    ys ← comprehension _recursive_sort xs; CList <$> sorted ys.
Proof. reflexivity. Qed.

Lemma recursive_sort_dict d :
  _recursive_sort (VDict d) =
    items ← comprehension
              (λ kv, v' ← _recursive_sort kv.2; Ok (CItem kv.1 v')) d;
    CList <$> sorted items.
Proof. reflexivity. Qed.

(** The items of a dict with pairwise distinct keys are pairwise
    comparable: the keys decide. *)
Lemma dict_items_comparable d : ∀ items,
  NoDup d.*1 →
  Forall2 (λ (kv : string * value) it,
             (v' ← _recursive_sort kv.2; Ok (CItem kv.1 v')) = Ok it) d items →
  pairwise_comparable items.
Proof.
  unfold pairwise_comparable.
  induction d as [|[k v] d IH]; intros items Hnd HF.
  - inversion HF. constructor.
  - inversion HF as [|? it ? its Hit Hits]; subst. simpl in *.
    apply NoDup_cons in Hnd as [Hk Hnd]. constructor; [|by apply IH].
    destruct (_recursive_sort v) as [c|]; simpl in Hit; [|done].
    injection Hit as <-.
    clear IH HF. induction Hits as [|[k' w] it' d its Hit' _ IH']; [done|].
    simpl in *. apply not_elem_of_cons in Hk as [Hkk' Hk].
    apply NoDup_cons in Hnd as [_ Hnd].
    constructor; [|by apply IH'].
    destruct (_recursive_sort w) as [c'|]; simpl in Hit'; [|done].
    injection Hit' as <-. unfold comparable. simpl.
    rewrite (proj2 (String.eqb_neq k k')) by done.
    rewrite (proj2 (String.eqb_neq k' k)) by done. done.
Qed.

Lemma canonical_eq_of_perm (a b : value) l1 l2 :
  _recursive_sort a = CList <$> sorted l1 →
  _recursive_sort b = CList <$> sorted l2 →
  l1 ≡ₚ l2 → pairwise_comparable l1 →
  canonical_eq a b = Ok true.
Proof.
  intros Ha Hb Hp Hc.
  destruct (sorted_perm l1 l2 Hp Hc) as (s1 & s2 & Hs1 & Hs2 & Heq).
  apply canonical_eq_true. exists (CList s1), (CList s2).
  by rewrite Ha, Hb, Hs1, Hs2.
Qed.

Lemma canonical_eq_list_perm l1 l2 cs :
  l1 ≡ₚ l2 →
  comprehension _recursive_sort l1 = Ok cs →
  pairwise_comparable cs →
  canonical_eq (VList l1) (VList l2) = Ok true.
Proof.
  intros Hp Hcs Hc.
  destruct (comprehension_perm _ l1 l2 Hp cs Hcs) as (cs2 & Hcs2 & Hpc).
  apply (canonical_eq_of_perm _ _ cs cs2); [..|done|done].
  - by rewrite recursive_sort_list, Hcs.
  - by rewrite recursive_sort_list, Hcs2.
Qed.

Lemma canonical_eq_dict_perm d1 d2 :
  NoDup d1.*1 → d1 ≡ₚ d2 →
  is_ok (_recursive_sort (VDict d1)) = true →
  canonical_eq (VDict d1) (VDict d2) = Ok true.
Proof.
  intros Hnd Hp Hok. rewrite recursive_sort_dict in Hok.
  destruct (comprehension _ d1) as [items|] eqn:Hitems; [|done].
  destruct (comprehension_perm _ d1 d2 Hp items Hitems) as (items2 & Hi2 & Hpi).
  apply (canonical_eq_of_perm _ _ items items2); [..|done|].
  - by rewrite recursive_sort_dict, Hitems.
  - by rewrite recursive_sort_dict, Hi2.
  - apply (dict_items_comparable d1); [done|]. by apply comprehension_ok.
Qed.

(** ** Shallow equality *)

Lemma value_ind_nested (P : value → Prop) :
  P VNone → (∀ b, P (VBool b)) → (∀ n, P (VInt n)) → (∀ s, P (VStr s)) →
  (∀ xs, Forall P xs → P (VList xs)) →
  (∀ d, Forall (λ kv, P kv.2) d → P (VDict d)) →
  ∀ v, P v.
Proof.
  intros HN HB HI HS HL HD. fix IH 1. intros [| b | n | s | xs | d].
  - exact HN.
  - apply HB.
  - apply HI.
  - apply HS.
  - apply HL. induction xs as [|x xs IHxs]; constructor; [apply IH|exact IHxs].
  - apply HD. induction d as [|[k v] d IHd]; constructor; [apply IH|exact IHd].
Qed.

Lemma dict_get_elem {A} (d : list (string * A)) k v :
  NoDup d.*1 → (k, v) ∈ d → dict_get k d = Some v.
Proof.
  induction d as [|[k' v'] d IH]; intros Hnd Hin; [by apply elem_of_nil in Hin|].
  simpl in *. apply NoDup_cons in Hnd as [Hk Hnd].
  apply elem_of_cons in Hin as [[= -> ->]|Hin].
  - by rewrite String.eqb_refl.
  - destruct (String.eqb_spec k k') as [->|_]; [|by apply IH].
    exfalso. apply Hk. by apply (list_elem_of_fmap_2 fst _ (k', v)).
Qed.

Lemma list_eqb_refl {A} (eq : A → A → bool) xs :
  Forall (λ x, eq x x = true) xs → list_eqb eq xs xs = true.
Proof. induction 1 as [|x xs Hx _ IH]; simpl; [done|]. by rewrite Hx. Qed.

(** [v == v] for every value whose dicts are well formed. *)
Lemma py_eq_refl v : wf_value v = true → py_eq v v = true.
Proof.
  induction v as [|b|n|s|xs IH|d IH] using value_ind_nested; simpl; try done.
  - intros _. apply Z.eqb_refl.
  - intros _. apply Z.eqb_refl.
  - intros _. apply String.eqb_refl.
  - intros Hwf. apply list_eqb_refl.
    rewrite forallb_forall in Hwf. rewrite Forall_forall in IH |- *.
    intros x Hx. apply IH; [done|]. apply Hwf. by apply list_elem_of_In.
  - intros [Hnd Hwf]%andb_true_iff. apply bool_decide_eq_true in Hnd.
    rewrite Nat.eqb_refl. simpl. unfold items_in. apply forallb_forall.
    intros [k v] Hin%list_elem_of_In. simpl.
    rewrite (dict_get_elem d k v Hnd Hin).
    rewrite forallb_forall in Hwf. rewrite Forall_forall in IH.
    apply (IH (k, v) Hin). apply (Hwf (k, v)). by apply list_elem_of_In.
Qed.

(** A layer that carries a key with a well-formed value agrees with itself
    on it. *)
Lemma attr_shallow_eq_refl a attr_key v :
  dict_get attr_key a = Some v → wf_value v = true →
  _attr_shallow_eq a a attr_key = true.
Proof. intros Hv Hwf. unfold _attr_shallow_eq. rewrite Hv. by apply py_eq_refl. Qed.

(** ** The field-level differ on identical layers *)

Lemma field_changed_self s key a :
  match dict_get key a with
  | Some v => field_comparable s v = true
  | None => True
  end →
  field_changed s key a a = Ok false.
Proof.
  unfold field_changed, _attr_shallow_eq, _attr_deep_eq.
  destruct (dict_get key a) as [v|]; [|done].
  destruct s; simpl.
  - intros Hwf. by rewrite py_eq_refl.
  - destruct (_recursive_sort v) as [c|]; [|done]. intros _. simpl.
    by rewrite canon_eq_refl.
Qed.

Lemma diff_fields_self comparable_fields a :
  forallb (λ ks : string * Strictness,
             match dict_get ks.1 a with
             | Some v => field_comparable ks.2 v
             | None => true
             end) comparable_fields = true →
  diff_fields comparable_fields a a = Ok [].
Proof.
  induction comparable_fields as [|[key s] l IH]; simpl; [done|].
  intros [Hk Hl]%andb_true_iff. rewrite field_changed_self.
  - simpl. by rewrite IH.
  - by destruct (dict_get key a).
Qed.

(** ** Deep equality of reordered values *)

Lemma forall2_Forall2 {A B} (R : A → B → Prop) xs ys :
  forall2 R xs ys ↔ Forall2 R xs ys.
Proof.
  revert ys. induction xs as [|x xs IH]; intros [|y ys]; simpl.
  - split; [constructor|done].
  - split; [done|inversion 1].
  - split; [done|inversion 1].
  - rewrite IH. split; [intros []; by constructor|by inversion 1].
Qed.

Lemma foldr_and_Forall {A} (P : A → Prop) l :
  foldr (λ x Q, P x ∧ Q) True l ↔ Forall P l.
Proof.
  induction l as [|x l IH]; simpl; [split; [constructor|done]|].
  by rewrite IH, Forall_cons.
Qed.

Lemma canon_cmp_equiv x x' y y' :
  canon_equiv x x' → canon_equiv y y' → canon_cmp x y = canon_cmp x' y'.
Proof.
  unfold canon_equiv. intros Hx Hy.
  rewrite (canon_cmp_eq_l x x' y Hx).
  rewrite (canon_cmp_antisym y x'), (canon_cmp_antisym y' x').
  by rewrite (canon_cmp_eq_l y y' x' Hy).
Qed.

Lemma canon_le_equiv x x' y y' :
  canon_equiv x x' → canon_equiv y y' → canon_le x y → canon_le x' y'.
Proof. unfold canon_le. intros Hx Hy. by rewrite (canon_cmp_equiv x x' y y'). Qed.

(** Whether [x < y] evaluates depends on [x] and [y] up to [==] only. *)
Lemma lex_lt_ok_equiv xs :
  Forall (λ x, ∀ x' y y', canon_equiv x x' → canon_equiv y y' →
                is_ok (canon_lt x y) = is_ok (canon_lt x' y')) xs →
  ∀ xs' ys ys',
    lex_cmp canon_cmp xs xs' = Eq → lex_cmp canon_cmp ys ys' = Eq →
    is_ok (lex_lt canon_eq canon_lt xs ys)
    = is_ok (lex_lt canon_eq canon_lt xs' ys').
Proof.
  induction 1 as [|x xs Hx _ IH]; intros [|x' xs'] [|y ys] [|y' ys'];
    simpl; try done.
  destruct (canon_cmp x x') eqn:Hxx; try done.
  destruct (canon_cmp y y') eqn:Hyy; try done. intros Hxs Hys.
  rewrite !canon_eq_cmp, (canon_cmp_equiv x x' y y' Hxx Hyy).
  destruct (canon_cmp x' y'); [by apply IH|by apply Hx..].
Qed.

Lemma canon_lt_ok_equiv x : ∀ x' y y',
  canon_equiv x x' → canon_equiv y y' →
  is_ok (canon_lt x y) = is_ok (canon_lt x' y').
Proof.
  unfold canon_equiv.
  induction x as [|b|n|s|xs IH|k v IH] using canon_ind_nested;
    intros [| | | |xs'|k' v'] [| | | |ys|ky vy] [| | | |ys'|ky' vy'];
    simpl; try done.
  - by apply lex_lt_ok_equiv.
  - destruct (String.compare k k') eqn:Hk; try done.
    destruct (String.compare ky ky') eqn:Hky; try done.
    apply String.compare_eq_iff in Hk as <-.
    apply String.compare_eq_iff in Hky as <-. intros Hv Hvy.
    destruct (String.eqb k ky); [|done].
    rewrite !canon_eq_cmp, (canon_cmp_equiv v v' vy vy' Hv Hvy).
    destruct (canon_cmp v' vy'); [done|by apply IH..].
Qed.

Lemma pairwise_comparable_equiv cs cs' :
  Forall2 canon_equiv cs cs' → pairwise_comparable cs → pairwise_comparable cs'.
Proof.
  unfold pairwise_comparable, comparable.
  induction 1 as [|c c' cs cs' Hc HF IH]; intros Hp; [constructor|].
  inversion Hp as [|? ? Hall Hp']; subst. constructor; [|by apply IH].
  clear IH Hp Hp'. induction HF as [|d d' cs cs' Hd _ IH']; [constructor|].
  inversion Hall as [|? ? [H1 H2] Hall']; subst. constructor; [|by apply IH'].
  by rewrite <-(canon_lt_ok_equiv c c' d d'), <-(canon_lt_ok_equiv d d' c c').
Qed.

(** Two sorted lists whose elements correspond up to [==] agree position by
    position up to [==]. *)
Lemma sorted_equiv_unique_up_to s1 : ∀ s2 l,
  StronglySorted canon_le s1 → StronglySorted canon_le s2 →
  s1 ≡ₚ l → Forall2 canon_equiv l s2 →
  Forall2 canon_equiv s1 s2.
Proof.
  induction s1 as [|x t1 IH]; intros s2 l H1 H2 Hp HF.
  - apply Permutation_nil in Hp. by subst.
  - apply StronglySorted_cons in H1 as [Hx H1].
    assert (x ∈ l) as Hin by (rewrite <-Hp; by left).
    apply list_elem_of_split in Hin as (la & lb & ->).
    apply Permutation_cons_app_inv in Hp.
    apply Forall2_app_inv_l in HF as (a & yb & Ha & HF & ->).
    apply Forall2_cons_inv_l in HF as (y & b & Hxy & Hb & ->).
    apply StronglySorted_app in H2 as (Hab & Hsa & Hyb).
    apply StronglySorted_cons in Hyb as [Hyb Hsb].
    assert (∀ z, z ∈ a → canon_equiv x z) as Hxa.
    { intros z Hz. apply canon_le_antisym.
      - apply list_elem_of_lookup in Hz as [i Hi].
        destruct (Forall2_lookup_r _ _ _ _ _ Ha Hi) as (z0 & Hz0 & Hzz).
        apply (canon_le_equiv x x z0 z); [done..|].
        rewrite Forall_forall in Hx. apply Hx. rewrite Hp.
        apply elem_of_app. left. by eapply list_elem_of_lookup_2.
      - apply (canon_le_equiv z z y x); [done|by symmetry|].
        apply Hab; [done|by left]. }
    assert (Forall2 canon_equiv t1 (a ++ b)) as Ht.
    { apply (IH _ (la ++ lb)); [done| |done|by apply Forall2_app].
      apply StronglySorted_app. split_and!; [|done..].
      intros z1 z2 Hz1 Hz2. apply Hab; [done|by right]. }
    trans (x :: a ++ b); [by constructor|by apply equiv_shift].
Qed.

Lemma Forall2_perm_commute {A B} (R : A → B → Prop) l2 l3 :
  l2 ≡ₚ l3 → ∀ l1, Forall2 R l1 l2 → ∃ l, l1 ≡ₚ l ∧ Forall2 R l l3.
Proof.
  induction 1 as [|y l2 l3 _ IH|y z l2|l2 l3 l4 _ IH1 _ IH2]; intros l1 HF.
  - exists l1. by split.
  - apply Forall2_cons_inv_r in HF as (x & l1' & Hxy & HF & ->).
    destruct (IH l1' HF) as (l & Hp & HF'). exists (x :: l).
    split; [by constructor|by constructor].
  - apply Forall2_cons_inv_r in HF as (x & l1' & Hxy & HF & ->).
    apply Forall2_cons_inv_r in HF as (x' & l1'' & Hxz & HF & ->).
    exists (x' :: x :: l1''). split; [apply Permutation_swap|].
    by repeat constructor.
  - destruct (IH1 l1 HF) as (l & Hp & HF').
    destruct (IH2 l HF') as (l' & Hp' & HF''). exists l'.
    split; [by etrans|done].
Qed.

Lemma comprehension_Forall2 {A} (f g : A → result canon) xs ys :
  Forall2 (λ x y, ∃ cx cy, f x = Ok cx ∧ g y = Ok cy ∧ canon_equiv cx cy)
    xs ys →
  ∃ cs cs', comprehension f xs = Ok cs ∧ comprehension g ys = Ok cs'
            ∧ Forall2 canon_equiv cs cs'.
Proof.
  induction 1 as [|x y xs ys (cx & cy & Hx & Hy & Hxy) _
                    (cs & cs' & Hcs & Hcs' & HF)].
  - exists [], []. by split_and!.
  - exists (cx :: cs), (cy :: cs'). split_and!.
    + apply comprehension_cons_ok. by exists cx, cs.
    + apply comprehension_cons_ok. by exists cy, cs'.
    + by constructor.
Qed.

(** Sorting lists that correspond up to [==] and order. *)
Lemma sorted_equiv cs cs' cs'' :
  pairwise_comparable cs → pairwise_comparable cs'' →
  Forall2 canon_equiv cs cs' → cs' ≡ₚ cs'' →
  ∃ s1 s2, sorted cs = Ok s1 ∧ sorted cs'' = Ok s2
           ∧ canon_equiv (CList s1) (CList s2).
Proof.
  intros Hc Hc'' HF Hp.
  destruct (sorted_spec cs Hc) as (s1 & Hs1 & Hp1 & Hss1).
  destruct (sorted_spec cs'' Hc'') as (s2 & Hs2 & Hp2 & Hss2).
  exists s1, s2. split_and!; [done..|].
  apply canon_eq_equiv. simpl. apply Forall2_equiv_list_eqb.
  destruct (Forall2_perm_commute canon_equiv cs' s2 (ltac:(by rewrite Hp2))
              cs HF) as (l & Hpl & HFl).
  apply (sorted_equiv_unique_up_to s1 s2 l); [done..| |done].
  by rewrite Hp1.
Qed.

Lemma dict_items_keys (d : list (string * value)) items :
  comprehension (λ kv, v' ← _recursive_sort kv.2; Ok (CItem kv.1 v')) d
  = Ok items →
  Forall2 (λ (kv : string * value) it,
             (v' ← _recursive_sort kv.2; Ok (CItem kv.1 v')) = Ok it) d items.
Proof. by intros ?%comprehension_ok. Qed.

(** A reordered value has an [==] canonical form. *)
Lemma recursive_sort_reordered a : ∀ b,
  orderable a → reordered a b →
  ∃ ca cb, _recursive_sort a = Ok ca ∧ _recursive_sort b = Ok cb
           ∧ canon_equiv ca cb.
Proof.
  induction a as [|b0|n|s|xs IH|d IH] using value_ind_nested;
    intros b Hord Hre.
  - destruct b; simpl in Hre; try done. by exists CNone, CNone.
  - destruct b; simpl in Hre; try done. injection Hre as <-.
    by exists (CBool b0), (CBool b0).
  - destruct b; simpl in Hre; try done. injection Hre as <-.
    by exists (CInt n), (CInt n).
  - destruct b; simpl in Hre; try done. injection Hre as <-.
    by exists (CStr s), (CStr s).
  - destruct b as [| | | |zs|]; simpl in Hre; try done.
    destruct Hre as (ys & Hxy%forall2_Forall2 & Hp).
    destruct Hord as (Hxs%foldr_and_Forall & cs0 & Hcs0 & Hpw).
    destruct (comprehension_Forall2 _recursive_sort _recursive_sort xs ys)
      as (cs & cs' & Hcs & Hcs' & HF).
    { clear Hp Hcs0 Hpw. induction Hxy as [|x y xs ys Hxy _ IHF]; [constructor|].
      apply Forall_cons in IH as [IHx IH]. apply Forall_cons in Hxs as [Hx Hxs].
      constructor; [by apply IHx|by apply IHF]. }
    rewrite Hcs in Hcs0. injection Hcs0 as <-.
    destruct (comprehension_perm _ ys zs Hp cs' Hcs') as (cs'' & Hcs'' & Hpc).
    destruct (sorted_equiv cs cs' cs'') as (s1 & s2 & Hs1 & Hs2 & Heq);
      [done| |done..|].
    { apply (pairwise_comparable_perm cs'); [done|].
      by apply (pairwise_comparable_equiv cs). }
    exists (CList s1), (CList s2). split_and!; [..|done].
    + rewrite recursive_sort_list, Hcs. simpl. by rewrite Hs1.
    + rewrite recursive_sort_list, Hcs''. simpl. by rewrite Hs2.
  - destruct b as [| | | | |f]; simpl in Hre; try done.
    destruct Hre as (e & Hde%forall2_Forall2 & Hp).
    destruct Hord as (Hnd & Hvs%foldr_and_Forall).
    set (g := λ kv : string * value,
                v' ← _recursive_sort kv.2; Ok (CItem kv.1 v')).
    destruct (comprehension_Forall2 g g d e) as (cs & cs' & Hcs & Hcs' & HF).
    { clear Hp Hnd.
      induction Hde as [|[k v] [k' v'] d e [Hk Hv] _ IHF]; [constructor|].
      apply Forall_cons in IH as [IHv IH]. apply Forall_cons in Hvs as [Hv0 Hvs].
      simpl in *. subst k'. constructor; [|by apply IHF].
      destruct (IHv v') as (c & c' & Hc & Hc' & Hcc); [done..|].
      exists (CItem k c), (CItem k c'). unfold g. simpl. rewrite Hc, Hc'.
      split_and!; [done..|]. unfold canon_equiv. simpl.
      by rewrite (proj1 (string_cmp_laws k)). }
    destruct (comprehension_perm _ e f Hp cs' Hcs') as (cs'' & Hcs'' & Hpc).
    assert (d.*1 = e.*1) as Hkeys.
    { clear -Hde. induction Hde as [|? ? ? ? [Hk _] _ IHF]; [done|].
      rewrite !fmap_cons. by f_equal. }
    destruct (sorted_equiv cs cs' cs'') as (s1 & s2 & Hs1 & Hs2 & Heq);
      [| |done..|].
    { apply (dict_items_comparable d); [done|by apply dict_items_keys]. }
    { apply (dict_items_comparable f); [|by apply dict_items_keys].
      by rewrite <-Hp, <-Hkeys. }
    exists (CList s1), (CList s2). split_and!; [..|done].
    + rewrite recursive_sort_dict. fold g. rewrite Hcs. simpl. by rewrite Hs1.
    + rewrite recursive_sort_dict. fold g. rewrite Hcs''. simpl.
      by rewrite Hs2.
Qed.

Lemma canonical_eq_reordered a b :
  orderable a → reordered a b → canonical_eq a b = Ok true.
Proof.
  intros Hord Hre.
  destruct (recursive_sort_reordered a b Hord Hre) as (ca & cb & Ha & Hb & Heq).
  apply canonical_eq_true. exists ca, cb. split_and!; [done..|].
  by apply canon_eq_equiv.
Qed.

(** ** Template matching *)


Lemma dict_get_set_eq {A} (d : list (string * A)) k v :
  dict_get k (dict_set k v d) = Some v.
Proof.
  induction d as [|[k0 v0] d IH]; simpl.
  - by rewrite String.eqb_refl.
  - destruct (String.eqb_spec k k0) as [->|Hk0]; simpl.
    + by rewrite String.eqb_refl.
    + by rewrite (proj2 (String.eqb_neq k k0)).
Qed.

Section template_facts.
Variable lowercase_dict : list (string * value) → list (string * value).
Variable tokenise_datasource : value → option Tokens.
Variable py_str : value → string.

Local Abbreviation matches := (template_matches lowercase_dict).
Local Abbreviation infer := (infer_workspace tokenise_datasource py_str).
Local Abbreviation scan :=
  (scan_templates lowercase_dict tokenise_datasource py_str).
Local Abbreviation match_new :=
  (match_new_data_source lowercase_dict tokenise_datasource py_str).

Lemma scan_templates_first pre template post layer :
  (∀ t, t ∈ pre → matches t layer = false) →
  matches template layer = true →
  scan (pre ++ template :: post) layer =
    Some <$> infer template layer (ts_dataSource template).
Proof.
  intros Hpre Ht. induction pre as [|t pre IH]; simpl.
  - by rewrite Ht.
  - rewrite Hpre by left. apply IH. intros t' Ht'. apply Hpre. by right.
Qed.

Lemma scan_templates_none template_sets layer :
  scan template_sets layer = Ok None ↔
  ∀ t, t ∈ template_sets → matches t layer = false.
Proof.
  induction template_sets as [|t l IH]; simpl.
  - split; [|done]. intros _ t Ht. by apply elem_of_nil in Ht.
  - destruct (matches t layer) eqn:Ht.
    + split.
      * by destruct (infer t layer (ts_dataSource t)).
      * intros H. specialize (H t ltac:(left)). congruence.
    + rewrite IH. split.
      * intros H t' [->|Ht']%elem_of_cons; auto.
      * intros H t' Ht'. apply H. by right.
Qed.

(** The workspace-container step raises nothing but [KeyError]. *)
Lemma infer_workspace_raise template layer new_conn e :
  infer template layer new_conn = Raise e → ∃ k, e = KeyError k.
Proof.
  unfold infer_workspace, dict_item.
  destruct (is_workspace_container _); [|done].
  destruct (dict_get "dataSource" layer) as [ds|]; simpl; [|intros [= <-]; eauto].
  destruct (tokenise_datasource ds); [|done].
  destruct (dict_get "workspacePath" new_conn); simpl; [done|].
  intros [= <-]; eauto.
Qed.

Lemma scan_templates_raise template_sets layer e :
  scan template_sets layer = Raise e → ∃ k, e = KeyError k.
Proof.
  induction template_sets as [|t l IH]; simpl; [done|].
  destruct (matches t layer); [|done].
  destruct (infer t layer (ts_dataSource t)) as [c|e'] eqn:Hi; simpl; [done|].
  intros [= <-]. by eapply infer_workspace_raise.
Qed.


Lemma match_new_skipped template_sets flag layer :
  group_layer_without_data layer = true →
  match_new template_sets flag (Some layer) = Ok None.
Proof. intros H. unfold match_new_data_source. by rewrite H. Qed.

Lemma match_new_first pre template post flag layer :
  group_layer_without_data layer = false →
  (∀ t, t ∈ pre → matches t layer = false) →
  matches template layer = true →
  match_new (pre ++ template :: post) flag (Some layer) =
    Some <$> infer template layer (ts_dataSource template).
Proof.
  intros Hg Hpre Ht. unfold match_new_data_source. rewrite Hg.
  rewrite scan_templates_first by done.
  by destruct (infer template layer (ts_dataSource template)).
Qed.

Lemma match_new_no_match template_sets flag layer :
  group_layer_without_data layer = false →
  (∀ t, t ∈ template_sets → matches t layer = false) →
  match_new template_sets flag (Some layer) =
    if flag then Raise no_match_error else Ok None.
Proof.
  intros Hg Hnone. unfold match_new_data_source. rewrite Hg.
  by rewrite (proj2 (scan_templates_none template_sets layer) Hnone).
Qed.

Lemma match_new_raise_iff template_sets flag layer :
  group_layer_without_data layer = false →
  match_new template_sets flag (Some layer) = Raise no_match_error ↔
  flag = true ∧ ∀ t, t ∈ template_sets → matches t layer = false.
Proof.
  intros Hg. split.
  - unfold match_new_data_source. rewrite Hg.
    destruct (scan template_sets layer) as [[c|]|e] eqn:Hs; simpl.
    + done.
    + destruct flag; [|done]. intros _. split; [done|].
      by apply scan_templates_none.
    + intros [= ->]. by apply scan_templates_raise in Hs as [k ?].
  - intros [-> Hnone]. by rewrite match_new_no_match.
Qed.
End template_facts.

(** An exception raised by an element ends a comprehension. *)
Lemma comprehension_raise {A B} (f : A → result B) pre x post e :
  (∀ p, p ∈ pre → is_ok (f p) = true) →
  f x = Raise e →
  comprehension f (pre ++ x :: post) = Raise e.
Proof.
  intros Hpre Hx. induction pre as [|p pre IH].
  - simpl. by rewrite Hx.
  - rewrite <-app_comm_cons, comprehension_cons.
    specialize (Hpre p ltac:(left)) as Hp.
    destruct (f p) as [y|]; [|done]. simpl.
    rewrite IH; [done|]. intros q Hq. apply Hpre. by right.
Qed.

(** ** [freeze]: the fuel is enough *)

Lemma foldr_max_le {A} (f : A → nat) (l : list A) (m : nat) :
  (foldr (λ x n, Nat.max (f x) n) 0 l ≤ m)%nat ↔ Forall (λ x, (f x ≤ m)%nat) l.
Proof.
  induction l as [|x l IH]; simpl.
  - split; [constructor|lia].
  - rewrite Forall_cons, <-IH. lia.
Qed.

Lemma depth_list_elem xs x : x ∈ xs → (depth x < depth (VList xs))%nat.
Proof.
  intros Hx. simpl.
  assert (Forall (λ x, (depth x ≤ foldr (λ x n, Nat.max (depth x) n) 0 xs)%nat) xs)
    as HF by (by apply foldr_max_le).
  rewrite Forall_forall in HF. specialize (HF x Hx). lia.
Qed.

Lemma depth_dict_elem (d : list (string * value)) kv :
  kv ∈ d → (depth kv.2 < depth (VDict d))%nat.
Proof.
  intros Hx. simpl.
  assert (Forall (λ kv : string * value,
            (depth kv.2 ≤ foldr (λ kv n, Nat.max (depth kv.2) n) 0 d)%nat) d)
    as HF by (by apply (foldr_max_le (λ kv : string * value, depth kv.2))).
  rewrite Forall_forall in HF. specialize (HF kv Hx). lia.
Qed.

Section freeze_facts.
Variable lowercase_dict : list (string * value) → list (string * value).

(** [lowercase_dict] does not nest values deeper than they were. *)
Hypothesis lowercase_dict_depth : ∀ d kv,
  kv ∈ lowercase_dict d → (depth kv.2 < depth (VDict d))%nat.

Lemma freeze_fuel_enough : ∀ n v,
  (depth v ≤ n)%nat → freeze_fuel lowercase_dict n v = freeze lowercase_dict v.
Proof.
  unfold freeze.
  induction n as [n IH] using lt_wf_ind.
  intros [| | | |xs|d] Hn; try (by destruct n).
  - destruct n as [|n]; [by inversion Hn|].
    change (depth (VList xs)) with
      (S (foldr (λ x n, Nat.max (depth x) n) 0%nat xs)) in *.
    simpl. f_equal. apply map_ext_in. intros x Hx%list_elem_of_In.
    apply depth_list_elem in Hx as Hd. simpl in Hd.
    rewrite (IH n) by lia. symmetry. apply IH; lia.
  - destruct n as [|n]; [by inversion Hn|].
    change (depth (VDict d)) with
      (S (foldr (λ kv n, Nat.max (depth kv.2) n) 0%nat d)) in *.
    simpl. f_equal. apply map_ext_in. intros kv Hkv%list_elem_of_In.
    apply lowercase_dict_depth in Hkv as Hd. simpl in Hd. f_equal.
    rewrite (IH n) by lia. symmetry. apply IH; lia.
Qed.

(** The equations of the source. *)
Lemma freeze_dict d :
  freeze lowercase_dict (VDict d) =
    FSet (map (λ kv, (kv.1, freeze lowercase_dict kv.2)) (lowercase_dict d)).
Proof.
  unfold freeze at 1.
  change (depth (VDict d)) with
    (S (foldr (λ kv n, Nat.max (depth kv.2) n) 0%nat d)).
  simpl. f_equal. apply map_ext_in. intros kv Hkv%list_elem_of_In. f_equal.
  apply freeze_fuel_enough. apply lowercase_dict_depth in Hkv. simpl in Hkv.
  lia.
Qed.

Lemma freeze_list xs :
  freeze lowercase_dict (VList xs) = FTuple (map (freeze lowercase_dict) xs).
Proof.
  unfold freeze at 1.
  change (depth (VList xs)) with
    (S (foldr (λ x n, Nat.max (depth x) n) 0%nat xs)).
  simpl. f_equal. apply map_ext_in. intros x Hx%list_elem_of_In.
  apply freeze_fuel_enough. apply depth_list_elem in Hx. simpl in Hx. lia.
Qed.
End freeze_facts.

Lemma dict_set_elem {A} (d : list (string * A)) k v kv :
  kv ∈ dict_set k v d → kv = (k, v) ∨ kv ∈ d.
Proof.
  induction d as [|[k' v'] d IH]; simpl.
  - intros ->%list_elem_of_singleton. by left.
  - destruct (String.eqb k k').
    + intros [->|H]%elem_of_cons; [by left|]. right. by right.
    + intros [->|H]%elem_of_cons; [right; by left|].
      destruct (IH H) as [->|?]; [by left|]. right. by right.
Qed.

Lemma dict_of_items_elem {A} (items : list (string * A)) kv :
  kv ∈ dict_of_items items → kv ∈ items.
Proof.
  unfold dict_of_items.
  assert (∀ acc, kv ∈ fold_left (λ d kv, dict_set kv.1 kv.2 d) items acc →
                 kv ∈ acc ∨ kv ∈ items) as H.
  { induction items as [|[k v] l IH]; intros acc; simpl; [by left|].
    intros [[->|H]%dict_set_elem|H]%IH.
    - right. by left.
    - by left.
    - right. by right. }
  intros [Hnil|?]%H; [by apply elem_of_nil in Hnil|done].
Qed.

Lemma lowercase_value_depth v : (depth (lowercase_value v) ≤ depth v)%nat.
Proof.
  induction v as [| | | |xs IH|d IH] using value_ind_nested; try done.
  - simpl. apply le_n_S. apply foldr_max_le, Forall_forall.
    intros x (y & -> & Hy)%list_elem_of_fmap.
    rewrite Forall_forall in IH. etrans; [by apply IH|].
    apply depth_list_elem in Hy. simpl in Hy. lia.
  - simpl. apply le_n_S.
    apply (foldr_max_le (λ kv : string * value, depth kv.2)), Forall_forall.
    intros kv Hkv%dict_of_items_elem.
    apply list_elem_of_fmap in Hkv as (kv0 & -> & Hkv0). simpl.
    rewrite Forall_forall in IH. etrans; [by apply IH|].
    apply depth_dict_elem in Hkv0. simpl in Hkv0. lia.
Qed.

Lemma lowercase_dict_model_depth d kv :
  kv ∈ lowercase_dict_model d → (depth kv.2 < depth (VDict d))%nat.
Proof.
  intros Hkv%dict_of_items_elem.
  apply list_elem_of_fmap in Hkv as (kv0 & -> & Hkv0). simpl.
  apply depth_dict_elem in Hkv0. simpl in Hkv0.
  pose proof (lowercase_value_depth kv0.2). lia.
Qed.

(** ** Reconciliation: the claims *)

(** C1.  The partition invariant of [_match_layers] does not hold on the
    code.  With one old layer and two new layers that both have its id,
    name and data source (layer indexes distinct within each list), the
    first new layer is in neither [added] nor [matched]: the second new
    layer passes the first test against the old layer that is already
    resolved, and overwrites the pairing. *)
Theorem match_layers_loses_new_layer :
  let old_layer := layer_of 0 1 "Roads" "C:\Data" in
  let new_a := layer_of 0 1 "Roads" "C:\Data" in
  let new_b := layer_of 1 1 "Roads" "C:\Data" in
  NoDup (index <$> [old_layer]) ∧ NoDup (index <$> [new_a; new_b])
  ∧ _match_layers same_datasource_model [old_layer] [new_a; new_b]
    = ([], [(old_layer, new_b)], []).
Proof.
  split_and!.
  - apply (bool_decide_unpack _). by vm_compute.
  - apply (bool_decide_unpack _). by vm_compute.
  - by vm_compute.
Qed.

(** C2.  Resolved layers are not excluded by the first test (same id, name
    and data source): after the old layer has been claimed by one new
    layer, the test matches it again for another new layer, and the old
    layer ends up claimed by both. *)
Theorem first_test_matches_resolved_layer :
  let old_layer := layer_of 0 1 "Roads" "C:\Data" in
  let new_a := layer_of 0 1 "Roads" "C:\Data" in
  let new_b := layer_of 1 1 "Roads" "C:\Data" in
  let st1 := (match_now same_datasource_model [old_layer] [new_a]).1 in
  let st2 := (match_now same_datasource_model [old_layer] [new_a; new_b]).1 in
  is_resolved_was st1 old_layer = true
  ∧ test_if_matching_layer same_datasource_model st1 old_layer new_b = true
  ∧ resolved_now st2 !! index new_a = Some (Some old_layer)
  ∧ resolved_now st2 !! index new_b = Some (Some old_layer).
Proof. split_and!; by vm_compute. Qed.

(** C3, counterexample.  The old layer [y] has the new layer's name but not
    its id, the old layer [x] has its id; [y] stands first in the old list
    and is the one the new layer is paired with. *)
Lemma name_match_standing_first_wins :
  let x := layer_of 1 1 "Rivers" "C:\Data" in
  let y := layer_of 0 2 "Roads" "C:\Data" in
  let n := layer_of 0 1 "Roads" "C:\Other" in
  same_id x n = true ∧ same_name y n = true ∧ same_id y n = false
  ∧ _match_layers same_datasource_model [y; x] [n] = ([], [(y, n)], [x]).
Proof. split_and!; by vm_compute. Qed.

(** C4, counterexample.  A layer that carries neither a serviceId nor a
    name passes no test, not even against its identical copy: it is
    reported both as added and as removed. *)
Lemma identical_layer_without_id_and_name_is_unmatched :
  _match_layers same_datasource_model [bare_layer 0] [bare_layer 0]
  = ([bare_layer 0], [], [bare_layer 0]).
Proof. by vm_compute. Qed.

Section identity_diff.
Context {D : Type}.
Variable MapChangeTypes_compare : Frame → option Frame → result (list D).
Variable LayerChangeTypes_compare : Layer → Layer → result (list D).
Variable sd : Layer → Layer → bool.

(** Matched pairs without a difference leave [updated] as it is. *)
Lemma collect_updated_no_diff matched : ∀ acc,
  Forall (λ p, LayerChangeTypes_compare p.1 p.2 = Ok []) matched →
  collect_updated LayerChangeTypes_compare matched acc = Ok acc.
Proof.
  induction matched as [|[w n] l IH]; intros acc HF; simpl; [done|].
  inversion HF as [|? ? Hp Hl]; subst. simpl in Hp. rewrite Hp. simpl.
  by apply IH.
Qed.

Lemma compare_map_frames_identity frame d :
  NoDup (index <$> layers frame) →
  (∀ l, l ∈ layers frame → same_id l l || same_name l l = true) →
  ForallOrdPairs (λ a b, unchanged sd a b = false) (layers frame) →
  (∀ l, l ∈ layers frame → LayerChangeTypes_compare l l = Ok []) →
  MapChangeTypes_compare frame (Some frame) = Ok d →
  _compare_map_frames MapChangeTypes_compare LayerChangeTypes_compare sd
    (Some frame) (Some frame)
  = Ok (mkMapDifferences d (mkLayerDifferences [] [] []) []).
Proof.
  intros Hnd Hself Hpairs Hdiff Hd. unfold _compare_map_frames.
  rewrite Hd. simpl. rewrite match_layers_identity by done.
  rewrite collect_updated_no_diff; [done|].
  apply Forall_fmap, Forall_forall. intros l Hl. by apply Hdiff.
Qed.
End identity_diff.

(** C4, amended.  Reconciling a layer list with an identical copy of itself
    gives no added and no removed layer, pairs every layer with its copy,
    and finds no field difference, so that the frame diff has no updated
    layer either -- provided that the layer indexes are distinct, every
    layer carries a serviceId or a name, no layer has the serviceId, name
    and data source of a later layer, and the compared fields can be
    compared (well-formed when compared shallowly, sortable when compared
    deeply). *)
Theorem identity_stability
    (sd : Layer → Layer → bool)
    (MapChangeTypes_compare : Frame → option Frame → result (list DiffEntry))
    (comparable_fields : list (string * Strictness))
    (frame : Frame) (d : list DiffEntry) :
  let L := layers frame in
  NoDup (index <$> L) →
  (∀ l, l ∈ L → same_id l l || same_name l l = true) →
  ForallOrdPairs (λ a b, unchanged sd a b = false) L →
  (∀ l, l ∈ L → layer_comparable comparable_fields l = true) →
  MapChangeTypes_compare frame (Some frame) = Ok d →
  _match_layers sd L L = ([], (λ l, (l, l)) <$> L, [])
  ∧ (∀ l, l ∈ L → layer_diff_model comparable_fields l l = Ok [])
  ∧ _compare_map_frames MapChangeTypes_compare
      (layer_diff_model comparable_fields) sd (Some frame) (Some frame)
    = Ok (mkMapDifferences d (mkLayerDifferences [] [] []) []).
Proof.
  intros L Hnd Hself Hpairs Hcmp Hd.
  assert (∀ l, l ∈ L → layer_diff_model comparable_fields l l = Ok []) as Hdiff.
  { intros l Hl. apply diff_fields_self. by apply Hcmp. }
  split_and!; [by apply match_layers_identity|done|].
  by apply compare_map_frames_identity.
Qed.

Lemma identity_stability_witness :
  let frame :=
    mkFrame [("name", VStr "Layers")]
      [layer_of 0 1 "Roads" "C:\Data"; layer_of 1 2 "Rivers" "C:\Data";
       layer_of 2 2 "Lakes" "C:\Data"] in
  let fields := [("name", Shallow); ("dataSource", Deep); ("visible", Shallow)] in
  _match_layers same_datasource_model (layers frame) (layers frame)
  = ([], (λ l, (l, l)) <$> layers frame, [])
  ∧ (∀ l, l ∈ layers frame → layer_diff_model fields l l = Ok [])
  ∧ _compare_map_frames (λ _ _, Ok []) (layer_diff_model fields)
      same_datasource_model (Some frame) (Some frame)
    = Ok (mkMapDifferences [] (mkLayerDifferences [] [] []) []).
Proof.
  intros frame fields.
  apply (identity_stability same_datasource_model (λ _ _, Ok []) fields frame []).
  - apply (bool_decide_unpack _). by vm_compute.
  - intros l Hl. repeat (apply elem_of_cons in Hl as [->|Hl]); [by vm_compute..|].
    by apply elem_of_nil in Hl.
  - repeat constructor.
  - intros l Hl. repeat (apply elem_of_cons in Hl as [->|Hl]); [by vm_compute..|].
    by apply elem_of_nil in Hl.
  - reflexivity.
Defined.

(** ** Deep equality: the claims *)

(** C5, counterexample.  [_recursive_sort] folds no case, and it does not
    exist for a list with two elements Python 3 cannot order. *)
Lemma canonical_eq_is_case_sensitive :
  canonical_eq (VStr "Foo") (VStr "foo") = Ok false
  ∧ canonical_eq (VDict [("A", VInt 1); ("B", VInt 2)])
                 (VDict [("b", VInt 2); ("a", VInt 1)]) = Ok false
  ∧ canonical_eq (VList [VNone; VNone]) (VList [VNone; VNone])
    = Raise TypeError.
Proof. split_and!; by vm_compute. Qed.

(** C5, amended.  The equality of canonical forms that [_attr_deep_eq]
    applies is symmetric and transitive, and reflexive on every value that
    has a canonical form; it does not depend on the order of the keys of a
    mapping, nor on the order of the elements of a sequence whose canonical
    elements are pairwise comparable, be it the order of the compared value
    itself or, for an orderable value, of the mappings and sequences at any
    depth in it; and it is case-sensitive: [[1,2,3]] equals [[3,1,2]] and
    [{"a":1,"b":2}] equals [{"b":2,"a":1}], but ["Foo"] does not equal
    ["foo"]. *)
Theorem canonical_eq_equivalence_up_to_order
    (a b c : value) (d1 d2 : list (string * value)) (l1 l2 : list value)
    (cs : list canon) :
  (is_ok (_recursive_sort a) = true → canonical_eq a a = Ok true)
  ∧ (canonical_eq a b = Ok true → canonical_eq b a = Ok true)
  ∧ (canonical_eq a b = Ok true → canonical_eq b c = Ok true →
     canonical_eq a c = Ok true)
  ∧ (NoDup d1.*1 → d1 ≡ₚ d2 → is_ok (_recursive_sort (VDict d1)) = true →
     canonical_eq (VDict d1) (VDict d2) = Ok true)
  ∧ (l1 ≡ₚ l2 → comprehension _recursive_sort l1 = Ok cs →
     pairwise_comparable cs →
     canonical_eq (VList l1) (VList l2) = Ok true)
  ∧ (orderable a → reordered a b → canonical_eq a b = Ok true)
  ∧ canonical_eq (VList [VInt 1; VInt 2; VInt 3])
                 (VList [VInt 3; VInt 1; VInt 2]) = Ok true
  ∧ canonical_eq (VDict [("a", VInt 1); ("b", VInt 2)])
                 (VDict [("b", VInt 2); ("a", VInt 1)]) = Ok true
  ∧ canonical_eq (VStr "Foo") (VStr "foo") = Ok false.
Proof.
  split_and!.
  - intros Ha. apply canonical_eq_true.
    destruct (_recursive_sort a) as [ca|]; [|done].
    exists ca, ca. split_and!; [done..|]. apply canon_eq_refl.
  - intros (ca & cb & Ha & Hb & Heq)%canonical_eq_true.
    apply canonical_eq_true. exists cb, ca. split_and!; [done..|].
    by apply canon_eq_sym.
  - intros (ca & cb & Ha & Hb & Hab)%canonical_eq_true
           (cb' & cc & Hb' & Hc & Hbc)%canonical_eq_true.
    rewrite Hb in Hb'. injection Hb' as <-.
    apply canonical_eq_true. exists ca, cc. split_and!; [done..|].
    by apply canon_eq_trans with cb.
  - apply canonical_eq_dict_perm.
  - apply canonical_eq_list_perm.
  - apply canonical_eq_reordered.
  - by vm_compute.
  - by vm_compute.
  - by vm_compute.
Qed.

Lemma canonical_eq_equivalence_up_to_order_witness :
  let a := VDict [("b", VList [VInt 2; VBool true]); ("a", VStr "x")] in
  let b := VDict [("a", VStr "x"); ("b", VList [VInt 1; VInt 2])] in
  let c := VDict [("a", VStr "x"); ("b", VList [VInt 2; VInt 1])] in
  let nested :=
    VList [VDict [("x", VList [VInt 2; VInt 1]); ("y", VNone)]; VDict []] in
  let nested' :=
    VList [VDict []; VDict [("y", VNone); ("x", VList [VInt 1; VInt 2])]] in
  canonical_eq a a = Ok true
  ∧ canonical_eq b a = Ok true
  ∧ canonical_eq a c = Ok true
  ∧ canonical_eq (VDict [("x", VNone); ("y", VInt 0)])
                 (VDict [("y", VInt 0); ("x", VNone)]) = Ok true
  ∧ canonical_eq (VList [VStr "b"; VStr "a"; VStr "c"])
                 (VList [VStr "c"; VStr "b"; VStr "a"]) = Ok true
  ∧ canonical_eq nested nested' = Ok true.
Proof.
  intros a b c nested nested'.
  pose proof (canonical_eq_equivalence_up_to_order a b c
                [("x", VNone); ("y", VInt 0)] [("y", VInt 0); ("x", VNone)]
                [VStr "b"; VStr "a"; VStr "c"] [VStr "c"; VStr "b"; VStr "a"]
                [CStr "b"; CStr "a"; CStr "c"])
    as (Hrefl & Hsym & Htrans & Hkeys & Hseq & _).
  pose proof (canonical_eq_equivalence_up_to_order nested nested' c [] [] [] [] [])
    as (_ & _ & _ & _ & _ & Hdeep & _).
  split_and!.
  - apply Hrefl. by vm_compute.
  - apply Hsym. by vm_compute.
  - apply Htrans; by vm_compute.
  - apply Hkeys.
    + apply (bool_decide_unpack _). by vm_compute.
    + apply Permutation_swap.
    + by vm_compute.
  - apply Hseq.
    + etrans; [apply Permutation_skip, Permutation_swap|].
      apply Permutation_swap.
    + by vm_compute.
    + repeat constructor.
  - apply Hdeep.
    + simpl. split_and!; try done.
      * apply (bool_decide_unpack _). by vm_compute.
      * eexists. split; [reflexivity|]. repeat constructor.
      * apply NoDup_nil_2.
      * eexists. split; [by vm_compute|]. repeat constructor.
    + simpl.
      exists [VDict [("y", VNone); ("x", VList [VInt 1; VInt 2])]; VDict []].
      split; [|apply Permutation_swap]. split_and!; try done.
      * exists [("x", VList [VInt 1; VInt 2]); ("y", VNone)].
        split; [|apply Permutation_swap]. split_and!; try done.
        exists [VInt 2; VInt 1]. split; [done|apply Permutation_swap].
      * exists []. by split.
Defined.

(** ** Map frames: the claims *)

(** A frame only the new description has yields the empty frame diff. *)
Lemma compare_map_frames_new_frame {D : Type}
    (map_compare : Frame → option Frame → result (list D))
    (layer_compare : Layer → Layer → result (list D))
    (sd : Layer → Layer → bool) (now_frame : option Frame) :
  _compare_map_frames map_compare layer_compare sd None now_frame
  = Ok (mkMapDifferences [] (mkLayerDifferences [] [] []) []).
Proof. reflexivity. Qed.

Lemma zip_longest_length {A B} (xs : list A) (ys : list B) :
  length (zip_longest xs ys) = Nat.max (length xs) (length ys).
Proof.
  revert ys. induction xs as [|x xs IH]; intros [|y ys]; simpl;
    rewrite ?length_map; try done. by rewrite IH.
Qed.

Lemma comprehension_length {A B} (f : A → result B) l r :
  comprehension f l = Ok r → length r = length l.
Proof.
  intros H%comprehension_ok. symmetry. by eapply Forall2_length.
Qed.

(** When [compare] returns, it returns one frame diff for each position of
    the longer list of frames. *)
Lemma compare_one_diff_per_position {D : Type}
    (doc_compare : Description → Description → result (list D))
    (map_compare : Frame → option Frame → result (list D))
    (layer_compare : Layer → Layer → result (list D))
    (sd : Layer → Layer → bool) was_description now_description r :
  compare doc_compare map_compare layer_compare sd
    was_description now_description = Ok r →
  length (maps_diff r)
  = Nat.max (length (maps was_description)) (length (maps now_description)).
Proof.
  unfold compare. destruct (doc_compare _ _) as [d|]; [|done]. simpl.
  destruct (comprehension _ _) as [ms|] eqn:Hms; [|done]. simpl.
  intros [= <-]. simpl. apply comprehension_length in Hms.
  by rewrite Hms, zip_longest_length.
Qed.

(** C6.  The frame pairing does not tolerate an old description with more
    frames than the new one: the frame without a partner is compared with
    [None], and [_compare_map_frames] subscripts [None["layers"]].  Whatever
    the change-type comparisons return, [compare] raises. *)
Theorem compare_raises_when_a_frame_was_removed {D : Type}
    (doc_compare : Description → Description → result (list D))
    (map_compare : Frame → option Frame → result (list D))
    (layer_compare : Layer → Layer → result (list D))
    (sd : Layer → Layer → bool)
    (was_attrs now_attrs : list (string * value)) (frame : Frame) :
  _compare_map_frames map_compare layer_compare sd (Some frame) None
  = (map_compare frame None ≫= λ _, Raise TypeError)
  ∧ is_ok (compare doc_compare map_compare layer_compare sd
             (mkDescription was_attrs [frame]) (mkDescription now_attrs []))
    = false.
Proof.
  split; [reflexivity|].
  unfold compare. destruct (doc_compare _ _) as [d|]; [|done]. simpl.
  by destruct (map_compare frame None).
Qed.

(** ** Template matching: the claims *)



(** C9.  For a layer the matcher processes (described, and not a group layer
    without data) the no-match error is raised if and only if
    [raise_exception_no_change] is set and no template matches the layer;
    without the flag the layer's entry is [None]; and the error of a layer
    ends the whole call, whatever layers and frames come after it.  A layer
    the matcher skips has the entry [None] with or without the flag. *)
Theorem no_match_error_iff_flag_and_no_template
    (lowercase_dict : list (string * value) → list (string * value))
    (tokenise_datasource : value → option Tokens) (py_str : value → string)
    (template_sets : list TemplateSet) (flag : bool)
    (layer : list (string * value)) :
  let match_new :=
    match_new_data_source lowercase_dict tokenise_datasource py_str
      template_sets flag in
  match_new None = Ok None
  ∧ (group_layer_without_data layer = true → match_new (Some layer) = Ok None)
  ∧ (group_layer_without_data layer = false →
  (match_new (Some layer) = Raise no_match_error ↔
   flag = true
   ∧ ∀ t, t ∈ template_sets → template_matches lowercase_dict t layer = false)
  ∧ (flag = false →
     (∀ t, t ∈ template_sets → template_matches lowercase_dict t layer = false) →
     match_new (Some layer) = Ok None)
  ∧ (∀ templates frames_pre df frames_post layers_pre layers_post,
       comprehension (template_set lowercase_dict) templates = Ok template_sets →
       (∀ f, f ∈ frames_pre →
          is_ok (replace_frame lowercase_dict tokenise_datasource py_str
                   template_sets flag f) = true) →
       df_layers df = layers_pre ++ Some layer :: layers_post →
       (∀ l, l ∈ layers_pre → is_ok (match_new l) = true) →
       match_new (Some layer) = Raise no_match_error →
       create_replacement_data_sources_list lowercase_dict tokenise_datasource
         py_str (frames_pre ++ df :: frames_post) templates flag
       = Raise no_match_error)).
Proof.
  intros match_new. split; [done|]. split; [by apply match_new_skipped|].
  intros Hg. split_and!.
  - by apply match_new_raise_iff.
  - intros -> Hnone. unfold match_new. by rewrite match_new_no_match.
  - intros templates frames_pre df frames_post layers_pre layers_post
      Hts Hframes Hdf Hlayers Hraise.
    unfold create_replacement_data_sources_list. rewrite Hts. simpl.
    apply comprehension_raise; [done|].
    unfold replace_frame. rewrite Hdf.
    fold match_new. by rewrite (comprehension_raise _ _ _ _ _ Hlayers Hraise).
Qed.

(** C10.  When the first matching template is a workspace container and the
    tokenizer cannot parse the layer's data source, the replacement is the
    template's dataSource as it stands, workspacePath included, and nothing
    is raised. *)
Theorem unparsed_data_source_keeps_template_path
    (lowercase_dict : list (string * value) → list (string * value))
    (tokenise_datasource : value → option Tokens) (py_str : value → string)
    (pre post : list TemplateSet) (template : TemplateSet) (flag : bool)
    (layer : list (string * value)) (ds : value) :
  group_layer_without_data layer = false →
  (∀ t, t ∈ pre → template_matches lowercase_dict t layer = false) →
  template_matches lowercase_dict template layer = true →
  is_workspace_container (ts_matchOptions template) = true →
  dict_get "dataSource" layer = Some ds →
  tokenise_datasource ds = None →
  match_new_data_source lowercase_dict tokenise_datasource py_str
    (pre ++ template :: post) flag (Some layer)
  = Ok (Some (ts_dataSource template)).
Proof.
  intros Hg Hpre Ht Hc Hds Htok.
  rewrite (match_new_first _ _ _ pre template post flag layer Hg Hpre Ht).
  unfold infer_workspace, dict_item. rewrite Hc, Hds. simpl. by rewrite Htok.
Qed.

(** ** Template matching on concrete layers *)



Lemma no_match_error_iff_flag_and_no_template_witness :
  let roads := feature_layer "Roads" (roads_tokens (Some "dbo") (Some "Roads")) in
  match_new_data_source lowercase_dict_model tokens_of_fields str_of_scalar
    [scale_template] true (Some roads)
  = Raise no_match_error
  ∧ match_new_data_source lowercase_dict_model tokens_of_fields str_of_scalar
      [scale_template] false (Some roads)
    = Ok None
  ∧ create_replacement_data_sources_list lowercase_dict_model tokens_of_fields
      str_of_scalar
      [mkDataFrame [] []; mkDataFrame [None; Some roads; Some roads] [None];
       mkDataFrame [Some roads] []]
      [scale_template_source] true
    = Raise no_match_error.
Proof.
  intros roads.
  assert (∀ t, t ∈ [scale_template] →
            template_matches lowercase_dict_model t roads = false) as Hnone.
  { by intros t ->%list_elem_of_singleton. }
  destruct (no_match_error_iff_flag_and_no_template lowercase_dict_model
              tokens_of_fields str_of_scalar [scale_template] true roads)
    as (_ & _ & Hset).
  destruct (Hset eq_refl) as (Hiff & _ & Hlist).
  destruct (no_match_error_iff_flag_and_no_template lowercase_dict_model
              tokens_of_fields str_of_scalar [scale_template] false roads)
    as (_ & _ & Hunset).
  destruct (Hunset eq_refl) as (_ & Hnull & _).
  assert (match_new_data_source lowercase_dict_model tokens_of_fields
            str_of_scalar [scale_template] true (Some roads)
          = Raise no_match_error) as Hraise by (by apply Hiff).
  split_and!; [done|by apply Hnull|].
  apply (Hlist [scale_template_source] [mkDataFrame [] []]
           (mkDataFrame [None; Some roads; Some roads] [None])
           [mkDataFrame [Some roads] []] [None] [Some roads]); [done| |done| |done].
  - by intros f ->%list_elem_of_singleton.
  - by intros l ->%list_elem_of_singleton.
Defined.

Lemma unparsed_data_source_keeps_template_path_witness :
  match_new_data_source lowercase_dict_model tokens_of_fields str_of_scalar
    [scale_template; container_template; plain_template] true
    (Some (feature_layer "Roads" [("url", VStr "https://example.org/roads")]))
  = Ok (Some [("workspacePath", VStr "C:\Data")]).
Proof.
  apply (unparsed_data_source_keeps_template_path lowercase_dict_model
           tokens_of_fields str_of_scalar [scale_template] [plain_template]
           container_template true
           (feature_layer "Roads" [("url", VStr "https://example.org/roads")])
           (VDict [("url", VStr "https://example.org/roads")]));
    [done| |done..].
  by intros t ->%list_elem_of_singleton.
Defined.

(** ** Validity *)

Lemma scan_items_spec items : ∀ acc r,
  scan_items items acc = Ok r ↔
  (∀ i, i ∈ items → is_ok (subscript "isBroken" i) = true)
  ∧ r = acc ++ filter (λ i, is_broken i = true) items.
Proof.
  induction items as [|i items IH]; intros acc r; simpl.
  - rewrite app_nil_r. split.
    + intros [= <-]. split; [|done]. intros i Hi. by apply elem_of_nil in Hi.
    + by intros [_ ->].
  - rewrite filter_cons.
    destruct (subscript "isBroken" i) as [b|e] eqn:Hb; simpl.
    + assert (is_broken i = truthy b) as Hi
        by (unfold is_broken; by rewrite Hb).
      rewrite IH, Hi. split.
      * intros [Hall ->]. split.
        -- intros j [->|Hj]%elem_of_cons; [by rewrite Hb|by apply Hall].
        -- destruct (truthy b); simpl; by rewrite <-?app_assoc.
      * intros [Hall ->]. split.
        -- intros j Hj. apply Hall. by right.
        -- destruct (truthy b); simpl; by rewrite <-?app_assoc.
    + split; [done|]. intros [Hall _]. specialize (Hall i ltac:(left)).
      by rewrite Hb in Hall.
Qed.

Lemma scan_map_spec m acc r :
  scan_map m acc = Ok r ↔
  ∃ items, map_items m = Ok items
    ∧ (∀ i, i ∈ items → is_ok (subscript "isBroken" i) = true)
    ∧ r = acc ++ filter (λ i, is_broken i = true) items.
Proof.
  unfold scan_map, map_items.
  destruct (subscript "layers" m) as [ls|]; simpl; [|split; [done|by intros (?&?&?)]].
  destruct (subscript "tables" m) as [ts|]; simpl; [|split; [done|by intros (?&?&?)]].
  destruct (iterate ls) as [xs|]; simpl; [|split; [done|by intros (?&?&?)]].
  destruct (iterate ts) as [ys|]; simpl.
  - split.
    + destruct (scan_items xs acc) as [acc'|] eqn:Hxs; simpl; [|done].
      apply scan_items_spec in Hxs as [Hx ->].
      intros [Hy ->]%scan_items_spec. exists (xs ++ ys). split_and!; [done|..].
      * intros i [?|?]%elem_of_app; auto.
      * by rewrite filter_app, app_assoc.
    + intros (items & [= <-] & Hall & ->).
      rewrite (proj2 (scan_items_spec xs acc
                        (acc ++ filter (λ i, is_broken i = true) xs))); simpl.
      * apply scan_items_spec. split; [|by rewrite filter_app, app_assoc].
        intros i Hi. apply Hall, elem_of_app. by right.
      * split; [|done]. intros i Hi. apply Hall, elem_of_app. by left.
  - split; [|by intros (?&?&?)].
    by destruct (scan_items xs acc).
Qed.

Lemma scan_maps_spec ms : ∀ acc r,
  scan_maps ms acc = Ok r ↔
  ∃ itemss, comprehension map_items ms = Ok itemss
    ∧ (∀ i, i ∈ concat itemss → is_ok (subscript "isBroken" i) = true)
    ∧ r = acc ++ filter (λ i, is_broken i = true) (concat itemss).
Proof.
  induction ms as [|m ms IH]; intros acc r.
  - simpl. split.
    + intros [= <-]. exists []. split_and!; [done| |by rewrite app_nil_r].
      intros i Hi. by apply elem_of_nil in Hi.
    + intros (itemss & [= <-] & _ & ->). by rewrite app_nil_r.
  - cbn [scan_maps]. rewrite comprehension_cons. split.
    + destruct (scan_map m acc) as [acc'|] eqn:Hm; simpl; [|done].
      apply scan_map_spec in Hm as (items & Hitems & Hall & ->).
      intros (itemss & Hms & Hall' & ->)%IH. rewrite Hitems, Hms. simpl.
      eexists. split_and!; [done|..]; simpl.
      * intros i [?|?]%elem_of_app; auto.
      * by rewrite filter_app, app_assoc.
    + intros (itemss & Hc & Hall & ->).
      destruct (map_items m) as [items|] eqn:Hitems; simpl in Hc; [|done].
      destruct (comprehension map_items ms) as [rest|] eqn:Hms;
        simpl in Hc; [|done].
      injection Hc as <-. simpl in Hall |- *.
      rewrite (proj2 (scan_map_spec m acc
                        (acc ++ filter (λ i, is_broken i = true) items))); simpl.
      * apply IH. exists rest. split_and!; [done|..].
        -- intros i Hi. apply Hall, elem_of_app. by right.
        -- by rewrite filter_app, app_assoc.
      * exists items. split_and!; [done| |done].
        intros i Hi. apply Hall, elem_of_app. by left.
Qed.

(** The broken items [is_valid] has collected when its loops are done. *)
Lemma is_valid_broken_items description r :
  (maps ← dict_item "maps" description;
   ms ← iterate maps;
   scan_maps ms []) = Ok r ↔
  ∃ items, description_items description = Ok items
    ∧ (∀ i, i ∈ items → is_ok (subscript "isBroken" i) = true)
    ∧ r = filter (λ i, is_broken i = true) items.
Proof.
  unfold description_items.
  destruct (dict_item "maps" description) as [maps|]; simpl;
    [|split; [done|by intros (?&?&?)]].
  destruct (iterate maps) as [ms|]; simpl; [|split; [done|by intros (?&?&?)]].
  rewrite scan_maps_spec. split.
  - intros (itemss & Hc & Hall & ->). rewrite Hc. simpl. eauto.
  - intros (items & Hc & Hall & ->).
    destruct (comprehension map_items ms) as [itemss|]; simpl in Hc; [|done].
    injection Hc as <-. eauto.
Qed.

Lemma log_broken_ok broken_items :
  log_broken broken_items = Ok () ↔
  ∀ i, i ∈ broken_items →
    is_ok (logged_name i) = true ∧ is_ok (subscript "dataSource" i) = true.
Proof.
  induction broken_items as [|i l IH]; simpl.
  - split; [|done]. intros _ i Hi. by apply elem_of_nil in Hi.
  - destruct (logged_name i) eqn:Hn; simpl.
    + destruct (subscript "dataSource" i) eqn:Hd; simpl.
      * rewrite IH. split.
        -- intros H j [->|Hj]%elem_of_cons; [by rewrite Hn, Hd|by apply H].
        -- intros H j Hj. apply H. by right.
      * split; [done|]. intros H. destruct (H i ltac:(left)) as [_ H'].
        by rewrite Hd in H'.
    + split; [done|]. intros H. destruct (H i ltac:(left)) as [H' _].
      by rewrite Hn in H'.
Qed.

Lemma filter_nil_iff {A} (P : A → Prop) `{∀ x, Decision (P x)} (l : list A) :
  filter P l = [] ↔ ∀ x, x ∈ l → ¬ P x.
Proof.
  split; [|apply filter_none].
  intros Hnil x Hx HP.
  assert (x ∈ filter P l) as Hin by by apply list_elem_of_filter.
  rewrite Hnil in Hin. by apply elem_of_nil in Hin.
Qed.

(** X1.  [is_valid] returns [True] exactly when the description has its
    maps, every map has its layers and tables, every layer and table has an
    [isBroken] key, and none of these values is true. *)
Theorem is_valid_true_iff (description : list (string * value)) :
  is_valid description = Ok true ↔
  ∃ items, description_items description = Ok items
    ∧ ∀ i, i ∈ items → ∃ b, subscript "isBroken" i = Ok b ∧ truthy b = false.
Proof.
  unfold is_valid.
  pose proof (is_valid_broken_items description) as Hspec.
  destruct (dict_item "maps" description) as [maps|] eqn:Hmaps; simpl in *.
  2:{ split; [done|]. intros (items & Hi & _). unfold description_items in Hi.
      by rewrite Hmaps in Hi. }
  destruct (iterate maps) as [ms|] eqn:Hms; simpl in *.
  2:{ split; [done|]. intros (items & Hi & _). unfold description_items in Hi.
      rewrite Hmaps in Hi. simpl in Hi. by rewrite Hms in Hi. }
  destruct (scan_maps ms []) as [broken|e] eqn:Hscan; simpl.
  - destruct (proj1 (Hspec broken) eq_refl) as (items & Hitems & Hall & ->).
    split.
    + destruct (0 <? length _)%nat eqn:Hlen.
      * destruct (dict_item "filePath" description); simpl; [|done].
        by destruct (log_broken _).
      * intros _. exists items. split; [done|]. intros i Hi.
        apply Nat.ltb_ge in Hlen.
        assert (filter (λ i, is_broken i = true) items = []) as Hnil.
        { destruct (filter _ items); [done|simpl in Hlen; lia]. }
        specialize (Hall i Hi).
        pose proof (proj1 (filter_nil_iff _ _) Hnil i Hi) as Hnb.
        unfold is_broken in Hnb.
        destruct (subscript "isBroken" i) as [b|]; [|done].
        exists b. split; [done|]. by destruct (truthy b).
    + intros (items' & Hitems' & Hnone).
      rewrite Hitems in Hitems'. injection Hitems' as <-.
      rewrite filter_none; [done|]. intros i Hi.
      destruct (Hnone i Hi) as (b & Hb & Hf). unfold is_broken.
      by rewrite Hb, Hf.
  - split; [done|]. intros (items & Hitems & Hnone). exfalso.
    assert (∃ r : list value, Raise e = Ok r) as [r Hr]; [|done].
    eexists. apply Hspec. exists items. split_and!; [done| |done].
    intros i Hi. destruct (Hnone i Hi) as (b & -> & _). done.
Qed.

Lemma is_valid_true_iff_witness :
  is_valid [("maps", VList [map_of [item_of "Roads" false]
                              [item_of "Owners" false]])] = Ok true.
Proof.
  apply is_valid_true_iff.
  exists [item_of "Roads" false; item_of "Owners" false].
  split; [by vm_compute|]. intros i Hi.
  repeat (apply elem_of_cons in Hi as [->|Hi]);
    [by exists (VBool false)..|by apply elem_of_nil in Hi].
Defined.

(** X2.  [is_valid] returns [False] exactly when the description can be
    read as for [True], some layer or table has a true [isBroken], and the
    keys read for the log are there: [filePath] in the description, and in
    every broken item [dataSource] and one of [longName] and [name]. *)
Theorem is_valid_false_iff (description : list (string * value)) :
  is_valid description = Ok false ↔
  ∃ items, description_items description = Ok items
    ∧ (∀ i, i ∈ items → is_ok (subscript "isBroken" i) = true)
    ∧ (∃ i, i ∈ items ∧ is_broken i = true)
    ∧ is_Some (dict_get "filePath" description)
    ∧ (∀ i, i ∈ items → is_broken i = true →
         is_ok (logged_name i) = true
         ∧ is_ok (subscript "dataSource" i) = true).
Proof.
  unfold is_valid.
  pose proof (is_valid_broken_items description) as Hspec.
  destruct (dict_item "maps" description) as [maps|] eqn:Hmaps; simpl in *.
  2:{ split; [done|]. intros (items & Hi & _). unfold description_items in Hi.
      by rewrite Hmaps in Hi. }
  destruct (iterate maps) as [ms|] eqn:Hms; simpl in *.
  2:{ split; [done|]. intros (items & Hi & _). unfold description_items in Hi.
      rewrite Hmaps in Hi. simpl in Hi. by rewrite Hms in Hi. }
  destruct (scan_maps ms []) as [broken|e] eqn:Hscan; simpl.
  - destruct (proj1 (Hspec broken) eq_refl) as (items & Hitems & Hall & ->).
    split.
    + destruct (0 <? length _)%nat eqn:Hlen; [|done].
      unfold dict_item.
      destruct (dict_get "filePath" description) as [fp|] eqn:Hfp; simpl; [|done].
      destruct (log_broken _) as [[]|] eqn:Hlog; simpl; [|done].
      intros _. exists items. split_and!; [done..| |by eauto|].
      * apply Nat.ltb_lt in Hlen.
        destruct (filter (λ i, is_broken i = true) items) as [|i l] eqn:Hf;
          [simpl in Hlen; lia|].
        assert (i ∈ filter (λ i, is_broken i = true) items) as Hin
          by (rewrite Hf; left).
        apply list_elem_of_filter in Hin as [? ?]. eauto.
      * intros i Hi Hb. apply (proj1 (log_broken_ok _) Hlog).
        by apply list_elem_of_filter.
    + intros (items' & Hitems' & _ & (i & Hi & Hb) & [fp Hfp] & Hlog).
      rewrite Hitems in Hitems'. injection Hitems' as <-.
      assert (i ∈ filter (λ i, is_broken i = true) items) as Hin
        by by apply list_elem_of_filter.
      assert ((0 <? length (filter (λ i, is_broken i = true) items))%nat = true)
        as ->.
      { apply Nat.ltb_lt.
        destruct (filter (λ i, is_broken i = true) items);
          [by apply elem_of_nil in Hin|simpl; lia]. }
      unfold dict_item. rewrite Hfp. cbn [mbind result_mbind result_bind].
      rewrite (proj2 (log_broken_ok _)); [done|].
      intros k Hk. apply list_elem_of_filter in Hk as [? ?]. by apply Hlog.
  - split; [done|]. intros (items & Hitems & Hall & _). exfalso.
    assert (∃ r : list value, Raise e = Ok r) as [r Hr]; [|done].
    eexists. apply Hspec. exists items. by split_and!.
Qed.

Lemma is_valid_false_iff_witness :
  let description :=
    [("filePath", VStr "C:\Maps\a.mxd");
     ("maps", VList [map_of [item_of "Roads" true] [item_of "Owners" false]])] in
  ∃ items, description_items description = Ok items
    ∧ ∃ i, i ∈ items ∧ is_broken i = true.
Proof.
  intros description.
  destruct (proj1 (is_valid_false_iff description)) as (items & H & _ & Hb & _);
    [by vm_compute|].
  by exists items.
Defined.

(** X3.  A description with a broken layer or table and without a
    [filePath] is not reported as invalid: the log message subscripts
    [description["filePath"]], and [is_valid] raises [KeyError]. *)
Theorem is_valid_broken_without_file_path
    (description : list (string * value)) (items : list value) (i : value) :
  description_items description = Ok items →
  (∀ j, j ∈ items → is_ok (subscript "isBroken" j) = true) →
  i ∈ items → is_broken i = true →
  dict_get "filePath" description = None →
  is_valid description = Raise (KeyError "filePath").
Proof.
  intros Hitems Hall Hi Hb Hfp. unfold is_valid.
  pose proof (is_valid_broken_items description) as Hspec.
  destruct (dict_item "maps" description) as [maps|] eqn:Hmaps; simpl in *.
  2:{ unfold description_items in Hitems. by rewrite Hmaps in Hitems. }
  destruct (iterate maps) as [ms|] eqn:Hms; simpl in *.
  2:{ unfold description_items in Hitems. rewrite Hmaps in Hitems.
      simpl in Hitems. by rewrite Hms in Hitems. }
  rewrite (proj2 (Hspec (filter (λ i, is_broken i = true) items)))
    by eauto.
  cbn [mbind result_mbind result_bind].
  assert (i ∈ filter (λ i, is_broken i = true) items) as Hin
    by by apply list_elem_of_filter.
  destruct (filter (λ i, is_broken i = true) items) as [|j l];
    [by apply elem_of_nil in Hin|].
  simpl. unfold dict_item. by rewrite Hfp.
Qed.

Lemma is_valid_broken_without_file_path_witness :
  let description :=
    [("maps", VList [map_of [item_of "Roads" false] [item_of "Owners" true]])] in
  is_valid description = Raise (KeyError "filePath")
  ∧ is_valid (("filePath", VStr "C:\Maps\a.mxd") :: description) = Ok false.
Proof.
  intros description. split; [|by vm_compute].
  apply (is_valid_broken_without_file_path description
           [item_of "Roads" false; item_of "Owners" true]
           (item_of "Owners" true)).
  - by vm_compute.
  - intros j Hj. repeat (apply elem_of_cons in Hj as [->|Hj]); [by vm_compute..|].
    by apply elem_of_nil in Hj.
  - right. left.
  - by vm_compute.
  - by vm_compute.
Defined.

(** ** Reconciliation: what the three buckets hold *)

Section reconciliation.
Variable sd : Layer → Layer → bool.

Local Abbreviation paired st :=
  (λ w : Layer, match resolved_was st !! index w with
                | Some (Some n) => Some (w, n)
                | _ => None
                end).

(** The state after a new layer that no old layer matches. *)
Local Abbreviation unclaimed st n :=
  {| resolved_was := resolved_was st;
     resolved_now := <[index n := None]> (resolved_now st) |}.

Lemma find_was_some st n was_layers st' :
  find_was sd st n was_layers = Some st' →
  ∃ w, w ∈ was_layers ∧ test_if_matching_layer sd st w n = true
       ∧ st' = claim st w n.
Proof.
  induction was_layers as [|x l IH]; simpl; [done|].
  destruct (test_if_matching_layer sd st x n) eqn:Hx.
  - intros [= <-]. exists x. split_and!; [by left|done..].
  - intros (w & Hw & Ht & ->)%IH. exists w. split_and!; [by right|done..].
Qed.

Lemma find_was_none_inv st n was_layers :
  find_was sd st n was_layers = None →
  ∀ w, w ∈ was_layers → test_if_matching_layer sd st w n = false.
Proof.
  induction was_layers as [|x l IH]; simpl.
  - intros _ w Hw. by apply elem_of_nil in Hw.
  - destruct (test_if_matching_layer sd st x n) eqn:Hx; [done|].
    intros Hl w [->|Hw]%elem_of_cons; [done|by apply IH].
Qed.

(** Induction over the first loop: a property of the new layers seen so
    far, the state and the added layers holds at the end when it holds at
    the start and both outcomes of an iteration keep it. *)
Lemma match_now_ind (P : list Layer → Resolved → list Layer → Prop)
    (was_layers : list Layer) :
  P [] (mkResolved ∅ ∅) [] →
  (∀ seen st add n w,
     P seen st add → w ∈ was_layers →
     test_if_matching_layer sd st w n = true →
     P (seen ++ [n]) (claim st w n) add) →
  (∀ seen st add n,
     P seen st add →
     (∀ w, w ∈ was_layers → test_if_matching_layer sd st w n = false) →
     P (seen ++ [n]) (unclaimed st n) (add ++ [n])) →
  ∀ now_layers,
    P now_layers (match_now sd was_layers now_layers).1
      (match_now sd was_layers now_layers).2.
Proof.
  intros H0 Hclaim Hadd now_layers. unfold match_now.
  induction now_layers as [|n l IH] using rev_ind; [done|].
  rewrite fold_left_app. cbn [fold_left].
  destruct (fold_left (step_now sd was_layers) l (mkResolved ∅ ∅, []))
    as [st add]. cbn [fst snd] in IH. unfold step_now. cbn [fst snd].
  destruct (find_was sd st n was_layers) as [st'|] eqn:Hf; cbn [fst snd].
  - apply find_was_some in Hf as (w & Hw & Ht & ->). by eapply Hclaim.
  - apply Hadd; [done|]. by apply find_was_none_inv.
Qed.

(** A test that passes finds the same id or the same name. *)
Lemma test_passed_shares st a b :
  test_if_matching_layer sd st a b = true →
  same_id a b || same_name a b = true.
Proof.
  rewrite test_if_matching_layer_eq.
  destruct (same_id a b), (same_name a b); simpl; try done.
  by rewrite andb_false_r.
Qed.

(** The three components of the result, loop by loop. *)
Lemma match_layers_components was_layers now_layers :
  let r1 := match_now sd was_layers now_layers in
  let r2 := fold_left step_removed was_layers (r1.1, []) in
  _match_layers sd was_layers now_layers
  = (r1.2, omap (paired r2.1) was_layers, r2.2).
Proof.
  intros r1 r2. unfold _match_layers. fold r1. destruct r1 as [st1 add].
  cbn [fst snd] in r2. fold r2. destruct r2 as [st2 rem].
  cbn [fst snd]. by rewrite matched_loop.
Qed.

Lemma removed_loop_sublist was_layers : ∀ st rem,
  ∃ l, (fold_left step_removed was_layers (st, rem)).2 = rem ++ l
       ∧ l `sublist_of` was_layers.
Proof.
  induction was_layers as [|w l IH]; intros st rem.
  - exists []. by rewrite app_nil_r.
  - cbn [fold_left]. rewrite step_removed_unfold.
    destruct (is_resolved_was st w).
    + destruct (IH st rem) as (l' & -> & Hl'). exists l'.
      split; [done|]. by apply sublist_cons.
    + match goal with |- context [fold_left _ l (?s, ?r)] =>
        destruct (IH s r) as (l' & -> & Hl') end.
      exists (w :: l'). rewrite <-app_assoc. split; [done|].
      by apply sublist_skip.
Qed.

(** The removed-layers loop stores [None] only: a layer found in
    [resolved_was] after it was there before it. *)
Lemma removed_loop_layers was_layers : ∀ st rem i n,
  resolved_was (fold_left step_removed was_layers (st, rem)).1 !! i
    = Some (Some n) →
  resolved_was st !! i = Some (Some n).
Proof.
  induction was_layers as [|w l IH]; intros st rem i n; [done|].
  cbn [fold_left]. rewrite step_removed_unfold.
  destruct (is_resolved_was st w); [apply IH|].
  intros H%IH. cbn in H. destruct (decide (i = index w)) as [->|Hne].
  - by rewrite lookup_insert_eq in H.
  - by rewrite lookup_insert_ne in H.
Qed.

Lemma omap_paired_sublist st (was_layers : list Layer) :
  (omap (paired st) was_layers).*1 `sublist_of` was_layers.
Proof.
  induction was_layers as [|w l IH]; [done|]. csimpl.
  destruct (resolved_was st !! index w) as [[n|]|]; csimpl;
    by constructor.
Qed.

Lemma elem_of_omap_paired st (was_layers : list Layer) w n :
  (w, n) ∈ omap (paired st) was_layers ↔
  w ∈ was_layers ∧ resolved_was st !! index w = Some (Some n).
Proof.
  rewrite list_elem_of_omap. split.
  - intros (x & Hx & Hp).
    destruct (resolved_was st !! index x) as [[m|]|] eqn:Hl; try done.
    by injection Hp as -> ->.
  - intros [Hw Hl]. exists w. by rewrite Hl.
Qed.

(** What the first loop stores in [resolved_was]: new layers it has seen,
    each for the index of an old layer that shares its id or its name. *)
Lemma match_now_stored was_layers now_layers i n :
  resolved_was (match_now sd was_layers now_layers).1 !! i = Some (Some n) →
  n ∈ now_layers
  ∧ ∃ w, w ∈ was_layers ∧ index w = i
         ∧ same_id w n || same_name w n = true.
Proof.
  revert i n.
  apply (match_now_ind
           (λ seen st _, ∀ i n, resolved_was st !! i = Some (Some n) →
              n ∈ seen ∧ ∃ w, w ∈ was_layers ∧ index w = i
                              ∧ same_id w n || same_name w n = true)).
  - intros i n. cbn. by rewrite lookup_empty.
  - intros seen st add n w IH Hw Ht i m. cbn.
    destruct (decide (i = index w)) as [->|Hne].
    + rewrite lookup_insert_eq. intros [= <-]. split.
      * apply elem_of_app. right. by left.
      * exists w. split_and!; [done..|]. by eapply test_passed_shares.
    + rewrite lookup_insert_ne by done. intros [Hm Hx]%IH. split; [|done].
      apply elem_of_app. by left.
  - intros seen st add n IH _ i m. cbn. intros [Hm Hx]%IH. split; [|done].
    apply elem_of_app. by left.
Qed.

Lemma match_now_added_sublist was_layers now_layers :
  (match_now sd was_layers now_layers).2 `sublist_of` now_layers.
Proof.
  apply (match_now_ind (λ seen _ add, add `sublist_of` seen)).
  - done.
  - intros seen st add n w IH _ _. by apply sublist_inserts_r.
  - intros seen st add n IH _. by apply sublist_app.
Qed.
End reconciliation.

(** X4.  The reconciler makes up no layer and keeps the order of its
    inputs: the added layers are new layers in the order of the new list,
    the removed layers and the old sides of the matched pairs are old
    layers in the order of the old list, and the new side of a matched pair
    is a new layer. *)
Theorem match_layers_buckets_come_from_the_inputs
    (sd : Layer → Layer → bool) (was_layers now_layers : list Layer) :
  let '(added, matched, removed) := _match_layers sd was_layers now_layers in
  added `sublist_of` now_layers
  ∧ matched.*1 `sublist_of` was_layers
  ∧ removed `sublist_of` was_layers
  ∧ ∀ w n, (w, n) ∈ matched → n ∈ now_layers.
Proof.
  rewrite match_layers_components. split_and!.
  - apply match_now_added_sublist.
  - apply omap_paired_sublist.
  - destruct (removed_loop_sublist was_layers
                (match_now sd was_layers now_layers).1 []) as (l & -> & Hl).
    done.
  - intros w n [_ Hl]%elem_of_omap_paired.
    apply removed_loop_layers in Hl.
    by apply match_now_stored in Hl as [? _].
Qed.

(** X5.  With distinct old indexes every old layer is in exactly one of
    [matched] and [removed], whatever the new layers are. *)
Theorem match_layers_old_layers_partitioned
    (sd : Layer → Layer → bool) (was_layers now_layers : list Layer) :
  NoDup (index <$> was_layers) →
  let '(_, matched, removed) := _match_layers sd was_layers now_layers in
  matched.*1 ++ removed ≡ₚ was_layers
  ∧ (length matched + length removed = length was_layers)%nat.
Proof.
  intros Hnd.
  pose proof (match_layers_old_side sd was_layers now_layers Hnd) as H.
  destruct (_match_layers sd was_layers now_layers) as [[add mat] rem].
  cbn [fst snd] in H. split; [done|].
  apply Permutation_length in H. by rewrite length_app, length_fmap in H.
Qed.

Lemma match_layers_old_layers_partitioned_witness :
  let was_layers :=
    [layer_of 0 1 "Roads" "C:\Data"; layer_of 1 2 "Rivers" "C:\Data"] in
  let now_layers :=
    [layer_of 0 2 "Rivers" "C:\Data"; layer_of 1 3 "Lakes" "C:\Data"] in
  let '(_, matched, removed) :=
    _match_layers same_datasource_model was_layers now_layers in
  matched.*1 ++ removed ≡ₚ was_layers
  ∧ (length matched + length removed = length was_layers)%nat.
Proof.
  intros was_layers now_layers.
  apply (match_layers_old_layers_partitioned same_datasource_model
           was_layers now_layers).
  apply (bool_decide_unpack _). by vm_compute.
Defined.

(** ** Reconciliation: the new side *)

Section new_side.
Variable sd : Layer → Layer → bool.

Local Abbreviation paired st :=
  (λ w : Layer, match resolved_was st !! index w with
                | Some (Some n) => Some (w, n)
                | _ => None
                end).

(** A layer without [serviceId] and without [name] passes no test. *)
Lemma no_id_no_name_no_test st a b :
  (dict_get "serviceId" (attrs a) = None ∧ dict_get "name" (attrs a) = None)
  ∨ (dict_get "serviceId" (attrs b) = None ∧ dict_get "name" (attrs b) = None) →
  test_if_matching_layer sd st a b = false.
Proof.
  intros H. rewrite test_if_matching_layer_eq.
  assert (same_id a b = false ∧ same_name a b = false) as [-> ->].
  { unfold same_id, same_name, _attr_shallow_eq.
    destruct H as [[-> ->]|[-> ->]]; [done|].
    by destruct (dict_get "serviceId" (attrs a)), (dict_get "name" (attrs a)). }
  simpl. apply andb_false_r.
Qed.

Lemma omap_cons_list {A B} (f : A → option B) x (l : list A) :
  omap f (x :: l) = option_list (f x) ++ omap f l.
Proof. csimpl. by destruct (f x). Qed.

(** Claiming an old layer changes the pairs at that layer only. *)
Lemma omap_paired_claim_other st w n (l : list Layer) :
  (∀ x, x ∈ l → index x ≠ index w) →
  omap (paired (claim st w n)) l = omap (paired st) l.
Proof.
  intros Hne. apply omap_ext_elem. intros x Hx. cbn.
  by rewrite lookup_insert_ne by (symmetry; by apply Hne).
Qed.

Lemma omap_paired_claim st w n (was_layers : list Layer) :
  NoDup (index <$> was_layers) → w ∈ was_layers →
  ∃ pre post,
    was_layers = pre ++ w :: post
    ∧ omap (paired (claim st w n)) was_layers
      = omap (paired st) pre ++ (w, n) :: omap (paired st) post
    ∧ omap (paired st) was_layers
      = omap (paired st) pre ++ option_list (paired st w)
        ++ omap (paired st) post.
Proof.
  intros Hnd Hw. apply list_elem_of_split in Hw as (pre & post & ->).
  exists pre, post. split; [done|].
  rewrite fmap_app, fmap_cons in Hnd.
  apply NoDup_app in Hnd as (_ & Hpre & Hnd).
  apply NoDup_cons in Hnd as [Hpost _].
  assert (omap (paired (claim st w n)) pre = omap (paired st) pre) as Hpre'.
  { apply omap_paired_claim_other. intros x Hx Heq.
    apply (Hpre (index x)); [by apply list_elem_of_fmap_2|].
    rewrite Heq. by left. }
  assert (omap (paired (claim st w n)) post = omap (paired st) post) as Hpost'.
  { apply omap_paired_claim_other. intros x Hx Heq.
    apply Hpost. rewrite <-Heq. by apply list_elem_of_fmap_2. }
  rewrite !omap_app, !omap_cons_list, Hpre', Hpost'. split; [|done].
  cbn. by rewrite lookup_insert_eq.
Qed.

(** No new layer is counted twice: the added layers and the pairs are at
    most as many as the new layers seen. *)
Lemma match_now_count was_layers now_layers :
  NoDup (index <$> was_layers) →
  let r := match_now sd was_layers now_layers in
  (length r.2 + length (omap (paired r.1) was_layers) ≤ length now_layers)%nat.
Proof.
  intros Hnd.
  apply (match_now_ind sd
           (λ seen st add,
              (length add + length (omap (paired st) was_layers)
               ≤ length seen)%nat)).
  - cbn. rewrite omap_none; [simpl; lia|].
    intros x _. by rewrite lookup_empty.
  - intros seen st add n w IH Hw _.
    destruct (omap_paired_claim st w n was_layers Hnd Hw)
      as (pre & post & _ & -> & Heq).
    rewrite Heq in IH. rewrite !length_app in *. cbn [length] in *.
    destruct (paired st w); simpl in *; lia.
  - intros seen st add n IH _. rewrite !length_app. simpl. lia.
Qed.

(** When an old layer that equals a new layer in id, name and data source
    shares its id or name with no other new layer, every new layer seen
    is either added or the new side of exactly one pair. *)
Lemma match_now_partition was_layers now_layers :
  NoDup (index <$> was_layers) →
  NoDup now_layers →
  (∀ a b b', a ∈ was_layers → b ∈ now_layers → b' ∈ now_layers →
     unchanged sd a b = true → same_id a b' || same_name a b' = true →
     b' = b) →
  let r := match_now sd was_layers now_layers in
  r.2 ++ (omap (paired r.1) was_layers).*2 ≡ₚ now_layers.
Proof.
  intros Hnd Hnow Hone.
  enough (∀ l, l `prefix_of` now_layers →
            let r := match_now sd was_layers l in
            r.2 ++ (omap (paired r.1) was_layers).*2 ≡ₚ l
            ∧ ∀ i n, resolved_was r.1 !! i = Some (Some n) →
                n ∈ l ∧ ∃ w, w ∈ was_layers ∧ index w = i
                             ∧ same_id w n || same_name w n = true)
    as H by by apply H.
  intros l Hl.
  apply (match_now_ind sd
           (λ seen st add,
              seen `prefix_of` now_layers →
              add ++ (omap (paired st) was_layers).*2 ≡ₚ seen
              ∧ ∀ i n, resolved_was st !! i = Some (Some n) →
                  n ∈ seen ∧ ∃ w, w ∈ was_layers ∧ index w = i
                                 ∧ same_id w n || same_name w n = true));
    [| | |done].
  - intros _. split.
    + cbn. rewrite omap_none; [done|]. intros x _. by rewrite lookup_empty.
    + intros i n. cbn. by rewrite lookup_empty.
  - intros seen st add n w IH Hw Ht Hpre.
    destruct IH as [IHp IHs]; [by eapply prefix_app_l|]. split.
    + destruct (omap_paired_claim st w n was_layers Hnd Hw)
        as (pre & post & _ & -> & Heq).
      destruct (resolved_was st !! index w) as [[m|]|] eqn:Hlw.
      * (* the old layer is resolved: only the first test is left, and
           the layer stored for it shares its id or its name *)
        exfalso.
        rewrite resolved_layer_passes_first_test_only in Ht
          by (left; apply is_resolved_was_true; by rewrite Hlw).
        destruct (IHs _ _ Hlw) as (Hm & w' & Hw' & Hidx & Hshare).
        assert (w' = w) as ->.
        { apply (NoDup_fmap_1 index) in Hnd as Hnd'.
          apply list_elem_of_lookup in Hw as [j Hj].
          apply list_elem_of_lookup in Hw' as [j' Hj'].
          assert (j' = j) as ->; [|congruence].
          eapply (NoDup_lookup (index <$> was_layers)); [done|..];
            rewrite list_lookup_fmap.
          - by rewrite Hj'.
          - rewrite Hj. simpl. by rewrite Hidx. }
        destruct Hpre as [rest Hrest].
        assert (m = n) as ->.
        { apply (Hone w n m); [done|..|done|done]; rewrite Hrest.
          - apply elem_of_app. left. apply elem_of_app. right. by left.
          - apply elem_of_app. left. apply elem_of_app. by left. }
        rewrite Hrest, <-app_assoc in Hnow.
        apply NoDup_app in Hnow as (_ & Hnow & _).
        apply (Hnow n Hm). by left.
      * rewrite Heq in IHp. simpl in IHp.
        rewrite fmap_app in *. rewrite fmap_cons. simpl.
        rewrite (Permutation_app_comm seen [n]). simpl.
        rewrite <-IHp. rewrite <-!Permutation_middle. done.
      * rewrite Heq in IHp. simpl in IHp.
        rewrite fmap_app in *. rewrite fmap_cons. simpl.
        rewrite (Permutation_app_comm seen [n]). simpl.
        rewrite <-IHp. rewrite <-!Permutation_middle. done.
    + intros i m. cbn. destruct (decide (i = index w)) as [->|Hne].
      * rewrite lookup_insert_eq. intros [= <-]. split.
        -- apply elem_of_app. right. by left.
        -- exists w. split_and!; [done..|]. by eapply test_passed_shares.
      * rewrite lookup_insert_ne by done. intros [Hm Hx]%IHs.
        split; [|done]. apply elem_of_app. by left.
  - intros seen st add n IH _ Hpre.
    destruct IH as [IHp IHs]; [by eapply prefix_app_l|]. split.
    + cbn [resolved_was]. rewrite <-app_assoc.
      rewrite (Permutation_app_comm [n]). rewrite app_assoc.
      by rewrite IHp.
    + intros i m. cbn. intros [Hm Hx]%IHs. split; [|done].
      apply elem_of_app. by left.
Qed.

(** The removed-layers loop leaves the pairs as they are. *)
Lemma removed_loop_pairs was_layers st rem (l : list Layer) :
  NoDup (index <$> was_layers) →
  omap (paired (fold_left step_removed was_layers (st, rem)).1) l
  = omap (paired st) l.
Proof.
  intros Hnd. apply omap_ext_elem. intros x _.
  destruct (removed_loop was_layers st rem Hnd) as (_ & _ & H).
  rewrite H. destruct (resolved_was st !! index x) as [[m|]|]; try done.
  by destruct (bool_decide _).
Qed.
End new_side.

Lemma same_index_same_layer (l : list Layer) (a b : Layer) :
  NoDup (index <$> l) → a ∈ l → b ∈ l → index a = index b → a = b.
Proof.
  intros Hnd Ha Hb Hidx.
  apply list_elem_of_lookup in Ha as [i Hi].
  apply list_elem_of_lookup in Hb as [j Hj].
  assert (i = j) as ->; [|congruence].
  eapply (NoDup_lookup (index <$> l)); [done|..]; rewrite list_lookup_fmap.
  - by rewrite Hi.
  - rewrite Hj. simpl. by rewrite Hidx.
Qed.

(** X6.  The empty sides: without old layers every new layer is added, and
    without new layers every old layer is removed, the latter when the old
    indexes are distinct (an old layer whose index was seen before is taken
    as resolved). *)
Theorem match_layers_empty_sides
    (sd : Layer → Layer → bool) (was_layers now_layers : list Layer) :
  _match_layers sd [] now_layers = (now_layers, [], [])
  ∧ (NoDup (index <$> was_layers) →
     _match_layers sd was_layers [] = ([], [], was_layers)).
Proof.
  split.
  - rewrite match_layers_components. cbn [fold_left omap list_omap fst snd].
    f_equal. f_equal.
    apply (match_now_ind sd (λ seen _ add, add = seen)); [done| |].
    + intros seen st add n w _ Hw. by apply elem_of_nil in Hw.
    + by intros seen st add n -> _.
  - intros Hnd. rewrite match_layers_unfold by done. unfold match_now.
    cbn [fold_left fst snd resolved_was]. f_equal; [f_equal|].
    + apply omap_none. intros w _. by rewrite lookup_empty.
    + apply filter_all. intros w _. apply is_resolved_was_false.
      apply lookup_empty.
Qed.

Lemma match_layers_empty_sides_witness :
  let ls := [layer_of 0 1 "Roads" "C:\Data"; layer_of 1 2 "Rivers" "C:\Data"] in
  _match_layers same_datasource_model [] ls = (ls, [], [])
  ∧ _match_layers same_datasource_model ls [] = ([], [], ls).
Proof.
  intros ls.
  destruct (match_layers_empty_sides same_datasource_model ls ls) as [H1 H2].
  split; [done|]. apply H2. apply (bool_decide_unpack _). by vm_compute.
Defined.

Lemma matched_pair_shares
    (sd : Layer → Layer → bool) (was_layers now_layers : list Layer)
    (w n : Layer) :
  NoDup (index <$> was_layers) →
  (w, n) ∈ (_match_layers sd was_layers now_layers).1.2 →
  same_id w n || same_name w n = true.
Proof.
  intros Hnd. rewrite match_layers_components. cbn [fst snd].
  intros [Hw Hl]%elem_of_omap_paired.
  apply removed_loop_layers in Hl.
  apply match_now_stored in Hl as (_ & w' & Hw' & Hidx & Hshare).
  by rewrite <-(same_index_same_layer was_layers w' w Hnd Hw' Hw Hidx).
Qed.

(** X7.  With distinct old indexes, the two layers of a matched pair have
    the same [serviceId] or the same [name]: no pair is made on the data
    source alone. *)
Theorem matched_layers_share_id_or_name
    (sd : Layer → Layer → bool) (was_layers now_layers : list Layer)
    (w n : Layer) :
  NoDup (index <$> was_layers) →
  (w, n) ∈ (_match_layers sd was_layers now_layers).1.2 →
  same_id w n || same_name w n = true.
Proof. apply matched_pair_shares. Qed.

Lemma matched_layers_share_id_or_name_witness :
  let w := layer_of 0 1 "Roads" "C:\Data" in
  let n := layer_of 3 7 "Roads" "C:\Other" in
  same_id w n || same_name w n = true.
Proof.
  intros w n.
  apply (matched_layers_share_id_or_name same_datasource_model
           [w; layer_of 1 2 "Rivers" "C:\Data"] [n]).
  - apply (bool_decide_unpack _). by vm_compute.
  - vm_compute. left.
Defined.

(** X8.  A layer that has neither a [serviceId] nor a [name] is never
    paired: as a new layer it is added, and it is the new side of no pair;
    as an old layer, with distinct old indexes, it is removed and is the
    old side of no pair. *)
Theorem layer_without_id_and_name_is_never_matched
    (sd : Layer → Layer → bool) (was_layers now_layers : list Layer)
    (l : Layer) :
  dict_get "serviceId" (attrs l) = None →
  dict_get "name" (attrs l) = None →
  let '(added, matched, removed) := _match_layers sd was_layers now_layers in
  (l ∈ now_layers → l ∈ added)
  ∧ (∀ w, (w, l) ∉ matched)
  ∧ (NoDup (index <$> was_layers) →
     (l ∈ was_layers → l ∈ removed) ∧ ∀ n, (l, n) ∉ matched).
Proof.
  intros Hid Hname.
  assert (∀ x, same_id x l || same_name x l = false) as Hnew.
  { intros x. unfold same_id, same_name, _attr_shallow_eq. rewrite Hid, Hname.
    by destruct (dict_get "serviceId" (attrs x)), (dict_get "name" (attrs x)). }
  assert (∀ x, same_id l x || same_name l x = false) as Hold.
  { intros x. unfold same_id, same_name, _attr_shallow_eq.
    by rewrite Hid, Hname. }
  pose proof (matched_pair_shares sd was_layers now_layers l) as Hshare.
  pose proof (match_layers_old_side sd was_layers now_layers) as Hpart.
  rewrite match_layers_components in *. cbn [fst snd] in *. split_and!.
  - apply (match_now_ind sd (λ seen _ add, l ∈ seen → l ∈ add)).
    + intros H. by apply elem_of_nil in H.
    + intros seen st add n w IH _ Ht [Hl|Hl]%elem_of_app; [by apply IH|].
      apply list_elem_of_singleton in Hl as ->.
      apply test_passed_shares in Ht. by rewrite Hnew in Ht.
    + intros seen st add n IH _ [Hl|Hl]%elem_of_app; apply elem_of_app; auto.
  - intros w [_ Hl]%elem_of_omap_paired.
    apply removed_loop_layers in Hl.
    apply match_now_stored in Hl as (_ & w' & _ & _ & Hs).
    by rewrite Hnew in Hs.
  - intros Hnd.
    assert (∀ n, (l, n) ∉ omap
              (λ w, match resolved_was
                            (fold_left step_removed was_layers
                               ((match_now sd was_layers now_layers).1, [])).1
                          !! index w with
                    | Some (Some n) => Some (w, n)
                    | _ => None
                    end) was_layers) as Hno.
    { intros n Hn. apply (Hshare n Hnd) in Hn. by rewrite Hold in Hn. }
    split; [|done]. intros Hl.
    rewrite <-(Hpart Hnd) in Hl. apply elem_of_app in Hl as [Hl|Hl]; [|done].
    apply list_elem_of_fmap in Hl as ([w n] & -> & Hp). by apply Hno in Hp.
Qed.

Lemma layer_without_id_and_name_is_never_matched_witness :
  let l := bare_layer 1 in
  let was_layers := [layer_of 0 1 "Roads" "C:\Data"; l] in
  let now_layers := [l; layer_of 0 1 "Roads" "C:\Data"] in
  let '(added, matched, removed) :=
    _match_layers same_datasource_model was_layers now_layers in
  l ∈ added ∧ l ∈ removed.
Proof.
  intros l was_layers now_layers.
  pose proof (layer_without_id_and_name_is_never_matched
                same_datasource_model was_layers now_layers l
                eq_refl eq_refl) as H.
  destruct (_match_layers same_datasource_model was_layers now_layers)
    as [[added matched] removed].
  destruct H as (Ha & _ & Hr). split.
  - apply Ha. left.
  - apply Hr.
    + apply (bool_decide_unpack _). by vm_compute.
    + right. left.
Defined.

(** X9.  With distinct old indexes no new layer is counted twice: the
    added layers and the matched pairs together are at most as many as the
    new layers. *)
Theorem match_layers_counts_no_new_layer_twice
    (sd : Layer → Layer → bool) (was_layers now_layers : list Layer) :
  NoDup (index <$> was_layers) →
  let '(added, matched, _) := _match_layers sd was_layers now_layers in
  (length added + length matched ≤ length now_layers)%nat.
Proof.
  intros Hnd. rewrite match_layers_components.
  rewrite removed_loop_pairs by done. by apply match_now_count.
Qed.

Lemma match_layers_counts_no_new_layer_twice_witness :
  let old_layer := layer_of 0 1 "Roads" "C:\Data" in
  let now_layers := [layer_of 0 1 "Roads" "C:\Data"; layer_of 1 1 "Roads" "C:\Data"] in
  let '(added, matched, _) :=
    _match_layers same_datasource_model [old_layer] now_layers in
  (length added + length matched ≤ 2)%nat.
Proof.
  intros old_layer now_layers.
  apply (match_layers_counts_no_new_layer_twice same_datasource_model
           [old_layer] now_layers).
  apply (bool_decide_unpack _). by vm_compute.
Defined.

(** X10.  The partition holds when the first test cannot take a layer
    twice.  With distinct indexes on both sides, and when an old layer that
    has the id, name and data source of a new layer shares its id or name
    with no other new layer, every new layer is in exactly one of [added]
    and [matched], and every old layer in exactly one of [matched] and
    [removed]. *)
Theorem match_layers_partition
    (sd : Layer → Layer → bool) (was_layers now_layers : list Layer) :
  NoDup (index <$> was_layers) →
  NoDup (index <$> now_layers) →
  (∀ a b b', a ∈ was_layers → b ∈ now_layers → b' ∈ now_layers →
     unchanged sd a b = true → same_id a b' || same_name a b' = true →
     b' = b) →
  let '(added, matched, removed) := _match_layers sd was_layers now_layers in
  added ++ matched.*2 ≡ₚ now_layers
  ∧ matched.*1 ++ removed ≡ₚ was_layers.
Proof.
  intros Hwas Hnow Hone.
  pose proof (match_layers_old_side sd was_layers now_layers Hwas) as Hold.
  rewrite match_layers_components in *. cbn [fst snd] in Hold.
  split; [|done]. rewrite removed_loop_pairs by done.
  apply match_now_partition; [done| |done].
  by apply (NoDup_fmap_1 index).
Qed.

Lemma match_layers_partition_witness :
  let was_layers :=
    [layer_of 0 1 "Roads" "C:\Data"; layer_of 1 2 "Rivers" "C:\Data"] in
  let now_layers :=
    [layer_of 0 3 "Lakes" "C:\Data"; layer_of 1 1 "Roads" "C:\Data";
     layer_of 2 2 "Streams" "C:\Data"] in
  let '(added, matched, removed) :=
    _match_layers same_datasource_model was_layers now_layers in
  added ++ matched.*2 ≡ₚ now_layers
  ∧ matched.*1 ++ removed ≡ₚ was_layers.
Proof.
  intros was_layers now_layers.
  apply (match_layers_partition same_datasource_model was_layers now_layers).
  - apply (bool_decide_unpack _). by vm_compute.
  - apply (bool_decide_unpack _). by vm_compute.
  - intros a b b' Ha Hb Hb'.
    repeat (apply elem_of_cons in Ha as [->|Ha]);
      [| |by apply elem_of_nil in Ha];
      (repeat (apply elem_of_cons in Hb as [->|Hb]);
         [| | |by apply elem_of_nil in Hb]);
      (repeat (apply elem_of_cons in Hb' as [->|Hb']);
         [| | |by apply elem_of_nil in Hb']);
      vm_compute; congruence.
Defined.

(** ** Reconciliation: whom a new layer is paired with *)

Section first_match.
Variable sd : Layer → Layer → bool.

(** The turn of one new layer, after the new layers [seen]. *)
Lemma match_now_snoc was_layers seen n :
  match_now sd was_layers (seen ++ [n])
  = step_now sd was_layers (match_now sd was_layers seen) n.
Proof. unfold match_now. by rewrite fold_left_app. Qed.

(** The first old layer that passes a test in the state the earlier new
    layers have left is claimed, and is reported with the new layer when
    this one is the last. *)
Lemma match_now_claims was_layers seen n pre w post :
  let before := match_now sd was_layers seen in
  was_layers = pre ++ w :: post →
  (∀ a, a ∈ pre → test_if_matching_layer sd before.1 a n = false) →
  test_if_matching_layer sd before.1 w n = true →
  match_now sd was_layers (seen ++ [n]) = (claim before.1 w n, before.2)
  ∧ (NoDup (index <$> was_layers) →
     (w, n) ∈ (_match_layers sd was_layers (seen ++ [n])).1.2).
Proof.
  intros before Hwas Hpre Hw.
  assert (match_now sd was_layers (seen ++ [n])
          = (claim before.1 w n, before.2)) as Hafter.
  { rewrite match_now_snoc. fold before. unfold step_now.
    rewrite Hwas at 1. by rewrite (find_was_first sd _ _ _ _ _ Hpre Hw). }
  split; [done|]. intros Hnd. rewrite match_layers_unfold by done.
  cbn [fst snd]. rewrite Hafter. cbn [fst].
  apply elem_of_omap_paired. split.
  - rewrite Hwas. apply elem_of_app. right. by left.
  - cbn. apply lookup_insert_eq.
Qed.
End first_match.

(** C3, amended.  The order of the tests does not rank the candidates.  For
    every new layer [n], with [seen] the new layers before it: the layers
    after [n] start from the state its turn leaves; the reconciler claims
    for [n] the first old layer, in list order, that passes any test in the
    state [seen] has left, and reports the pair when [n] is the last new
    layer and the old indexes are distinct; it adds [n] when no old layer
    passes.  So an old layer that has the id or the name of [n] is claimed,
    by id or by name alike, when the layer and [n] are not resolved and no
    old layer before it has the id or the name of [n].  With [n] the only
    new layer, [x] matching it by id and [y] by name, and no old layer
    before them sharing its id or name, [n] is paired with [x] when [x]
    stands before [y], and with [y] when [y] stands before [x]. *)
Theorem first_old_layer_passing_a_test_wins
    (sd : Layer → Layer → bool) (was_layers seen : list Layer) (n : Layer) :
  let before := match_now sd was_layers seen in
  let after := match_now sd was_layers (seen ++ [n]) in
  let result := _match_layers sd was_layers (seen ++ [n]) in
  (∀ rest, match_now sd was_layers (seen ++ n :: rest)
           = fold_left (step_now sd was_layers) rest after)
  ∧ (∀ pre w post,
       was_layers = pre ++ w :: post →
       (∀ a, a ∈ pre → test_if_matching_layer sd before.1 a n = false) →
       test_if_matching_layer sd before.1 w n = true →
       after = (claim before.1 w n, before.2)
       ∧ (NoDup (index <$> was_layers) → (w, n) ∈ result.1.2))
  ∧ ((∀ a, a ∈ was_layers → test_if_matching_layer sd before.1 a n = false) →
     after.2 = before.2 ++ [n] ∧ n ∈ result.1.1)
  ∧ (∀ pre w post,
       was_layers = pre ++ w :: post →
       (∀ a, a ∈ pre → same_id a n = false ∧ same_name a n = false) →
       same_id w n || same_name w n = true →
       is_resolved_was before.1 w = false →
       is_resolved_now before.1 n = false →
       after = (claim before.1 w n, before.2)
       ∧ (NoDup (index <$> was_layers) → (w, n) ∈ result.1.2))
  ∧ (∀ pre mid post x y,
       NoDup (index <$> (pre ++ x :: mid ++ y :: post)) →
       same_id x n = true →
       same_name y n = true →
       (∀ a, a ∈ pre → same_id a n = false ∧ same_name a n = false) →
       _match_layers sd (pre ++ x :: mid ++ y :: post) [n]
       = ([], [(x, n)], pre ++ mid ++ y :: post)
       ∧ _match_layers sd (pre ++ y :: mid ++ x :: post) [n]
         = ([], [(y, n)], pre ++ mid ++ x :: post)).
Proof.
  intros before after result. split_and!.
  - intros rest. unfold after, match_now.
    by rewrite (cons_middle n seen rest), app_assoc, fold_left_app.
  - intros pre w post. apply (match_now_claims sd was_layers seen n pre w post).
  - intros Hnone. unfold after, result.
    rewrite match_layers_components. cbn [fst snd].
    rewrite match_now_snoc. fold before. unfold step_now.
    rewrite (find_was_none sd _ _ _ Hnone). cbn [fst snd].
    split; [done|]. apply elem_of_app. right. by left.
  - intros pre w post Hwas Hpre Hshare Hw Hn.
    apply (match_now_claims sd was_layers seen n pre w post); [done|..].
    + intros a [Hi Hm]%Hpre. rewrite test_if_matching_layer_eq, Hi, Hm.
      simpl. apply andb_false_r.
    + rewrite test_if_matching_layer_eq. unfold unresolved.
      fold before. rewrite Hw, Hn, Hshare. apply orb_true_r.
  - intros pre mid post x y Hnd Hx Hy Hpre.
    assert (∀ a, a ∈ pre →
              test_if_matching_layer sd (mkResolved ∅ ∅) a n = false) as Hpre'.
    { intros a [Hi Hm]%Hpre. rewrite test_if_matching_layer_eq, Hi, Hm.
      by rewrite andb_false_r. }
    split.
    + apply match_layers_single; [done..|].
      rewrite test_if_matching_layer_eq, unresolved_empty, Hx. simpl.
      apply orb_true_r.
    + apply match_layers_single; [|done|].
      * assert (pre ++ y :: mid ++ x :: post ≡ₚ pre ++ x :: mid ++ y :: post)
          as Hp.
        { apply Permutation_app_head.
          rewrite <-(Permutation_middle mid post x).
          rewrite <-(Permutation_middle mid post y). apply Permutation_swap. }
        by rewrite Hp.
      * rewrite test_if_matching_layer_eq, unresolved_empty, Hy. simpl.
        rewrite orb_true_r. apply orb_true_r.
Qed.

Lemma first_old_layer_passing_a_test_wins_witness :
  let x := layer_of 1 1 "Rivers" "C:\Data" in
  let y := layer_of 0 2 "Roads" "C:\Data" in
  let n0 := layer_of 1 1 "Rivers" "C:\Data" in
  let n := layer_of 0 1 "Roads" "C:\Other" in
  (same_id x n = true ∧ same_name y n = true)
  ∧ (x, n0) ∈ (_match_layers same_datasource_model [x; y] [n0]).1.2
  ∧ (y, n) ∈ (_match_layers same_datasource_model [x; y] [n0; n]).1.2
  ∧ _match_layers same_datasource_model [x; y] [n] = ([], [(x, n)], [y])
  ∧ _match_layers same_datasource_model [y; x] [n] = ([], [(y, n)], [x]).
Proof.
  intros x y n0 n. split; [by vm_compute|].
  destruct (first_old_layer_passing_a_test_wins same_datasource_model
              [x; y] [] n0) as (_ & _ & _ & Hshare & _).
  destruct (first_old_layer_passing_a_test_wins same_datasource_model
              [x; y] [n0] n) as (_ & Hfirst & _ & _ & Hone).
  split_and!.
  - apply (Hshare [] x [y]); try by vm_compute.
    + intros a Ha. by apply elem_of_nil in Ha.
    + apply (bool_decide_unpack _). by vm_compute.
  - apply (Hfirst [x] y []); try by vm_compute.
    + intros a ->%list_elem_of_singleton. by vm_compute.
    + apply (bool_decide_unpack _). by vm_compute.
  - apply (Hone [] [] [] x y); try by vm_compute.
    + apply (bool_decide_unpack _). by vm_compute.
    + intros a Ha. by apply elem_of_nil in Ha.
  - apply (Hone [] [] [] x y); try by vm_compute.
    + apply (bool_decide_unpack _). by vm_compute.
    + intros a Ha. by apply elem_of_nil in Ha.
Defined.

(** ** Canonical forms: what [_recursive_sort] returns *)

Lemma insert_sorted_ok x l l' :
  insert_sorted x l = Ok l' → StronglySorted canon_le l →
  l' ≡ₚ x :: l ∧ StronglySorted canon_le l'.
Proof.
  revert l'. induction l as [|y l IH]; intros l' Hins Hs; simpl in Hins.
  - injection Hins as <-. split; [done|]. repeat constructor.
  - apply StronglySorted_cons in Hs as [Hy Hs].
    destruct (canon_lt x y) as [b|] eqn:Hlt; simpl in Hins; [|done].
    apply canon_lt_cmp in Hlt as Hb. destruct b.
    + injection Hins as <-. split; [done|].
      assert (canon_le x y) as Hxy.
      { unfold canon_le. by destruct (canon_cmp x y). }
      apply StronglySorted_cons. split; [|by apply StronglySorted_cons].
      constructor; [done|].
      eapply Forall_impl; [exact Hy|]. intros z Hz. by etrans.
    + destruct (insert_sorted x l) as [l''|] eqn:Hl; simpl in Hins; [|done].
      injection Hins as <-. destruct (IH l'' eq_refl Hs) as [Hp Hs'].
      split.
      * rewrite Hp. apply Permutation_swap.
      * apply StronglySorted_cons. split; [|done].
        rewrite Hp. constructor; [|done].
        apply canon_le_flip. by destruct (canon_cmp x y).
Qed.

Lemma sorted_from_ok l : ∀ acc s,
  sorted_from acc l = Ok s → StronglySorted canon_le acc →
  s ≡ₚ acc ++ l ∧ StronglySorted canon_le s.
Proof.
  induction l as [|x l IH]; intros acc s Hs Hacc; simpl in Hs.
  - injection Hs as <-. by rewrite app_nil_r.
  - destruct (insert_sorted x acc) as [acc'|] eqn:Hins; simpl in Hs; [|done].
    apply insert_sorted_ok in Hins as [Hp Hacc']; [|done].
    destruct (IH acc' s Hs Hacc') as [Hps Hss]. split; [|done].
    rewrite Hps, Hp. simpl. apply Permutation_middle.
Qed.

Lemma sorted_ok l s :
  sorted l = Ok s → s ≡ₚ l ∧ StronglySorted canon_le s.
Proof. intros H. apply (sorted_from_ok l [] s H). constructor. Qed.

Lemma canon_le_not_lt a b : canon_le a b → canon_lt b a ≠ Ok true.
Proof.
  intros Hle Hlt. apply canon_lt_cmp in Hlt. apply Hle.
  rewrite canon_cmp_antisym. by destruct (canon_cmp b a).
Qed.

Lemma sorted_ascending l s : sorted l = Ok s → s ≡ₚ l ∧ ascending s.
Proof.
  intros [Hp Hs]%sorted_ok. split; [done|]. unfold ascending. clear Hp.
  induction Hs as [|a s Hs IH Ha]; constructor; [done|].
  eapply Forall_impl; [exact Ha|]. intros b. apply canon_le_not_lt.
Qed.

(** X11.  The canonical form of a list is the canonical forms of its
    elements, each as often as the list has it, in ascending order: no
    element is [<] an element before it.  The canonical form of a dict is
    its [(key, canonical value)] tuples in ascending order, and a scalar is
    its own canonical form. *)
Theorem recursive_sort_sorts (obj : value) (c : canon) :
  _recursive_sort obj = Ok c →
  match obj with
  | VList xs =>
      ∃ cs s, comprehension _recursive_sort xs = Ok cs
              ∧ c = CList s ∧ s ≡ₚ cs ∧ ascending s
  | VDict d =>
      ∃ items s, comprehension sorted_item d = Ok items
                 ∧ c = CList s ∧ s ≡ₚ items ∧ ascending s
  | VNone => c = CNone
  | VBool b => c = CBool b
  | VInt n => c = CInt n
  | VStr s => c = CStr s
  end.
Proof.
  destruct obj as [|b|n|s|xs|d]; try (by intros [= <-]).
  - rewrite recursive_sort_list.
    destruct (comprehension _recursive_sort xs) as [cs|]; simpl; [|done].
    destruct (sorted cs) as [s|] eqn:Hs; simpl; [|done]. intros [= <-].
    apply sorted_ascending in Hs as [? ?]. by exists cs, s.
  - rewrite recursive_sort_dict. fold sorted_item.
    change (λ kv : string * value, v' ← _recursive_sort kv.2; Ok (CItem kv.1 v'))
      with sorted_item.
    destruct (comprehension sorted_item d) as [items|]; simpl; [|done].
    destruct (sorted items) as [s|] eqn:Hs; simpl; [|done]. intros [= <-].
    apply sorted_ascending in Hs as [? ?]. by exists items, s.
Qed.

Lemma recursive_sort_sorts_witness :
  ∃ cs s,
    comprehension _recursive_sort [VInt 3; VBool true; VInt 2; VInt 3] = Ok cs
    ∧ CList [CBool true; CInt 2; CInt 3; CInt 3] = CList s
    ∧ s ≡ₚ cs ∧ ascending s.
Proof.
  apply (recursive_sort_sorts (VList [VInt 3; VBool true; VInt 2; VInt 3])).
  by vm_compute.
Defined.

(** ** When sorting raises *)

Lemma lex_lt_raise xs :
  Forall (λ x, ∀ y e, canon_lt x y = Raise e → e = TypeError) xs →
  ∀ ys e, lex_lt canon_eq canon_lt xs ys = Raise e → e = TypeError.
Proof.
  induction 1 as [|x xs Hx _ IH]; intros [|y ys] e; simpl; try done.
  destruct (canon_eq x y); [apply IH|apply Hx].
Qed.

Lemma canon_lt_raise x : ∀ y e, canon_lt x y = Raise e → e = TypeError.
Proof.
  induction x as [|b|n|s|xs IH|k v IH] using canon_ind_nested;
    intros [| | | |ys|k' v'] e; simpl; try done; try (by intros [= <-]).
  - by apply lex_lt_raise.
  - destruct (String.eqb k k'); [|done].
    destruct (canon_eq v v'); [done|apply IH].
Qed.

Lemma insert_sorted_raise x l e :
  insert_sorted x l = Raise e → e = TypeError.
Proof.
  induction l as [|y l IH]; simpl; [done|].
  destruct (canon_lt x y) as [b|e'] eqn:Hlt; simpl.
  - destruct b; [done|]. destruct (insert_sorted x l); [done|].
    simpl. intros [= <-]. by apply IH.
  - intros [= <-]. by eapply canon_lt_raise.
Qed.

Lemma sorted_raise l e : sorted l = Raise e → e = TypeError.
Proof.
  unfold sorted. generalize (@nil canon).
  induction l as [|x l IH]; intros acc; simpl; [done|].
  destruct (insert_sorted x acc) as [acc'|e'] eqn:Hins; simpl.
  - apply IH.
  - intros [= <-]. by eapply insert_sorted_raise.
Qed.

Lemma comprehension_raise_elem {A B} (f : A → result B) l e :
  comprehension f l = Raise e → ∃ x, x ∈ l ∧ f x = Raise e.
Proof.
  induction l as [|x l IH]; [done|]. rewrite comprehension_cons.
  destruct (f x) as [y|e'] eqn:Hx; simpl.
  - destruct (comprehension f l) as [ys|e'']; simpl; [done|].
    intros [= <-]. destruct IH as (z & Hz & Hfz); [done|].
    exists z. split; [by right|done].
  - intros [= <-]. exists x. split; [by left|done].
Qed.

Lemma comprehension_all_ok {A B} (f : A → result B) l :
  (∀ x, x ∈ l → is_ok (f x) = true) → ∃ r, comprehension f l = Ok r.
Proof.
  induction l as [|x l IH]; intros Hall; [by exists []|].
  rewrite comprehension_cons.
  specialize (Hall x ltac:(left)) as Hx.
  destruct (f x) as [y|]; [|done]. simpl.
  destruct IH as [r ->]; [intros z Hz; apply Hall; by right|].
  simpl. eauto.
Qed.

(** X12.  [_recursive_sort] raises nothing but the [TypeError] of a
    comparison that Python 3 does not define. *)
Theorem recursive_sort_raises_type_error_only (obj : value) (e : PyError) :
  _recursive_sort obj = Raise e → e = TypeError.
Proof.
  revert e. induction obj as [|b|n|s|xs IH|d IH] using value_ind_nested;
    intros e; try done.
  - rewrite recursive_sort_list.
    destruct (comprehension _recursive_sort xs) as [cs|e'] eqn:Hc; simpl.
    + destruct (sorted cs) as [s|e'] eqn:Hs; simpl; [done|].
      intros [= <-]. by eapply sorted_raise.
    + intros [= <-]. apply comprehension_raise_elem in Hc as (x & Hx & Hr).
      rewrite Forall_forall in IH. by eapply IH.
  - rewrite recursive_sort_dict.
    destruct (comprehension _ d) as [cs|e'] eqn:Hc; simpl.
    + destruct (sorted cs) as [s|e'] eqn:Hs; simpl; [done|].
      intros [= <-]. by eapply sorted_raise.
    + intros [= <-]. apply comprehension_raise_elem in Hc as (kv & Hkv & Hr).
      rewrite Forall_forall in IH.
      destruct (_recursive_sort kv.2) as [c|e''] eqn:Hv; simpl in Hr; [done|].
      injection Hr as <-. by eapply IH.
Qed.

Lemma recursive_sort_raises_type_error_only_witness :
  _recursive_sort (VList [VInt 1; VStr "a"]) = Raise TypeError.
Proof.
  destruct (_recursive_sort (VList [VInt 1; VStr "a"])) as [c|e] eqn:H.
  - by vm_compute in H.
  - f_equal.
    by apply (recursive_sort_raises_type_error_only
                (VList [VInt 1; VStr "a"]) e).
Defined.

Lemma numbers_comparable cs :
  Forall (λ c, ∃ v, is_number v = true ∧ _recursive_sort v = Ok c) cs →
  pairwise_comparable cs.
Proof.
  unfold pairwise_comparable.
  induction 1 as [|c cs (v & Hv & Hc) Hcs IH]; constructor; [|done].
  eapply Forall_impl; [exact Hcs|]. intros c' (v' & Hv' & Hc').
  destruct v, v'; try done; simpl in Hc, Hc';
    injection Hc as <-; injection Hc' as <-; by split.
Qed.

Lemma strings_comparable cs :
  Forall (λ c, ∃ v, is_string v = true ∧ _recursive_sort v = Ok c) cs →
  pairwise_comparable cs.
Proof.
  unfold pairwise_comparable.
  induction 1 as [|c cs (v & Hv & Hc) Hcs IH]; constructor; [|done].
  eapply Forall_impl; [exact Hcs|]. intros c' (v' & Hv' & Hc').
  destruct v, v'; try done; simpl in Hc, Hc';
    injection Hc as <-; injection Hc' as <-; by split.
Qed.

Lemma scalars_sort_elementwise (P : value → bool) xs :
  (∀ v, P v = true → is_ok (_recursive_sort v) = true) →
  forallb P xs = true →
  ∃ cs, comprehension _recursive_sort xs = Ok cs
        ∧ Forall (λ c, ∃ v, P v = true ∧ _recursive_sort v = Ok c) cs.
Proof.
  intros HP. induction xs as [|x xs IH]; cbn [forallb].
  - intros _. exists []. by split.
  - intros [Hx Hxs]%andb_prop. destruct (IH Hxs) as (cs & Hc & Hcs).
    specialize (HP x Hx). rewrite comprehension_cons.
    destruct (_recursive_sort x) as [c|] eqn:Hcx; [|done]. simpl.
    rewrite Hc. simpl. eexists. split; [done|]. constructor; [|done]. eauto.
Qed.

(** X13.  Where the [TypeError] cannot come from: a dict with distinct
    keys whose values have canonical forms has one (its tuples are ordered
    by their keys, and the values are never compared), and so have a list
    of numbers and a list of strings. *)
Theorem recursive_sort_succeeds
    (d : list (string * value)) (xs : list value) :
  (NoDup d.*1 →
   (∀ kv, kv ∈ d → is_ok (_recursive_sort kv.2) = true) →
   is_ok (_recursive_sort (VDict d)) = true)
  ∧ (forallb is_number xs = true → is_ok (_recursive_sort (VList xs)) = true)
  ∧ (forallb is_string xs = true → is_ok (_recursive_sort (VList xs)) = true).
Proof.
  split_and!.
  - intros Hnd Hall. rewrite recursive_sort_dict.
    destruct (comprehension_all_ok
                (λ kv : string * value,
                   v' ← _recursive_sort kv.2; Ok (CItem kv.1 v')) d)
      as [items Hitems].
    { intros kv Hkv. specialize (Hall kv Hkv).
      by destruct (_recursive_sort kv.2). }
    rewrite Hitems. simpl.
    destruct (sorted_spec items) as (s & -> & _); [|done].
    eapply dict_items_comparable; [done|]. by apply dict_items_keys.
  - intros Hxs. rewrite recursive_sort_list.
    destruct (scalars_sort_elementwise is_number xs) as (cs & -> & Hcs);
      [by intros []|done|].
    simpl. by destruct (sorted_spec cs (numbers_comparable cs Hcs)) as (s & -> & _).
  - intros Hxs. rewrite recursive_sort_list.
    destruct (scalars_sort_elementwise is_string xs) as (cs & -> & Hcs);
      [by intros []|done|].
    simpl. by destruct (sorted_spec cs (strings_comparable cs Hcs)) as (s & -> & _).
Qed.

Lemma recursive_sort_succeeds_witness :
  is_ok (_recursive_sort
           (VDict [("b", VNone); ("a", VList [VInt 2; VBool false])])) = true
  ∧ is_ok (_recursive_sort (VList [VInt 2; VBool false])) = true
  ∧ is_ok (_recursive_sort (VList [VStr "b"; VStr "a"])) = true.
Proof.
  destruct (recursive_sort_succeeds
              [("b", VNone); ("a", VList [VInt 2; VBool false])]
              [VInt 2; VBool false]) as (Hd & Hn & _).
  destruct (recursive_sort_succeeds [] [VStr "b"; VStr "a"]) as (_ & _ & Hs).
  split_and!.
  - apply Hd.
    + apply (bool_decide_unpack _). by vm_compute.
    + intros kv Hkv.
      repeat (apply elem_of_cons in Hkv as [->|Hkv]); [by vm_compute..|].
      by apply elem_of_nil in Hkv.
  - by apply Hn.
  - by apply Hs.
Defined.

(** X14.  On scalar fields the deep comparison is the shallow one: when
    the field is absent from either side, or its two values are neither
    lists nor dicts, [_attr_deep_eq] raises nothing and returns what
    [_attr_shallow_eq] returns. *)
Theorem attr_deep_eq_on_scalars
    (a b : list (string * value)) (attr_key : string) :
  match dict_get attr_key a, dict_get attr_key b with
  | Some va, Some vb => is_scalar va = true ∧ is_scalar vb = true
  | _, _ => True
  end →
  _attr_deep_eq a b attr_key = Ok (_attr_shallow_eq a b attr_key).
Proof.
  unfold _attr_deep_eq, _attr_shallow_eq.
  destruct (dict_get attr_key a) as [va|], (dict_get attr_key b) as [vb|];
    try done.
  intros [Ha Hb]. destruct va, vb; try done; simpl; f_equal;
    try apply Z.eqb_sym; try apply String.eqb_sym.
Qed.

Lemma attr_deep_eq_on_scalars_witness :
  _attr_deep_eq [("visible", VBool true)] [("visible", VInt 1)] "visible"
  = Ok true
  ∧ _attr_deep_eq [("visible", VBool true)] [] "visible" = Ok false.
Proof.
  split.
  - by apply (attr_deep_eq_on_scalars
                [("visible", VBool true)] [("visible", VInt 1)] "visible").
  - by apply (attr_deep_eq_on_scalars [("visible", VBool true)] [] "visible").
Defined.

(** ** Shallow and deep equality *)

Lemma dict_get_Some_elem {A} (d : list (string * A)) k v :
  dict_get k d = Some v → (k, v) ∈ d.
Proof.
  induction d as [|[k' v'] d IH]; simpl; [done|].
  destruct (String.eqb_spec k k') as [->|Hne].
  - intros [= ->]. by left.
  - intros H. right. by apply IH.
Qed.

Lemma list_eqb_Forall2 {A} (eq : A → A → bool) xs ys :
  list_eqb eq xs ys = true ↔ Forall2 (λ x y, eq x y = true) xs ys.
Proof.
  revert ys. induction xs as [|x xs IH]; intros [|y ys]; simpl.
  - split; [constructor|done].
  - split; [done|inversion 1].
  - split; [done|inversion 1].
  - rewrite andb_true_iff, IH. split.
    + intros [? ?]. by constructor.
    + intros [? ?]%Forall2_cons. done.
Qed.

Lemma wf_value_dict d :
  wf_value (VDict d) = true ↔
  NoDup d.*1 ∧ Forall (λ kv : string * value, wf_value kv.2 = true) d.
Proof.
  simpl. rewrite andb_true_iff, bool_decide_eq_true, forallb_forall.
  rewrite Forall_forall. split; intros [? H]; (split; [done|]);
    intros kv Hkv; apply H; by apply list_elem_of_In.
Qed.

Lemma wf_value_list xs :
  wf_value (VList xs) = true ↔ Forall (λ x, wf_value x = true) xs.
Proof.
  simpl. rewrite forallb_forall, Forall_forall.
  split; intros H x Hx; apply H; by apply list_elem_of_In.
Qed.

(** The items of the right dict in the key order of the left one, when
    the two dicts are equal. *)
Lemma items_in_aligned {A} (eq : A → A → bool) (d e : list (string * A)) :
  NoDup d.*1 → NoDup e.*1 → length d = length e →
  items_in eq d e = true →
  ∃ e', e' ≡ₚ e
        ∧ Forall2 (λ kv kv', kv.1 = kv'.1 ∧ eq kv.2 kv'.2 = true) d e'.
Proof.
  intros Hd He Hlen Hin.
  assert (∃ e', Forall2 (λ kv kv' : string * A,
                           kv.1 = kv'.1 ∧ eq kv.2 kv'.2 = true ∧ kv' ∈ e) d e')
    as [e' He'].
  { unfold items_in in Hin. clear Hd Hlen.
    induction d as [|[k v] d IH]; [exists []; constructor|].
    simpl in Hin. apply andb_prop in Hin as [Hkv Hin].
    destruct (IH Hin) as [e' He'].
    destruct (dict_get k e) as [w|] eqn:Hw; [|done].
    exists ((k, w) :: e'). constructor; [|done].
    split_and!; [done..|]. by apply dict_get_Some_elem. }
  exists e'. split.
  - apply submseteq_length_Permutation.
    + apply NoDup_submseteq.
      * apply (NoDup_fmap_1 fst).
        replace (e'.*1) with (d.*1); [done|].
        clear -He'. induction He' as [|x y l l' [Hk _] _ IH]; [done|].
        rewrite !fmap_cons. by f_equal.
      * intros kv' Hkv'.
        apply list_elem_of_lookup in Hkv' as [i Hi].
        destruct (Forall2_lookup_r _ _ _ _ _ He' Hi) as (kv & _ & _ & _ & ?).
        done.
    + apply Forall2_length in He'. lia.
  - eapply Forall2_impl; [exact He'|]. by intros ? ? (? & ? & _).
Qed.

Lemma py_eq_sym_true x : ∀ y,
  wf_value x = true → wf_value y = true →
  py_eq x y = true → py_eq y x = true.
Proof.
  induction x as [|b|n|s|xs IH|d IH] using value_ind_nested;
    intros [|b'|n'|s'|ys|e] Hx Hy; simpl; try done;
    try (by rewrite Z.eqb_sym); try (by rewrite String.eqb_sym).
  - change (list_eqb py_eq xs ys = true → list_eqb py_eq ys xs = true).
    rewrite !list_eqb_Forall2. intros H. apply Forall2_flip.
    apply wf_value_list in Hx, Hy.
    clear -IH Hx Hy H. induction H as [|x y xs ys Hxy _ IH'];
      [constructor|].
    apply Forall_cons in IH as [IHx IH].
    apply Forall_cons in Hx as [Hx Hxs].
    apply Forall_cons in Hy as [Hy Hys].
    constructor; [by apply IHx|by apply IH'].
  - change ((length d =? length e)%nat && items_in py_eq d e = true →
            (length e =? length d)%nat && items_in py_eq e d = true).
    intros [Hlen Hin]%andb_prop. apply Nat.eqb_eq in Hlen.
    apply wf_value_dict in Hx as [Hnd Hwd].
    apply wf_value_dict in Hy as [Hne Hwe].
    destruct (items_in_aligned py_eq d e Hnd Hne Hlen Hin) as (e' & Hp & Hal).
    apply andb_true_intro. split; [by apply Nat.eqb_eq|].
    unfold items_in. apply forallb_forall. intros kv' Hkv'.
    apply list_elem_of_In in Hkv'. rewrite <-Hp in Hkv'.
    apply list_elem_of_lookup in Hkv' as [i Hi].
    destruct (Forall2_lookup_r _ _ _ _ _ Hal Hi) as (kv & Hkv & Hk & Heq).
    apply list_elem_of_lookup_2 in Hkv as Hkvd.
    rewrite <-Hk. rewrite (dict_get_elem d kv.1 kv.2 Hnd) by by destruct kv.
    rewrite Forall_forall in IH. apply (IH kv Hkvd); [| |done].
    + rewrite Forall_forall in Hwd. by apply Hwd.
    + rewrite Forall_forall in Hwe. apply Hwe. rewrite <-Hp.
      by eapply list_elem_of_lookup_2.
Qed.

Lemma py_eq_sym x y :
  wf_value x = true → wf_value y = true → py_eq x y = py_eq y x.
Proof.
  intros Hx Hy.
  destruct (py_eq x y) eqn:Hxy, (py_eq y x) eqn:Hyx; try done.
  - apply py_eq_sym_true in Hxy; [congruence|done..].
  - apply py_eq_sym_true in Hyx; [congruence|done..].
Qed.

(** ** Sorting equal elements *)

Lemma canon_lt_equiv x x' y y' b :
  canon_equiv x x' → canon_equiv y y' →
  canon_lt x y = Ok b → canon_lt x' y' = Ok b.
Proof.
  intros Hx Hy Hlt. pose proof (canon_lt_ok_equiv x x' y y' Hx Hy) as Hok.
  rewrite Hlt in Hok. destruct (canon_lt x' y') as [b'|] eqn:H'; [|done].
  f_equal. apply canon_lt_cmp in Hlt, H'.
  rewrite <-(canon_cmp_equiv x x' y y') in H' by done. congruence.
Qed.

Lemma insert_sorted_equiv x x' l : ∀ m l',
  canon_equiv x x' → Forall2 canon_equiv l m →
  insert_sorted x l = Ok l' →
  ∃ m', insert_sorted x' m = Ok m' ∧ Forall2 canon_equiv l' m'.
Proof.
  induction l as [|y l IH]; intros m l' Hx Hlm Hins.
  - apply Forall2_nil_inv_l in Hlm as ->. simpl in *. injection Hins as <-.
    eexists. split; [done|]. by constructor.
  - apply Forall2_cons_inv_l in Hlm as (y' & m0 & Hy & Hlm & ->).
    simpl in *.
    destruct (canon_lt x y) as [b|] eqn:Hlt; simpl in Hins; [|done].
    rewrite (canon_lt_equiv x x' y y' b Hx Hy Hlt). simpl. destruct b.
    + injection Hins as <-. eexists. split; [done|].
      constructor; [done|]. by constructor.
    + destruct (insert_sorted x l) as [l0|] eqn:Hl; simpl in Hins; [|done].
      injection Hins as <-.
      destruct (IH m0 l0 Hx Hlm eq_refl) as (m' & -> & Hm').
      simpl. eexists. split; [done|]. by constructor.
Qed.

Lemma sorted_from_equiv l : ∀ m acc acc' s,
  Forall2 canon_equiv l m → Forall2 canon_equiv acc acc' →
  sorted_from acc l = Ok s →
  ∃ s', sorted_from acc' m = Ok s' ∧ Forall2 canon_equiv s s'.
Proof.
  induction l as [|x l IH]; intros m acc acc' s Hlm Hacc Hs.
  - apply Forall2_nil_inv_l in Hlm as ->. simpl in *. injection Hs as <-.
    eauto.
  - apply Forall2_cons_inv_l in Hlm as (x' & m0 & Hx & Hlm & ->).
    simpl in *.
    destruct (insert_sorted x acc) as [acc0|] eqn:Hins; simpl in Hs; [|done].
    destruct (insert_sorted_equiv x x' acc acc' acc0 Hx Hacc Hins)
      as (acc0' & -> & Hacc0).
    simpl. by eapply IH.
Qed.

Lemma sorted_elementwise_equiv l m s :
  Forall2 canon_equiv l m → sorted l = Ok s →
  ∃ s', sorted m = Ok s' ∧ Forall2 canon_equiv s s'.
Proof. intros Hlm. by apply sorted_from_equiv. Qed.

Lemma Forall2_equiv_CList s1 s2 :
  Forall2 canon_equiv s1 s2 → canon_equiv (CList s1) (CList s2).
Proof.
  intros H%Forall2_equiv_list_eqb. by apply canon_eq_equiv.
Qed.

(** Two values that are [==] have [==] canonical forms, when one of them
    has a canonical form at all. *)
Lemma py_eq_recursive_sort x : ∀ y cx,
  wf_value x = true → wf_value y = true → py_eq x y = true →
  _recursive_sort x = Ok cx →
  ∃ cy, _recursive_sort y = Ok cy ∧ canon_equiv cx cy.
Proof.
  induction x as [|b|n|s|xs IH|d IH] using value_ind_nested;
    intros [|b'|n'|s'|ys|e] cx Hx Hy; simpl py_eq; try done.
  - intros _ [= <-]. by eexists.
  - intros Heq [= <-]. eexists. split; [done|].
    unfold canon_equiv. simpl. by apply Z.eqb_eq, Z.compare_eq_iff in Heq.
  - intros Heq [= <-]. eexists. split; [done|].
    unfold canon_equiv. simpl. by apply Z.eqb_eq, Z.compare_eq_iff in Heq.
  - intros Heq [= <-]. eexists. split; [done|].
    unfold canon_equiv. simpl. by apply Z.eqb_eq, Z.compare_eq_iff in Heq.
  - intros Heq [= <-]. eexists. split; [done|].
    unfold canon_equiv. simpl. by apply Z.eqb_eq, Z.compare_eq_iff in Heq.
  - intros Heq%String.eqb_eq [= <-]. subst. eexists. split; [done|].
    apply canon_cmp_refl.
  - change (list_eqb py_eq xs ys = true →
            _recursive_sort (VList xs) = Ok cx →
            ∃ cy, _recursive_sort (VList ys) = Ok cy ∧ canon_equiv cx cy).
    rewrite list_eqb_Forall2, !recursive_sort_list. intros Hxy.
    destruct (comprehension _recursive_sort xs) as [cs|] eqn:Hcs; [|done].
    simpl. destruct (sorted cs) as [s|] eqn:Hs; [|done]. simpl.
    intros [= <-].
    apply wf_value_list in Hx, Hy. apply comprehension_ok in Hcs.
    destruct (comprehension_Forall2 _recursive_sort _recursive_sort xs ys)
      as (cs1 & cs' & Hcs1 & -> & Hequiv).
    { clear Hs. revert cs Hcs.
      induction Hxy as [|x y xs ys Hxy _ IH']; intros cs Hcs; [constructor|].
      apply Forall_cons in IH as [IHx IH].
      apply Forall_cons in Hx as [Hx Hxs].
      apply Forall_cons in Hy as [Hy Hys].
      apply Forall2_cons_inv_l in Hcs as (c & cs0 & Hc & Hcs & ->).
      constructor; [|by eapply IH'].
      destruct (IHx y c Hx Hy Hxy Hc) as (cy & ? & ?). by exists c, cy. }
    apply comprehension_ok in Hcs1.
    assert (cs1 = cs) as ->.
    { clear -Hcs Hcs1. revert cs1 Hcs1.
      induction Hcs as [|x c xs cs Hc _ IH']; intros cs1 Hcs1.
      - by apply Forall2_nil_inv_l in Hcs1.
      - apply Forall2_cons_inv_l in Hcs1 as (c' & cs0 & Hc' & Hcs0 & ->).
        f_equal; [congruence|by apply IH']. }
    simpl.
    destruct (sorted_elementwise_equiv cs cs' s Hequiv Hs) as (s' & -> & Hss).
    simpl. eexists. split; [done|]. by apply Forall2_equiv_CList.
  - change ((length d =? length e)%nat && items_in py_eq d e = true →
            _recursive_sort (VDict d) = Ok cx →
            ∃ cy, _recursive_sort (VDict e) = Ok cy ∧ canon_equiv cx cy).
    intros [Hlen Hin]%andb_prop. apply Nat.eqb_eq in Hlen.
    apply wf_value_dict in Hx as [Hnd Hwd].
    apply wf_value_dict in Hy as [Hne Hwe].
    destruct (items_in_aligned py_eq d e Hnd Hne Hlen Hin) as (e' & Hp & Hal).
    rewrite !recursive_sort_dict.
    set (item := λ kv : string * value,
                   v' ← _recursive_sort kv.2; Ok (CItem kv.1 v')).
    destruct (comprehension item d) as [items|] eqn:Hitems; [|done].
    simpl. destruct (sorted items) as [s|] eqn:Hs; [|done]. simpl.
    intros [= <-].
    destruct (comprehension_Forall2 item item d e')
      as (items1 & items' & Hitems1 & Hitems' & Hequiv).
    { assert (Forall (λ kv : string * value, wf_value kv.2 = true) e') as Hwe'.
      { rewrite Forall_forall in Hwe |- *. intros kv Hkv. apply Hwe.
        by rewrite <-Hp. }
      apply comprehension_ok in Hitems. clear Hs Hp Hnd Hlen Hin.
      revert items Hitems.
      induction Hal as [|kv kv' d0 e0 [Hk Heq] _ IH'];
        intros items Hitems; [constructor|].
      apply Forall_cons in IH as [IHx IH].
      apply Forall_cons in Hwd as [Hx Hwd].
      apply Forall_cons in Hwe' as [Hy Hwe'].
      apply Forall2_cons_inv_l in Hitems as (c & cs0 & Hc & Hcs & ->).
      constructor; [|by eapply IH'].
      unfold item in Hc |- *.
      destruct (_recursive_sort kv.2) as [cv|] eqn:Hcv; [|done].
      simpl in Hc. injection Hc as <-.
      destruct (IHx kv'.2 cv Hx Hy Heq eq_refl) as (cv' & -> & Hcv').
      simpl. eexists _, _. split_and!; [done..|].
      unfold canon_equiv. simpl. rewrite Hk.
      by rewrite (proj1 (string_cmp_laws kv'.1)). }
    rewrite Hitems in Hitems1. injection Hitems1 as <-.
    destruct (comprehension_perm item e' e Hp items' Hitems')
      as (items'' & Hitems'' & Hp').
    rewrite Hitems''. simpl.
    destruct (sorted_equiv items items' items'') as (s1 & s2 & Hs1 & -> & Heq);
      [..|done|done|].
    + eapply dict_items_comparable; [exact Hnd|]. by apply dict_items_keys.
    + eapply dict_items_comparable; [exact Hne|]. by apply dict_items_keys.
    + rewrite Hs in Hs1. injection Hs1 as <-. simpl. eauto.
Qed.

(** X15.  The shallow comparison does not depend on the side: on values
    whose dicts have distinct keys, [_attr_shallow_eq(a, b, key)] is
    [_attr_shallow_eq(b, a, key)]. *)
Theorem attr_shallow_eq_symmetric
    (a b : list (string * value)) (attr_key : string) :
  (∀ v, dict_get attr_key a = Some v → wf_value v = true) →
  (∀ v, dict_get attr_key b = Some v → wf_value v = true) →
  _attr_shallow_eq a b attr_key = _attr_shallow_eq b a attr_key.
Proof.
  intros Ha Hb. unfold _attr_shallow_eq.
  destruct (dict_get attr_key a) as [va|], (dict_get attr_key b) as [vb|];
    try done.
  apply py_eq_sym; auto.
Qed.

Lemma attr_shallow_eq_symmetric_witness :
  let a := [("dataSource", VDict [("server", VStr "a"); ("version", VInt 1)])] in
  let b := [("dataSource", VDict [("version", VBool true); ("server", VStr "a")])] in
  _attr_shallow_eq a b "dataSource" = true
  ∧ _attr_shallow_eq b a "dataSource" = true.
Proof.
  intros a b.
  assert (_attr_shallow_eq a b "dataSource" = _attr_shallow_eq b a "dataSource")
    as H.
  { apply (attr_shallow_eq_symmetric a b "dataSource");
      intros v [= <-]; by vm_compute. }
  split; [by vm_compute|]. rewrite <-H. by vm_compute.
Defined.

(** X16.  A field that is equal under the shallow comparison is equal
    under the deep one: for values whose dicts have distinct keys, when
    [_attr_shallow_eq] is true and one of the two values has a canonical
    form, [_attr_deep_eq] is true as well. *)
Theorem shallow_equal_is_deep_equal
    (a b : list (string * value)) (attr_key : string) (va vb : value) :
  dict_get attr_key a = Some va → dict_get attr_key b = Some vb →
  wf_value va = true → wf_value vb = true →
  _attr_shallow_eq a b attr_key = true →
  is_ok (_recursive_sort va) = true ∨ is_ok (_recursive_sort vb) = true →
  _attr_deep_eq a b attr_key = Ok true.
Proof.
  intros Ha Hb Hwa Hwb Hsh Hok.
  rewrite (attr_deep_eq_canonical a b attr_key va vb Ha Hb).
  unfold _attr_shallow_eq in Hsh. rewrite Ha, Hb in Hsh.
  apply canonical_eq_true. destruct Hok as [Hok|Hok].
  - destruct (_recursive_sort va) as [ca|] eqn:Hca; [|done].
    rewrite py_eq_sym in Hsh by done.
    destruct (py_eq_recursive_sort va vb ca Hwa Hwb Hsh Hca) as (cb & Hcb & He).
    exists ca, cb. split_and!; [done..|]. by apply canon_eq_equiv.
  - destruct (_recursive_sort vb) as [cb|] eqn:Hcb; [|done].
    destruct (py_eq_recursive_sort vb va cb Hwb Hwa Hsh Hcb) as (ca & Hca & He).
    exists ca, cb. split_and!; [done..|].
    apply canon_eq_equiv. by symmetry.
Qed.

Lemma shallow_equal_is_deep_equal_witness :
  let a := [("dataSource", VDict [("server", VStr "a"); ("version", VInt 1)])] in
  let b := [("dataSource", VDict [("version", VBool true); ("server", VStr "a")])] in
  _attr_deep_eq a b "dataSource" = Ok true.
Proof.
  intros a b.
  apply (shallow_equal_is_deep_equal a b "dataSource"
           (VDict [("server", VStr "a"); ("version", VInt 1)])
           (VDict [("version", VBool true); ("server", VStr "a")]));
    try reflexivity.
  left. by vm_compute.
Defined.

(** ** Map frames: what the diff holds *)

Lemma map_fmap {A B} (f : A → B) (l : list A) : map f l = f <$> l.
Proof. induction l as [|x l IH]; [done|]. simpl. by rewrite IH. Qed.

Lemma zip_longest_lookup_new {A B} (xs : list A) (ys : list B) i y :
  (length xs ≤ i)%nat → ys !! i = Some y →
  zip_longest xs ys !! i = Some (None, Some y).
Proof.
  revert ys i. induction xs as [|x xs IH]; intros ys i Hi Hy.
  - change (zip_longest [] ys) with (map (λ y, (@None A, Some y)) ys).
    by rewrite map_fmap, list_lookup_fmap, Hy.
  - destruct ys as [|y' ys]; [done|]. destruct i as [|i]; simpl in *; [lia|].
    apply IH; [lia|done].
Qed.

Lemma zip_longest_both {A B} (xs : list A) (ys : list B) p :
  (length xs ≤ length ys)%nat → p ∈ zip_longest xs ys → is_Some p.2.
Proof.
  revert ys. induction xs as [|x xs IH]; intros ys Hlen Hp.
  - change (zip_longest [] ys) with (map (λ y, (@None A, Some y)) ys) in Hp.
    rewrite map_fmap in Hp.
    apply list_elem_of_fmap in Hp as (y & -> & _). by eexists.
  - destruct ys as [|y ys]; simpl in *; [lia|].
    apply elem_of_cons in Hp as [->|Hp]; [by eexists|].
    apply (IH ys); [lia|done].
Qed.

Section frame_diff.
Context {D : Type}.
Variable DocumentChangeTypes_compare :
  Description → Description → result (list D).
Variable MapChangeTypes_compare : Frame → option Frame → result (list D).
Variable LayerChangeTypes_compare : Layer → Layer → result (list D).
Variable sd : Layer → Layer → bool.

(** What a matched pair adds to [updated]. *)
Local Abbreviation update_of :=
  (λ p : Layer * Layer,
     match LayerChangeTypes_compare p.1 p.2 with
     | Ok d => if (0 <? length d)%nat then Some (p.2, d) else None
     | Raise _ => None
     end).

Lemma collect_updated_spec matched : ∀ acc r,
  collect_updated LayerChangeTypes_compare matched acc = Ok r ↔
  (∀ p, p ∈ matched → is_ok (LayerChangeTypes_compare p.1 p.2) = true)
  ∧ r = acc ++ omap update_of matched.
Proof.
  induction matched as [|[w n] l IH]; intros acc r.
  - simpl. rewrite app_nil_r. split.
    + intros [= <-]. split; [|done]. intros p Hp. by apply elem_of_nil in Hp.
    + by intros [_ ->].
  - cbn [collect_updated]. rewrite omap_cons_list. cbn [fst snd].
    destruct (LayerChangeTypes_compare w n) as [d|e] eqn:Hd; simpl.
    + destruct (0 <? length d)%nat; rewrite IH; simpl.
      * rewrite <-app_assoc. split; intros [Hall ->]; (split; [|done]).
        -- intros p [->|Hp]%elem_of_cons; [simpl; by rewrite Hd|by apply Hall].
        -- intros p Hp. apply Hall. by right.
      * split; intros [Hall ->]; (split; [|done]).
        -- intros p [->|Hp]%elem_of_cons; [simpl; by rewrite Hd|by apply Hall].
        -- intros p Hp. apply Hall. by right.
    + split; [done|]. intros [Hall _]. specialize (Hall (w, n) ltac:(left)).
      simpl in Hall. by rewrite Hd in Hall.
Qed.

Lemma compare_map_frames_ok was_frame now_frame :
  (∀ f g, is_ok (MapChangeTypes_compare f g) = true) →
  (∀ w n, is_ok (LayerChangeTypes_compare w n) = true) →
  is_ok (_compare_map_frames MapChangeTypes_compare LayerChangeTypes_compare
           sd was_frame (Some now_frame)) = true.
Proof.
  intros Hmap Hlayer. destruct was_frame as [was|]; [|done]. simpl.
  specialize (Hmap was (Some now_frame)).
  destruct (MapChangeTypes_compare was (Some now_frame)) as [d|]; [|done].
  simpl.
  destruct (_match_layers sd (layers was) (layers now_frame))
    as [[add mat] rem].
  destruct (collect_updated LayerChangeTypes_compare mat []) as [u|e] eqn:Hu;
    [done|].
  exfalso.
  assert (∃ r, collect_updated LayerChangeTypes_compare mat [] = Ok r)
    as [r Hr]; [|congruence].
  eexists. apply collect_updated_spec. split; [|done]. auto.
Qed.
End frame_diff.

(** X17.  When the new description has at least as many frames as the old
    one and the change-type comparisons return, [compare] returns one frame
    diff for each frame of the new description, and the diff of a frame
    that only the new description has is empty. *)
Theorem compare_one_diff_per_new_frame {D : Type}
    (doc_compare : Description → Description → result (list D))
    (map_compare : Frame → option Frame → result (list D))
    (layer_compare : Layer → Layer → result (list D))
    (sd : Layer → Layer → bool) (was_description now_description : Description) :
  (length (maps was_description) ≤ length (maps now_description))%nat →
  is_ok (doc_compare was_description now_description) = true →
  (∀ f g, is_ok (map_compare f g) = true) →
  (∀ w n, is_ok (layer_compare w n) = true) →
  ∃ r, compare doc_compare map_compare layer_compare sd
         was_description now_description = Ok r
       ∧ length (maps_diff r) = length (maps now_description)
       ∧ ∀ i, (length (maps was_description) ≤ i
               < length (maps now_description))%nat →
              maps_diff r !! i
              = Some (mkMapDifferences [] (mkLayerDifferences [] [] []) []).
Proof.
  intros Hlen Hdoc Hmap Hlayer. unfold compare.
  destruct (doc_compare was_description now_description) as [d|]; [|done].
  simpl.
  destruct (comprehension_all_ok
              (λ p, _compare_map_frames map_compare layer_compare sd p.1 p.2)
              (zip_longest (maps was_description) (maps now_description)))
    as [ms Hms].
  { intros p Hp. destruct (zip_longest_both _ _ p Hlen Hp) as [now_frame Hn].
    rewrite Hn. by apply compare_map_frames_ok. }
  rewrite Hms. simpl. eexists. split; [done|]. simpl.
  apply comprehension_ok in Hms as Hall. split.
  - apply Forall2_length in Hall. rewrite <-Hall, zip_longest_length. lia.
  - intros i [Hi1 Hi2].
    destruct (lookup_lt_is_Some_2 (maps now_description) i Hi2) as [f Hf].
    pose proof (zip_longest_lookup_new _ _ i f Hi1 Hf) as Hz.
    destruct (Forall2_lookup_l _ _ _ _ _ Hall Hz) as (m & -> & Hm).
    simpl in Hm. by injection Hm as <-.
Qed.

Lemma compare_one_diff_per_new_frame_witness :
  let frame := mkFrame [("name", VStr "Layers")] [layer_of 0 1 "Roads" "C:\Data"] in
  let fields := [("name", Shallow)] in
  ∃ r, compare (λ _ _, Ok []) (λ _ _, Ok []) (layer_diff_model fields)
         same_datasource_model
         (mkDescription [] [frame]) (mkDescription [] [frame; frame]) = Ok r
       ∧ length (maps_diff r) = 2%nat
       ∧ ∀ i, (1 ≤ i < 2)%nat →
              maps_diff r !! i
              = Some (mkMapDifferences [] (mkLayerDifferences [] [] []) []).
Proof.
  intros frame fields.
  apply (compare_one_diff_per_new_frame (λ _ _, Ok []) (λ _ _, Ok [])
           (layer_diff_model fields) same_datasource_model
           (mkDescription [] [frame]) (mkDescription [] [frame; frame])).
  - simpl. lia.
  - done.
  - done.
  - intros w n. unfold layer_diff_model. simpl. unfold field_changed.
    destruct (dict_get "name" (attrs w)), (dict_get "name" (attrs n));
      simpl; try done;
      by destruct (negb (_attr_shallow_eq (attrs w) (attrs n) "name")).
Defined.

(** X18.  The frame diff of two frames: [added] and [removed] are those of
    the reconciler, [updated] holds exactly the new layers of the matched
    pairs whose field diff is not empty, each with that diff and in the
    order of the pairs, and [tables] is always empty: the tables of the two
    frames are not compared. *)
Theorem compare_map_frames_buckets {D : Type}
    (map_compare : Frame → option Frame → result (list D))
    (layer_compare : Layer → Layer → result (list D))
    (sd : Layer → Layer → bool) (was_frame now_frame : Frame)
    (r : MapDifferences) :
  _compare_map_frames map_compare layer_compare sd
    (Some was_frame) (Some now_frame) = Ok r →
  let '(added', matched, removed') :=
    _match_layers sd (layers was_frame) (layers now_frame) in
  map_compare was_frame (Some now_frame) = Ok (map_diff r)
  ∧ added (layer_diff r) = added'
  ∧ removed (layer_diff r) = removed'
  ∧ table_diff r = []
  ∧ (updated (layer_diff r)).*1 `sublist_of` matched.*2
  ∧ ∀ n d, (n, d) ∈ updated (layer_diff r) ↔
           ∃ w, (w, n) ∈ matched ∧ layer_compare w n = Ok d ∧ d ≠ [].
Proof.
  unfold _compare_map_frames.
  destruct (map_compare was_frame (Some now_frame)) as [md|]; [|done]. simpl.
  destruct (_match_layers sd (layers was_frame) (layers now_frame))
    as [[add mat] rem].
  destruct (collect_updated layer_compare mat []) as [u|] eqn:Hu; [|done].
  simpl. intros [= <-]. simpl.
  apply collect_updated_spec in Hu as [Hall ->]. simpl.
  split_and!; [done..| |].
  - clear Hall. induction mat as [|[w n] l IH]; [done|].
    rewrite omap_cons_list, fmap_app, fmap_cons. simpl.
    destruct (layer_compare w n) as [d|]; [destruct (0 <? length d)%nat|];
      simpl; by constructor.
  - intros n d. rewrite list_elem_of_omap. split.
    + intros ([w n'] & Hp & Hd). simpl in Hd.
      destruct (layer_compare w n') as [d'|] eqn:Hd'; [|done].
      destruct (0 <? length d')%nat eqn:Hlen; [|done].
      injection Hd as -> ->. exists w. split_and!; [done..|].
      intros ->. by simpl in Hlen.
    + intros (w & Hp & Hd & Hne). exists (w, n). split; [done|]. simpl.
      rewrite Hd. by destruct d.
Qed.

Lemma compare_map_frames_buckets_witness :
  let was_frame :=
    mkFrame [] [layer_of 0 1 "Roads" "C:\Data"; layer_of 1 2 "Rivers" "C:\Data"] in
  let now_frame :=
    mkFrame [] [layer_of 0 1 "Roads" "C:\Data"; layer_of 1 2 "Streams" "C:\Data"] in
  let fields := [("name", Shallow); ("dataSource", Deep)] in
  ∃ r, _compare_map_frames (λ _ _, Ok []) (layer_diff_model fields)
         same_datasource_model (Some was_frame) (Some now_frame) = Ok r
       ∧ table_diff r = []
       ∧ ∀ n d, (n, d) ∈ updated (layer_diff r) →
                n = layer_of 1 2 "Streams" "C:\Data".
Proof.
  intros was_frame now_frame fields.
  destruct (_compare_map_frames (λ _ _, Ok []) (layer_diff_model fields)
              same_datasource_model (Some was_frame) (Some now_frame))
    as [r|] eqn:Hr; [|by vm_compute in Hr].
  exists r. split; [done|].
  pose proof (compare_map_frames_buckets (λ _ _, Ok [])
                (layer_diff_model fields) same_datasource_model
                was_frame now_frame r Hr) as H.
  vm_compute _match_layers in H.
  destruct H as (_ & _ & _ & Ht & _ & Hu). split; [done|].
  intros n d (w & Hp & Hd & Hne)%Hu.
  repeat (apply elem_of_cons in Hp as [[= -> ->]|Hp]).
  - by vm_compute in Hd; injection Hd as <-.
  - done.
  - by apply elem_of_nil in Hp.
Defined.

(** ** Template matching: the list of replacements *)

Lemma comprehension_raise_all {A B} (f : A → result B) l x (err : PyError) :
  x ∈ l → is_ok (f x) = false →
  (∀ y e, y ∈ l → f y = Raise e → e = err) →
  comprehension f l = Raise err.
Proof.
  intros Hx Hfx Herr.
  destruct (comprehension f l) as [r|e] eqn:Hc.
  - apply comprehension_ok in Hc.
    apply list_elem_of_lookup in Hx as [i Hi].
    destruct (Forall2_lookup_l _ _ _ _ _ Hc Hi) as (y & _ & Hy).
    by rewrite Hy in Hfx.
  - apply comprehension_raise_elem in Hc as (y & Hy & Hr).
    f_equal. by eapply Herr.
Qed.

Lemma comprehension_const {A B} (f : A → result B) (b : B) l :
  (∀ x, x ∈ l → f x = Ok b) → comprehension f l = Ok (map (λ _, b) l).
Proof.
  induction l as [|x l IH]; intros Hf; [done|].
  rewrite comprehension_cons, Hf by left. simpl.
  rewrite IH; [done|]. intros y Hy. apply Hf. by right.
Qed.

Section replacement_facts.
Variable lowercase_dict : list (string * value) → list (string * value).
Variable tokenise_datasource : value → option Tokens.
Variable py_str : value → string.

Local Abbreviation match_new :=
  (match_new_data_source lowercase_dict tokenise_datasource py_str).
Local Abbreviation replace :=
  (replace_frame lowercase_dict tokenise_datasource py_str).

Lemma match_new_not_processed template_sets flag l :
  processed l = false → match_new template_sets flag l = Ok None.
Proof.
  destruct l as [layer|]; [|done]. simpl.
  by destruct (group_layer_without_data layer).
Qed.

Lemma match_new_no_templates flag l :
  match_new [] flag l
  = if flag && processed l then Raise no_match_error else Ok None.
Proof.
  destruct l as [layer|]; simpl; [|by rewrite andb_false_r].
  destruct (group_layer_without_data layer); simpl;
    [by rewrite andb_false_r|by rewrite andb_true_r].
Qed.

Lemma comprehension_no_templates flag ls :
  comprehension (match_new [] flag) ls
  = if flag && existsb processed ls then Raise no_match_error
    else Ok (map (λ _, None) ls).
Proof.
  induction ls as [|l ls IH]; [by rewrite andb_false_r|].
  rewrite comprehension_cons, match_new_no_templates, IH.
  destruct flag; [|done]. cbn [andb existsb].
  destruct (processed l); [done|]. simpl.
  by destruct (existsb processed ls).
Qed.

Lemma replace_frame_no_templates flag df :
  replace [] flag df
  = if flag && existsb processed (df_layers df ++ df_tables df)
    then Raise no_match_error else Ok (no_replacements df).
Proof.
  unfold replace_frame. rewrite !comprehension_no_templates, existsb_app.
  destruct flag; [|done]. cbn [andb].
  destruct (existsb processed (df_layers df)); [done|]. simpl.
  by destruct (existsb processed (df_tables df)).
Qed.

(** The flag plays no part in a result that is returned. *)
Lemma match_new_flag template_sets l o :
  match_new template_sets true l = Ok o →
  match_new template_sets false l = Ok o.
Proof.
  destruct l as [layer|]; [|done]. simpl.
  destruct (group_layer_without_data layer); [done|].
  destruct (scan_templates _ _ _ template_sets layer) as [[c|]|]; by simpl.
Qed.

Lemma comprehension_flag template_sets ls r :
  comprehension (match_new template_sets true) ls = Ok r →
  comprehension (match_new template_sets false) ls = Ok r.
Proof.
  rewrite !comprehension_ok. intros H.
  eapply Forall2_impl; [exact H|]. intros l o. apply match_new_flag.
Qed.
End replacement_facts.

(** X19.  The list of replacements lines up with the description: one
    entry for each frame, in it one replacement for each layer and one for
    each table, each the matcher's result for the layer or table at its
    position, so that a layer that could not be described or is a group
    layer without data has [None] there. *)
Theorem replacements_line_up_with_the_description
    (lowercase_dict : list (string * value) → list (string * value))
    (tokenise_datasource : value → option Tokens) (py_str : value → string)
    (map_desc : list DataFrame) (data_source_templates : list Template)
    (flag : bool) (rs : list Replacements) :
  create_replacement_data_sources_list lowercase_dict tokenise_datasource
    py_str map_desc data_source_templates flag = Ok rs →
  ∃ template_sets,
    comprehension (template_set lowercase_dict) data_source_templates
    = Ok template_sets
    ∧ length rs = length map_desc
    ∧ ∀ i df r, map_desc !! i = Some df → rs !! i = Some r →
        length (new_layers r) = length (df_layers df)
        ∧ length (new_tables r) = length (df_tables df)
        ∧ (∀ j l o, df_layers df !! j = Some l → new_layers r !! j = Some o →
             match_new_data_source lowercase_dict tokenise_datasource py_str
               template_sets flag l = Ok o
             ∧ (processed l = false → o = None))
        ∧ (∀ j t o, df_tables df !! j = Some t → new_tables r !! j = Some o →
             match_new_data_source lowercase_dict tokenise_datasource py_str
               template_sets flag t = Ok o
             ∧ (processed t = false → o = None)).
Proof.
  unfold create_replacement_data_sources_list.
  destruct (comprehension (template_set lowercase_dict) data_source_templates)
    as [template_sets|]; [|done].
  simpl. intros Hrs%comprehension_ok. exists template_sets.
  split; [done|]. split; [symmetry; by eapply Forall2_length|].
  intros i df r Hdf Hr.
  destruct (Forall2_lookup_l _ _ _ _ _ Hrs Hdf) as (r' & Hr' & Hf).
  rewrite Hr in Hr'. injection Hr' as <-. unfold replace_frame in Hf.
  destruct (comprehension _ (df_layers df)) as [ls|] eqn:Hls; [|done].
  destruct (comprehension _ (df_tables df)) as [ts|] eqn:Hts; [|done].
  simpl in Hf. injection Hf as <-. simpl.
  apply comprehension_ok in Hls, Hts.
  assert (∀ xs os,
    Forall2 (λ x y, match_new_data_source lowercase_dict tokenise_datasource
                      py_str template_sets flag x = Ok y) xs os →
    ∀ j l o, xs !! j = Some l → os !! j = Some o →
      match_new_data_source lowercase_dict tokenise_datasource py_str
        template_sets flag l = Ok o
      ∧ (processed l = false → o = None)) as Hpos.
  { intros xs os HF j l o Hl Ho.
    destruct (Forall2_lookup_l _ _ _ _ _ HF Hl) as (o' & Ho' & Hm).
    rewrite Ho in Ho'. injection Ho' as <-. split; [done|].
    intros Hp. rewrite match_new_not_processed in Hm by done. congruence. }
  split_and!.
  - symmetry. by eapply Forall2_length.
  - symmetry. by eapply Forall2_length.
  - by apply Hpos.
  - by apply Hpos.
Qed.

Lemma replacements_line_up_with_the_description_witness :
  let roads := feature_layer "Roads" (roads_tokens None None) in
  let map_desc := [mkDataFrame [None; Some roads] [Some roads]] in
  ∃ rs, create_replacement_data_sources_list lowercase_dict_model
          tokens_of_fields str_of_scalar map_desc [scale_template_source] false
        = Ok rs
        ∧ length rs = 1%nat
        ∧ ∀ r, rs !! 0%nat = Some r →
               length (new_layers r) = 2%nat ∧ length (new_tables r) = 1%nat
               ∧ new_layers r !! 0%nat = Some None.
Proof.
  intros roads map_desc.
  destruct (create_replacement_data_sources_list lowercase_dict_model
              tokens_of_fields str_of_scalar map_desc [scale_template_source]
              false) as [rs|] eqn:Hrs; [|by vm_compute in Hrs].
  exists rs. split; [done|].
  destruct (replacements_line_up_with_the_description _ _ _ _ _ _ _ Hrs)
    as (ts & _ & Hlen & Hpos).
  split; [done|]. intros r Hr.
  destruct (Hpos 0%nat _ r eq_refl Hr) as (Hl & Ht & Hls & _).
  split_and!; [done..|].
  destruct (new_layers r) as [|o os] eqn:Ho; [done|].
  destruct (Hls 0%nat None o eq_refl eq_refl) as [_ ->]; done.
Defined.

(** X20.  Without templates nothing is replaced: every entry is [None],
    unless the flag is set and some frame has a layer or table that the
    matcher does not skip, and then the call raises the no-match error. *)
Theorem no_templates_no_replacements
    (lowercase_dict : list (string * value) → list (string * value))
    (tokenise_datasource : value → option Tokens) (py_str : value → string)
    (map_desc : list DataFrame) (flag : bool) :
  create_replacement_data_sources_list lowercase_dict tokenise_datasource
    py_str map_desc [] flag
  = if flag && existsb (λ df, existsb processed (df_layers df ++ df_tables df))
                 map_desc
    then Raise no_match_error
    else Ok (map no_replacements map_desc).
Proof.
  unfold create_replacement_data_sources_list. simpl.
  induction map_desc as [|df l IH]; [by rewrite andb_false_r|].
  rewrite comprehension_cons, replace_frame_no_templates, IH.
  destruct flag; [|done]. cbn [andb existsb].
  destruct (existsb processed (df_layers df ++ df_tables df)); [done|]. simpl.
  by destruct (existsb _ l).
Qed.

(** X21.  Setting [raise_exception_no_change] never changes a list of
    replacements that is returned: when the call returns with the flag set,
    it returns the same list without it. *)
Theorem flag_changes_no_returned_result
    (lowercase_dict : list (string * value) → list (string * value))
    (tokenise_datasource : value → option Tokens) (py_str : value → string)
    (map_desc : list DataFrame) (data_source_templates : list Template)
    (rs : list Replacements) :
  create_replacement_data_sources_list lowercase_dict tokenise_datasource
    py_str map_desc data_source_templates true = Ok rs →
  create_replacement_data_sources_list lowercase_dict tokenise_datasource
    py_str map_desc data_source_templates false = Ok rs.
Proof.
  unfold create_replacement_data_sources_list.
  destruct (comprehension (template_set lowercase_dict) data_source_templates)
    as [template_sets|]; [|done].
  simpl. rewrite !comprehension_ok. intros H.
  eapply Forall2_impl; [exact H|]. intros df r. unfold replace_frame.
  destruct (comprehension _ (df_layers df)) as [ls|] eqn:Hls; [|done].
  rewrite (comprehension_flag _ _ _ _ _ _ Hls). simpl.
  destruct (comprehension _ (df_tables df)) as [ts|] eqn:Hts; [|done].
  by rewrite (comprehension_flag _ _ _ _ _ _ Hts).
Qed.

Lemma flag_changes_no_returned_result_witness :
  let roads := feature_layer "Roads" (roads_tokens None None) in
  let rs := [mkReplacements [None; Some [("workspacePath", VStr "C:\Other")]] []] in
  let map_desc := [mkDataFrame [None; Some (("scale", VInt 10) :: roads)] []] in
  create_replacement_data_sources_list lowercase_dict_model tokens_of_fields
    str_of_scalar map_desc [scale_template_source] false = Ok rs.
Proof.
  intros roads rs map_desc.
  apply (flag_changes_no_returned_result lowercase_dict_model tokens_of_fields
           str_of_scalar map_desc [scale_template_source] rs).
  by vm_compute.
Defined.

(** X22.  A template whose criteria set is empty matches every layer: for
    a layer the matcher does not skip, the templates after it are never
    used and the no-match error is never raised. *)
Theorem template_without_criteria_matches_every_layer
    (lowercase_dict : list (string * value) → list (string * value))
    (tokenise_datasource : value → option Tokens) (py_str : value → string)
    (template : TemplateSet) (rest : list TemplateSet) (flag : bool)
    (layer : list (string * value)) :
  criteria template = [] →
  template_matches lowercase_dict template layer = true
  ∧ (group_layer_without_data layer = false →
     match_new_data_source lowercase_dict tokenise_datasource py_str
       (template :: rest) flag (Some layer)
     = Some <$> infer_workspace tokenise_datasource py_str template layer
                  (ts_dataSource template)
     ∧ match_new_data_source lowercase_dict tokenise_datasource py_str
         (template :: rest) flag (Some layer) ≠ Raise no_match_error).
Proof.
  intros Hc.
  assert (template_matches lowercase_dict template layer = true) as Ht
    by (unfold template_matches; by rewrite Hc).
  split; [done|]. intros Hg.
  pose proof (match_new_first lowercase_dict tokenise_datasource py_str
                [] template rest flag layer Hg) as Hfirst.
  simpl in Hfirst. split.
  - apply Hfirst; [|done]. intros t Hin. by apply elem_of_nil in Hin.
  - intros Hraise.
    apply (match_new_raise_iff lowercase_dict tokenise_datasource py_str
             (template :: rest) flag layer Hg) in Hraise as [_ Hnone].
    specialize (Hnone template ltac:(left)). congruence.
Qed.

Lemma template_without_criteria_matches_every_layer_witness :
  let template := mkTemplateSet [] [("workspacePath", VStr "C:\Any")] None in
  let layer := [("name", VStr "Roads")] in
  match_new_data_source lowercase_dict_model tokens_of_fields str_of_scalar
    [template; plain_template] true (Some layer)
  = Ok (Some [("workspacePath", VStr "C:\Any")]).
Proof.
  intros template layer.
  destruct (template_without_criteria_matches_every_layer lowercase_dict_model
              tokens_of_fields str_of_scalar template [plain_template] true
              layer eq_refl) as [_ H].
  destruct (H eq_refl) as [-> _]. by vm_compute.
Defined.

(** X23.  A criteria value that is a list or a dict, after
    [lowercase_dict], cannot be put into the criteria set: the call raises
    [TypeError] for any description, also one without frames, and with or
    without the flag. *)
Theorem unhashable_criterion_raises
    (lowercase_dict : list (string * value) → list (string * value))
    (tokenise_datasource : value → option Tokens) (py_str : value → string)
    (map_desc : list DataFrame) (data_source_templates : list Template)
    (flag : bool) (template : Template) (key : string) (v : value) :
  template ∈ data_source_templates →
  (key, v) ∈ lowercase_dict (matchCriteria template) →
  is_scalar v = false →
  create_replacement_data_sources_list lowercase_dict tokenise_datasource
    py_str map_desc data_source_templates flag = Raise TypeError.
Proof.
  intros Ht Hkv Hv. unfold create_replacement_data_sources_list.
  assert (∀ kv : string * value,
            ∀ e, (f ← hashable kv.2; Ok (kv.1, f)) = Raise e → e = TypeError)
    as Hhash.
  { intros [k w] e. by destruct w; simpl; intros [= <-]. }
  rewrite (comprehension_raise_all (template_set lowercase_dict)
             data_source_templates template TypeError); [done..| |].
  - unfold template_set.
    rewrite (comprehension_raise_all _ (lowercase_dict (matchCriteria template))
               (key, v) TypeError); [done|done| |].
    + by destruct v.
    + intros kv e _. apply Hhash.
  - intros t e _. unfold template_set.
    destruct (comprehension _ (lowercase_dict (matchCriteria t)))
      as [items|e'] eqn:Hc; [done|].
    simpl. intros [= <-].
    apply comprehension_raise_elem in Hc as (kv & _ & Hr). by eapply Hhash.
Qed.

Lemma unhashable_criterion_raises_witness :
  create_replacement_data_sources_list lowercase_dict_model tokens_of_fields
    str_of_scalar []
    [scale_template_source;
     mkTemplate [("dataSource", VDict [("server", VStr "a")])] [] None] true
  = Raise TypeError.
Proof.
  apply (unhashable_criterion_raises lowercase_dict_model tokens_of_fields
           str_of_scalar [] _ true
           (mkTemplate [("dataSource", VDict [("server", VStr "a")])] [] None)
           "datasource" (VDict [("server", VStr "a")])).
  - right. left.
  - vm_compute. left.
  - done.
Defined.

(** X24.  The keys the workspace-container step needs: when the first
    matching template is a workspace container, a layer without a
    [dataSource] key makes the matcher raise [KeyError], and so does a
    template [dataSource] without [workspacePath] when the layer's data
    source tokenizes -- with or without the flag. *)
Theorem workspace_container_needs_its_keys
    (lowercase_dict : list (string * value) → list (string * value))
    (tokenise_datasource : value → option Tokens) (py_str : value → string)
    (pre post : list TemplateSet) (template : TemplateSet) (flag : bool)
    (layer : list (string * value)) :
  group_layer_without_data layer = false →
  (∀ t, t ∈ pre → template_matches lowercase_dict t layer = false) →
  template_matches lowercase_dict template layer = true →
  is_workspace_container (ts_matchOptions template) = true →
  let result :=
    match_new_data_source lowercase_dict tokenise_datasource py_str
      (pre ++ template :: post) flag (Some layer) in
  (dict_get "dataSource" layer = None → result = Raise (KeyError "dataSource"))
  ∧ (∀ ds tokens,
       dict_get "dataSource" layer = Some ds →
       tokenise_datasource ds = Some tokens →
       dict_get "workspacePath" (ts_dataSource template) = None →
       result = Raise (KeyError "workspacePath")).
Proof.
  intros Hg Hpre Ht Hc result. unfold result.
  rewrite (match_new_first _ _ _ pre template post flag layer Hg Hpre Ht).
  unfold infer_workspace, dict_item. rewrite Hc. split.
  - by intros ->.
  - intros ds tokens -> Htok Hwp. simpl. by rewrite Htok, Hwp.
Qed.

Lemma workspace_container_needs_its_keys_witness :
  let template :=
    mkTemplateSet [] [("server", VStr "a")]
      (Some [("isWorkspaceContainer", VBool true)]) in
  let match_new :=
    match_new_data_source lowercase_dict_model tokens_of_fields str_of_scalar
      [template] false in
  match_new (Some [("name", VStr "Roads")]) = Raise (KeyError "dataSource")
  ∧ match_new (Some (feature_layer "Roads" (roads_tokens None None)))
    = Raise (KeyError "workspacePath").
Proof.
  intros template match_new. split.
  - apply (workspace_container_needs_its_keys lowercase_dict_model
             tokens_of_fields str_of_scalar [] [] template false
             [("name", VStr "Roads")]); try done.
    intros t Hin. by apply elem_of_nil in Hin.
  - eapply (workspace_container_needs_its_keys lowercase_dict_model
              tokens_of_fields str_of_scalar [] [] template false
              (feature_layer "Roads" (roads_tokens None None))); try done.
    intros t Hin. by apply elem_of_nil in Hin.
Defined.

(** ** Changing data sources *)

Lemma zip_longest_all_right {A B} (P : B → Prop) (xs : list A) (ys : list B) :
  Forall (λ p, ∃ y, p.2 = Some y ∧ P y) (zip_longest xs ys) →
  (length xs ≤ length ys)%nat ∧ Forall P ys.
Proof.
  revert ys. induction xs as [|x xs IH]; intros ys.
  - change (zip_longest [] ys) with (map (λ y, (@None A, Some y)) ys).
    rewrite map_fmap. intros H. split; [simpl; lia|].
    apply Forall_forall. intros y Hy.
    pose proof (proj1 (Forall_forall _ _) H) as H'. clear H. rename H' into H.
    destruct (H (None, Some y)) as (y' & [= <-] & ?); [|done].
    apply list_elem_of_fmap. eauto.
  - destruct ys as [|y ys]; simpl.
    + intros H. apply Forall_cons in H as [(y & Hy & _) _]. done.
    + intros H. apply Forall_cons in H as [(y' & [= <-] & Hy) Hrest].
      destruct (IH ys Hrest) as [Hlen Hys]. split; [lia|by constructor].
Qed.

Lemma zip_longest_same_length {A B} (xs : list A) (ys : list B) :
  length xs = length ys →
  zip_longest xs ys = zip (Some <$> xs) (Some <$> ys).
Proof.
  revert ys. induction xs as [|x xs IH]; intros [|y ys] Hlen; try done.
  simpl in *. f_equal. apply IH. lia.
Qed.

Section change_facts.
Context {Path Document MapFrame Item LayerError Foreign World : Type}.
Implicit Types mh : @Arcpy Path Document MapFrame Item LayerError Foreign World.
Implicit Types w : World.

(** What the loop over the items raises is the exception of an outside
    call that is no [MapLayerError], or the [AttributeError] of a layer
    that is not there. *)
Lemma change_items_raised mh label pairs : ∀ errors w w' e,
  change_items mh label pairs errors w = (w', Raised e) →
  (∃ x, e = OtherError x)
  ∨ (e = AttributeError ∧ ∃ src, (None, Some src) ∈ pairs).
Proof.
  induction pairs as [|[item source] rest IH]; intros errors w w' e;
    [done|].
  cbn [change_items].
  destruct (change_item mh label item source w) as [w1 [[]|e1]] eqn:Hitem.
  - intros H. destruct (IH _ _ _ _ H) as [?|[? [src ?]]]; [by left|].
    right. split; [done|]. exists src. by right.
  - destruct e1 as [msg es|e1|x|e1|].
    + unfold change_item in Hitem.
      destruct source as [src|]; [|done].
      destruct (py_eq src VNone); [done|].
      destruct item as [i|]; [|done].
      unfold bind, call, ret in Hitem.
      repeat (match type of Hitem with
              | context [match ?c w with _ => _ end] =>
                  destruct (c w) as [? [?|[?|?]]]
              | context [match ?c ?w0 with _ => _ end] =>
                  destruct (c w0) as [? [?|[?|?]]]
              end; try done).
    + intros H. destruct (IH _ _ _ _ H) as [?|[? [src ?]]]; [by left|].
      right. split; [done|]. exists src. by right.
    + intros [= <- <-]. left. by eexists.
    + unfold change_item in Hitem.
      destruct source as [src|]; [|done].
      destruct (py_eq src VNone); [done|].
      destruct item as [i|]; [|done].
      unfold bind, call, ret in Hitem.
      repeat (match type of Hitem with
              | context [match ?c ?w0 with _ => _ end] =>
                  destruct (c w0) as [? [?|[?|?]]]
              end; try done).
    + intros [= <- <-]. right. split; [done|].
      unfold change_item in Hitem.
      destruct source as [src|]; [|done].
      destruct (py_eq src VNone); [done|].
      destruct item as [i|]; [|exists src; by left].
      unfold bind, call, ret in Hitem.
      repeat (match type of Hitem with
              | context [match ?c ?w0 with _ => _ end] =>
                  destruct (c w0) as [? [?|[?|?]]]
              end; try done).
Qed.
End change_facts.

Section change_laws.
Context {Path Document MapFrame Item LayerError Foreign World : Type}.
Implicit Types mh : @Arcpy Path Document MapFrame Item LayerError Foreign World.
Implicit Types w : World.
Implicit Types P : Exception LayerError Foreign → Prop.

Local Abbreviation M := (stateful World (Exception LayerError Foreign)).

Lemma bind_inv {A B} (m : M A) (k : A → M B) w w' r :
  bind m k w = (w', r) →
  (∃ w1 a, m w = (w1, Returned a) ∧ k a w1 = (w', r))
  ∨ (∃ e, m w = (w', Raised e) ∧ r = Raised e).
Proof.
  unfold bind. destruct (m w) as [w1 [a|e]].
  - intros H. left. by exists w1, a.
  - intros [= <- <-]. right. by exists e.
Qed.

Lemma bind_returned {A B} (m : M A) (k : A → M B) w w1 a :
  m w = (w1, Returned a) → bind m k w = k a w1.
Proof. intros H. unfold bind. by rewrite H. Qed.

Lemma bind_raised {A B} (m : M A) (k : A → M B) w w1 e :
  m w = (w1, Raised e) → bind m k w = (w1, Raised e).
Proof. intros H. unfold bind. by rewrite H. Qed.

Lemma call_returned {A}
    (c : stateful World (raised LayerError Foreign) A) w w' a :
  call c w = (w', Returned a) ↔ c w = (w', Returned a).
Proof.
  unfold call. destruct (c w) as [w1 [a'|[le|x]]]; split; try done;
    by intros [= <- <-].
Qed.

Lemma lift_returned {A} (r : result A) w w' a :
  @lift LayerError Foreign World A r w = (w', Returned a) ↔ r = Ok a ∧ w' = w.
Proof.
  destruct r as [a'|e]; simpl; unfold ret, raise; split;
    try (by intros [= <- <-]); try (by intros [[= <-] ->]); by intros [? ?].
Qed.

Lemma raises_only_ret {A} P (a : A) : raises_only P (ret a : M A).
Proof. by intros w w' e. Qed.

Lemma raises_only_raise {A} P e : P e → raises_only P (raise e : M A).
Proof. intros He w w' e'. unfold raise. by intros [= <- <-]. Qed.

Lemma raises_only_bind {A B} P (m : M A) (k : A → M B) :
  raises_only P m → (∀ a, raises_only P (k a)) → raises_only P (bind m k).
Proof.
  intros Hm Hk w w' e [(w1 & a & _ & H)|(e' & H & [= <-])]%bind_inv.
  - by eapply Hk.
  - by eapply Hm.
Qed.

Lemma raises_only_lift {A} P (r : result A) :
  (∀ b, P (Builtin b)) → raises_only P (lift r : M A).
Proof.
  intros HP. destruct r; [apply raises_only_ret|by apply raises_only_raise].
Qed.

Lemma raises_only_call {A} P
    (c : stateful World (raised LayerError Foreign) A) :
  (∀ x, P (OtherError x)) →
  (∀ le, P (MapLayerError le)) ∨ raises_no_layer_error c →
  raises_only P (call c).
Proof.
  intros Hother Hlayer w w' e. unfold call.
  destruct (c w) as [w1 [a|[le|x]]] eqn:Hc; [done|..]; intros [= <- <-];
    [|done].
  destruct Hlayer as [?|Hq]; [done|]. by apply Hq in Hc.
Qed.

Lemma raises_only_change_items P mh label pairs errors :
  (∀ x, P (OtherError x)) → P AttributeError →
  raises_only P (change_items mh label pairs errors).
Proof.
  intros Hother Hattr w w' e H.
  by apply change_items_raised in H as [[x ->]|[-> _]].
Qed.

Lemma raises_only_change_frame P mh doc map_frame map_data_sources errors :
  (∀ x, P (OtherError x)) → P AttributeError → (∀ b, P (Builtin b)) →
  (∀ msg, P (ChangeDataSourcesError msg None)) →
  (∀ le, P (MapLayerError le))
  ∨ (raises_no_layer_error (_list_layers mh doc map_frame)
     ∧ raises_no_layer_error (_list_tables mh doc map_frame)) →
  raises_only P (change_frame mh doc map_frame map_data_sources errors).
Proof.
  intros Hother Hattr Hbuiltin Hshape Hlayer. unfold change_frame.
  destruct map_data_sources as [ds|]; [|by apply raises_only_raise].
  destruct (negb (has_key "layers" ds) || negb (has_key "tables" ds));
    [by apply raises_only_raise|].
  apply raises_only_bind; [apply raises_only_call; [done|tauto]|].
  intros layers. apply raises_only_bind; [by apply raises_only_lift|].
  intros layer_sources.
  destruct (py_eq layer_sources VNone); [by apply raises_only_raise|].
  apply raises_only_bind; [by apply raises_only_lift|]. intros n.
  destruct (negb (length layers =? n)%nat); [by apply raises_only_raise|].
  apply raises_only_bind; [by apply raises_only_lift|]. intros sources.
  apply raises_only_bind; [by apply raises_only_change_items|].
  intros errors'.
  apply raises_only_bind; [apply raises_only_call; [done|tauto]|].
  intros data_tables. apply raises_only_bind; [by apply raises_only_lift|].
  intros data_table_sources.
  apply raises_only_bind; [by apply raises_only_lift|]. intros m.
  destruct (negb (length data_tables =? m)%nat);
    [by apply raises_only_raise|].
  apply raises_only_bind; [by apply raises_only_lift|]. intros sources'.
  by apply raises_only_change_items.
Qed.

Lemma raises_only_change_frames P mh doc pairs : ∀ errors,
  (∀ x, P (OtherError x)) → P AttributeError → (∀ b, P (Builtin b)) →
  (∀ msg, P (ChangeDataSourcesError msg None)) →
  (∀ le, P (MapLayerError le))
  ∨ ((∀ f, raises_no_layer_error (_list_layers mh doc f))
     ∧ (∀ f, raises_no_layer_error (_list_tables mh doc f))) →
  raises_only P (change_frames mh doc pairs errors).
Proof.
  induction pairs as [|[map_frame map_data_sources] rest IH];
    intros errors Hother Hattr Hbuiltin Hshape Hlayer;
    [apply raises_only_ret|].
  cbn [change_frames]. apply raises_only_bind.
  - apply raises_only_change_frame; try done.
    destruct Hlayer as [?|[? ?]]; auto.
  - intros errors'. by apply IH.
Qed.

(** The loops read neither [open_document] nor [save]. *)
Lemma change_frames_with_open_and_save mh open' save' doc pairs errors :
  change_frames (with_open_and_save mh open' save') doc pairs errors
  = change_frames mh doc pairs errors.
Proof. reflexivity. Qed.
End change_laws.

(** X25.  A document that is passed in as an object is neither opened nor
    saved: with a [Document] for [mxd_or_proj], the call does the same,
    and leaves arcpy in the same state, whatever [open_document] and
    [save] would do. *)
Theorem document_object_is_neither_opened_nor_saved
    {Path Document MapFrame Item LayerError Foreign World : Type}
    (mh : @Arcpy Path Document MapFrame Item LayerError Foreign World)
    (open' : Path → stateful World (raised LayerError Foreign) Document)
    (save' : Document → stateful World (raised LayerError Foreign) unit)
    (doc : Document) (data_sources : list (list (string * value)))
    (w : World) :
  change_data_sources (with_open_and_save mh open' save') (inl doc)
    data_sources w
  = change_data_sources mh (inl doc) data_sources w.
Proof.
  unfold change_data_sources, bind, ret. cbn [fst snd with_open_and_save _list_maps].
  destruct (call (_list_maps mh doc) w) as [w1 [maps|e]]; [|done].
  rewrite change_frames_with_open_and_save.
  destruct (change_frames mh doc (zip_longest maps data_sources) [] w1)
    as [w2 [errors|e]]; [|done].
  by destruct (negb (length errors =? 0)%nat).
Qed.

(** X26.  A [MapLayerError] raised while a layer or a data table is
    changed never leaves the call: when the outside calls around the two
    loops ([open_document], the three listing helpers and [save]) raise
    none, [change_data_sources] raises none, whatever
    [_change_data_source], [_get_data_source_desc] and the two attribute
    reads do. *)
Theorem item_errors_are_collected_not_raised
    {Path Document MapFrame Item LayerError Foreign World : Type}
    (mh : @Arcpy Path Document MapFrame Item LayerError Foreign World)
    (mxd_or_proj : Document + Path)
    (data_sources : list (list (string * value))) :
  (∀ path, raises_no_layer_error (open_document mh path)) →
  (∀ doc, raises_no_layer_error (_list_maps mh doc)) →
  (∀ doc f, raises_no_layer_error (_list_layers mh doc f)) →
  (∀ doc f, raises_no_layer_error (_list_tables mh doc f)) →
  (∀ doc, raises_no_layer_error (save mh doc)) →
  ∀ w w' e,
    change_data_sources mh mxd_or_proj data_sources w
    ≠ (w', Raised (MapLayerError e)).
Proof.
  intros Hopen Hmaps Hlayers Htables Hsave w w' e H.
  assert (raises_only (λ e, ∀ le, e ≠ MapLayerError le)
            (change_data_sources mh mxd_or_proj data_sources)) as Hq;
    [|by apply (Hq w w' _ H e)].
  unfold change_data_sources. apply raises_only_bind.
  { destruct mxd_or_proj as [doc|path]; [apply raises_only_ret|].
    apply raises_only_bind; [|intros doc; apply raises_only_ret].
    apply raises_only_call; [done|]. right. apply Hopen. }
  intros [doc opened]. cbn [fst snd]. apply raises_only_bind.
  { apply raises_only_call; [done|]. right. apply Hmaps. }
  intros maps. apply raises_only_bind.
  { apply raises_only_change_frames; try done. right. split; auto. }
  intros errors. destruct (negb (length errors =? 0)%nat);
    [by apply raises_only_raise|].
  destruct opened; [|apply raises_only_ret].
  apply raises_only_call; [done|]. right. apply Hsave.
Qed.

Lemma item_errors_are_collected_not_raised_witness :
  change_data_sources (toy_arcpy toy_document) (inr "a.mxd")
    [[("layers", VList [gdb "C:\A"; VInt 3]); ("tables", VList [VStr "x"])]] []
  = ([("Roads", gdb "C:\A")],
     Raised (ChangeDataSourcesError errors_encountered
               (Some ["Rivers"; "Owners"])))
  ∧ ∀ w' e,
      change_data_sources (toy_arcpy toy_document) (inr "a.mxd")
        [[("layers", VList [gdb "C:\A"; VInt 3]); ("tables", VList [VStr "x"])]]
        []
      ≠ (w', Raised (MapLayerError e)).
Proof.
  split; [by vm_compute|]. intros w' e.
  apply (item_errors_are_collected_not_raised (toy_arcpy toy_document)).
  - intros path w w1 le. simpl. by destruct (String.eqb path "").
  - by intros doc w w1 le.
  - intros doc [f|] w w1 le; by simpl.
  - intros doc [f|] w w1 le; by simpl.
  - by intros doc w w1 le.
Defined.

(** X27.  Collected errors prevent saving.  A [ChangeDataSourcesError]
    that carries errors is raised at the end of the call only, with the
    message of that place and at least one error, and then [save] was not
    called: the call does the same whatever [save] would do. *)
Theorem collected_errors_prevent_saving
    {Path Document MapFrame Item LayerError Foreign World : Type}
    (mh : @Arcpy Path Document MapFrame Item LayerError Foreign World)
    (mxd_or_proj : Document + Path)
    (data_sources : list (list (string * value)))
    (w w' : World) (msg : string) (errors : list LayerError) :
  change_data_sources mh mxd_or_proj data_sources w
  = (w', Raised (ChangeDataSourcesError msg (Some errors))) →
  msg = errors_encountered ∧ errors ≠ []
  ∧ ∀ save',
      change_data_sources (with_open_and_save mh (open_document mh) save')
        mxd_or_proj data_sources w
      = (w', Raised (ChangeDataSourcesError msg (Some errors))).
Proof.
  unfold change_data_sources.
  set (P := λ e : Exception LayerError Foreign,
              ∀ m es, e ≠ ChangeDataSourcesError m (Some es)).
  assert (∀ x, P (OtherError x)) as Hother by by intros x m es.
  assert (∀ le, P (MapLayerError le)) as Hlayer by by intros le m es.
  assert (P AttributeError) as Hattr by by intros m es.
  assert (∀ b, P (Builtin b)) as Hbuiltin by by intros b m es.
  assert (∀ m, P (ChangeDataSourcesError m None)) as Hshape by by intros m m' es.
  intros [(w1 & [doc opened] & Hopen & H)|(e & Hopen & [= <-])]%bind_inv.
  2:{ exfalso. destruct mxd_or_proj as [doc|path]; [done|].
      apply bind_inv in Hopen as [(? & ? & _ & ?)|(e' & Hc & [= <-])]; [done|].
      apply (raises_only_call P _ Hother (or_introl Hlayer)) in Hc.
      by apply (Hc msg errors). }
  cbn [fst snd] in H.
  apply bind_inv in H as [(w2 & maps & Hmaps & H)|(e & Hc & [= <-])].
  2:{ exfalso. apply (raises_only_call P _ Hother (or_introl Hlayer)) in Hc.
      by apply (Hc msg errors). }
  apply bind_inv in H as [(w3 & errs & Hframes & H)|(e & Hc & [= <-])].
  2:{ exfalso.
      apply (raises_only_change_frames P mh doc _ [] Hother Hattr Hbuiltin
               Hshape (or_introl Hlayer)) in Hc.
      by apply (Hc msg errors). }
  destruct (negb (length errs =? 0)%nat) eqn:Hlen.
  - unfold raise in H. injection H as <- <- <-. split_and!; [done| |].
    + intros ->. by simpl in Hlen.
    + intros save'.
      erewrite bind_returned by
        (destruct mxd_or_proj; [exact Hopen|exact Hopen]).
      cbn [fst snd with_open_and_save _list_maps].
      erewrite bind_returned by exact Hmaps.
      rewrite change_frames_with_open_and_save.
      erewrite bind_returned by exact Hframes. by rewrite Hlen.
  - exfalso. destruct opened; [|done].
    apply (raises_only_call P _ Hother (or_introl Hlayer)) in H.
    by apply (H msg errors).
Qed.

Lemma collected_errors_prevent_saving_witness :
  change_data_sources
    (with_open_and_save (toy_arcpy toy_document)
       (open_document (toy_arcpy toy_document))
       (λ _ w, (w, Raised (RaisedOther "disk full"))))
    (inr "a.mxd")
    [[("layers", VList [gdb "C:\A"; VInt 3]); ("tables", VList [VNone])]] []
  = ([("Roads", gdb "C:\A")],
     Raised (ChangeDataSourcesError errors_encountered (Some ["Rivers"]))).
Proof.
  apply (collected_errors_prevent_saving (toy_arcpy toy_document)
           (inr "a.mxd")
           [[("layers", VList [gdb "C:\A"; VInt 3]); ("tables", VList [VNone])]]
           [] [("Roads", gdb "C:\A")] errors_encountered ["Rivers"]).
  by vm_compute.
Defined.

Section change_shape.
Context {Path Document MapFrame Item LayerError Foreign World : Type}.
Implicit Types mh : @Arcpy Path Document MapFrame Item LayerError Foreign World.
Implicit Types w : World.

Lemma has_key_true {A} k (d : list (string * A)) :
  has_key k d = true ↔ is_Some (dict_get k d).
Proof. unfold has_key. apply bool_decide_eq_true. Qed.

Lemma dict_item_ok {A} k (d : list (string * A)) v :
  dict_item k d = Ok v ↔ dict_get k d = Some v.
Proof.
  unfold dict_item. destruct (dict_get k d); split; try done;
    by intros [= <-].
Qed.

(** A frame gets past its checks only with well-formed sources. *)
Lemma change_frame_returned mh doc map_frame map_data_sources errors w w'
    errors' :
  change_frame mh doc map_frame map_data_sources errors w
  = (w', Returned errors') →
  ∃ ds, map_data_sources = Some ds ∧ well_formed_sources ds.
Proof.
  unfold change_frame. destruct map_data_sources as [ds|]; [|done].
  destruct (negb (has_key "layers" ds) || negb (has_key "tables" ds));
    [done|].
  intros [(w1 & layers & _ & H)|(? & _ & ?)]%bind_inv; [|done].
  apply bind_inv in H as [(w2 & ls & Hls & H)|(? & _ & ?)]; [|done].
  apply lift_returned in Hls as [Hls%dict_item_ok ->].
  destruct (py_eq ls VNone) eqn:Hnone; [done|].
  apply bind_inv in H as [(w3 & n & Hn & H)|(? & _ & ?)]; [|done].
  apply lift_returned in Hn as [Hn ->].
  destruct (negb (length layers =? n)%nat); [done|].
  apply bind_inv in H as [(w4 & srcs & _ & H)|(? & _ & ?)]; [|done].
  apply bind_inv in H as [(w5 & errs & _ & H)|(? & _ & ?)]; [|done].
  apply bind_inv in H as [(w6 & tables & _ & H)|(? & _ & ?)]; [|done].
  apply bind_inv in H as [(w7 & ts & Hts & H)|(? & _ & ?)]; [|done].
  apply lift_returned in Hts as [Hts%dict_item_ok ->].
  apply bind_inv in H as [(w8 & m & Hm & H)|(? & _ & ?)]; [|done].
  apply lift_returned in Hm as [Hm ->].
  exists ds. split; [done|]. exists ls, ts.
  split_and!; [done..| |]; [by rewrite Hn|by rewrite Hm].
Qed.

Lemma change_frames_returned mh doc pairs : ∀ errors w w' errors',
  change_frames mh doc pairs errors w = (w', Returned errors') →
  Forall (λ p, ∃ ds, p.2 = Some ds ∧ well_formed_sources ds) pairs.
Proof.
  induction pairs as [|[map_frame map_data_sources] rest IH];
    intros errors w w' errors'; [constructor|].
  cbn [change_frames].
  intros [(w1 & errs & Hframe & H)|(? & _ & ?)]%bind_inv; [|done].
  constructor; [by eapply change_frame_returned|by eapply IH].
Qed.

(** A source that is [None] leaves its layer or table alone. *)
Lemma change_items_all_none mh label pairs : ∀ errors w,
  Forall (λ p : option Item * option value,
            match p.2 with
            | Some src => py_eq src VNone = true
            | None => True
            end) pairs →
  change_items mh label pairs errors w = (w, Returned errors).
Proof.
  induction pairs as [|[item source] rest IH]; intros errors w Hall;
    [done|].
  apply Forall_cons in Hall as [Hsrc Hall]. cbn [change_items].
  assert (change_item mh label item source w = (w, Returned ())) as ->.
  { destruct source as [src|]; [|done]. simpl in *. by rewrite Hsrc. }
  by apply IH.
Qed.

Lemma zip_longest_all_none (items : list Item) (srcs : list value) :
  forallb (λ s, py_eq s VNone) srcs = true →
  Forall (λ p : option Item * option value,
            match p.2 with
            | Some src => py_eq src VNone = true
            | None => True
            end) (zip_longest items srcs).
Proof.
  revert srcs. induction items as [|i items IH]; intros srcs Hall.
  - change (zip_longest [] srcs) with (map (λ y, (@None Item, Some y)) srcs).
    rewrite map_fmap. apply Forall_fmap, Forall_forall. intros s Hs. simpl.
    rewrite forallb_forall in Hall. by apply Hall, list_elem_of_In.
  - destruct srcs as [|s srcs]; simpl.
    + constructor; [done|]. rewrite map_fmap.
      apply Forall_fmap, Forall_forall. by intros.
    + simpl in Hall. apply andb_prop in Hall as [Hs Hall].
      constructor; [done|by apply IH].
Qed.

Lemma bind_ext {A B}
    (m : stateful World (Exception LayerError Foreign) A)
    (k1 k2 : A → stateful World (Exception LayerError Foreign) B) w :
  (∀ a w1, m w = (w1, Returned a) → k1 a w1 = k2 a w1) →
  bind m k1 w = bind m k2 w.
Proof.
  intros H. unfold bind. destruct (m w) as [w1 [a|e]]; [by apply H|done].
Qed.

Lemma change_frame_asks_for_no_change mh longName' name' desc' change'
    doc map_frame map_data_sources errors w :
  match map_data_sources with
  | Some ds => asks_for_no_change ds = true
  | None => True
  end →
  change_frame (with_item_calls mh longName' name' desc' change')
    doc map_frame map_data_sources errors w
  = change_frame mh doc map_frame map_data_sources errors w.
Proof.
  intros Hds. unfold change_frame.
  destruct map_data_sources as [ds|]; [|done].
  destruct (negb (has_key "layers" ds) || negb (has_key "tables" ds)) eqn:Hk;
    [done|].
  apply orb_false_elim in Hk as [Hl%negb_false_iff Ht%negb_false_iff].
  apply has_key_true in Hl as [ls Hl]. apply has_key_true in Ht as [ts Ht].
  unfold asks_for_no_change in Hds. rewrite Hl, Ht in Hds.
  apply andb_prop in Hds as [Hls Hts]. unfold all_none in Hls, Hts.
  cbn [with_item_calls _list_layers _list_tables longName name].
  apply bind_ext. intros layers w1 _.
  apply bind_ext. intros ls' w2 [Hl'%dict_item_ok ->]%lift_returned.
  rewrite Hl in Hl'. injection Hl' as <-.
  destruct (py_eq ls VNone); [done|].
  apply bind_ext. intros n w3 _.
  destruct (negb (length layers =? n)%nat); [done|].
  apply bind_ext. intros srcs w4 [Hsrcs ->]%lift_returned.
  rewrite Hsrcs in Hls.
  rewrite !(bind_returned _ _ _ _ _
              (change_items_all_none _ _ _ errors w3
                 (zip_longest_all_none layers srcs Hls))).
  apply bind_ext. intros tables w5 _.
  apply bind_ext. intros ts' w6 [Ht'%dict_item_ok ->]%lift_returned.
  rewrite Ht in Ht'. injection Ht' as <-.
  apply bind_ext. intros m w7 _.
  destruct (negb (length tables =? m)%nat); [done|].
  apply bind_ext. intros srcs' w8 [Hsrcs' ->]%lift_returned.
  rewrite Hsrcs' in Hts.
  by rewrite !(change_items_all_none _ _ _ errors w7
                 (zip_longest_all_none tables srcs' Hts)).
Qed.

Lemma change_frames_ask_for_no_change mh longName' name' desc' change'
    doc pairs : ∀ errors w,
  Forall (λ p : option MapFrame * option (list (string * value)),
            match p.2 with
            | Some ds => asks_for_no_change ds = true
            | None => True
            end) pairs →
  change_frames (with_item_calls mh longName' name' desc' change')
    doc pairs errors w
  = change_frames mh doc pairs errors w.
Proof.
  induction pairs as [|[map_frame map_data_sources] rest IH];
    intros errors w Hall; [done|].
  apply Forall_cons in Hall as [Hds Hall]. cbn [change_frames].
  unfold bind. rewrite change_frame_asks_for_no_change by done.
  destruct (change_frame mh doc map_frame map_data_sources errors w)
    as [w1 [errs|e]]; [|done].
  by apply IH.
Qed.

Lemma zip_longest_right_elem {A B} (P : B → Prop) (xs : list A)
    (ys : list B) :
  Forall P ys →
  Forall (λ p : option A * option B,
            match p.2 with Some y => P y | None => True end)
    (zip_longest xs ys).
Proof.
  revert ys. induction xs as [|x xs IH]; intros ys Hys.
  - change (zip_longest [] ys) with (map (λ y, (@None A, Some y)) ys).
    rewrite map_fmap. apply Forall_fmap. eapply Forall_impl; [exact Hys|].
    done.
  - destruct ys as [|y ys]; simpl.
    + constructor; [done|]. rewrite map_fmap.
      apply Forall_fmap, Forall_forall. by intros.
    + apply Forall_cons in Hys as [Hy Hys]. constructor; [done|by apply IH].
Qed.
End change_shape.

(** X28.  The call returns only on well-formed data sources: when
    [change_data_sources] returns, every entry of [data_sources] has its
    [layers] and [tables] keys, a [layers] value that is not [None], and
    values with a length under both keys; and [data_sources] has an entry
    for every frame that [_list_maps] listed in this call, that is, on the
    document passed in, or opened from the path, in the state the call
    found it in. *)
Theorem success_needs_well_formed_sources
    {Path Document MapFrame Item LayerError Foreign World : Type}
    (mh : @Arcpy Path Document MapFrame Item LayerError Foreign World)
    (mxd_or_proj : Document + Path)
    (data_sources : list (list (string * value))) (w w' : World) :
  change_data_sources mh mxd_or_proj data_sources w = (w', Returned ()) →
  Forall well_formed_sources data_sources
  ∧ ∃ doc w1 w2 maps,
      match mxd_or_proj with
      | inl document => doc = document ∧ w1 = w
      | inr path => open_document mh path w = (w1, Returned doc)
      end
      ∧ _list_maps mh doc w1 = (w2, Returned maps)
      ∧ (length maps ≤ length data_sources)%nat.
Proof.
  unfold change_data_sources.
  intros [(w1 & [doc opened] & Hopen & H)|(? & _ & ?)]%bind_inv; [|done].
  cbn [fst snd] in H.
  apply bind_inv in H as [(w2 & maps & Hmaps%call_returned & H)|(? & _ & ?)];
    [|done].
  apply bind_inv in H as [(w3 & errs & Hframes & _)|(? & _ & ?)]; [|done].
  apply change_frames_returned, zip_longest_all_right in Hframes
    as [Hlen Hall].
  split; [done|]. exists doc, w1, w2, maps. split_and!; [|done..].
  destruct mxd_or_proj as [document|path].
  - unfold ret in Hopen. by injection Hopen as <- <- _.
  - apply bind_inv in Hopen as [(w0 & d & Hd%call_returned & Hr)|(? & _ & ?)];
      [|done].
    unfold ret in Hr. by injection Hr as <- <- _.
Qed.

Lemma success_needs_well_formed_sources_witness :
  Forall well_formed_sources
    [[("layers", VList [gdb "C:\A"; VNone]); ("tables", VList [VNone])]]
  ∧ ∃ doc w1 w2 maps,
      open_document (toy_arcpy toy_document) "a.mxd" [] = (w1, Returned doc)
      ∧ _list_maps (toy_arcpy toy_document) doc w1 = (w2, Returned maps)
      ∧ (length maps ≤ 1)%nat.
Proof.
  apply (success_needs_well_formed_sources (toy_arcpy toy_document)
           (inr "a.mxd")
           [[("layers", VList [gdb "C:\A"; VNone]); ("tables", VList [VNone])]]
           [] [("Roads", gdb "C:\A"); ("saved", VBool true)]).
  by vm_compute.
Defined.

(** X29.  A source that is [None] leaves its layer or table alone: when
    every source of every entry is [None], the call does the same, and
    leaves arcpy in the same state, whatever [_change_data_source],
    [_get_data_source_desc] and the two attribute reads would do. *)
Theorem none_sources_change_nothing
    {Path Document MapFrame Item LayerError Foreign World : Type}
    (mh : @Arcpy Path Document MapFrame Item LayerError Foreign World)
    (longName' name' desc' :
       Item → stateful World (raised LayerError Foreign) value)
    (change' : Item → value → stateful World (raised LayerError Foreign) unit)
    (mxd_or_proj : Document + Path)
    (data_sources : list (list (string * value))) (w : World) :
  Forall (λ ds, asks_for_no_change ds = true) data_sources →
  change_data_sources (with_item_calls mh longName' name' desc' change')
    mxd_or_proj data_sources w
  = change_data_sources mh mxd_or_proj data_sources w.
Proof.
  intros Hall. unfold change_data_sources.
  cbn [with_item_calls open_document _list_maps save].
  apply bind_ext. intros [doc opened] w1 _. cbn [fst snd].
  apply bind_ext. intros maps w2 _. unfold bind.
  rewrite change_frames_ask_for_no_change; [done|].
  by apply zip_longest_right_elem.
Qed.

Lemma none_sources_change_nothing_witness :
  change_data_sources
    (with_item_calls (toy_arcpy toy_document)
       (longName (toy_arcpy toy_document)) (name (toy_arcpy toy_document))
       (_get_data_source_desc (toy_arcpy toy_document))
       (λ _ _ w, (w, Raised (RaisedOther "read-only"))))
    (inr "a.mxd") [[("layers", VList [VNone; VNone]); ("tables", VList [VNone])]]
    []
  = ([("saved", VBool true)], Returned ()).
Proof.
  rewrite (none_sources_change_nothing (toy_arcpy toy_document)).
  - by vm_compute.
  - repeat constructor.
Defined.

(** ** Replacements and the document they were computed for *)

(** The list of replacements has the shape of the description. *)
Lemma create_replacements_lengths
    (lowercase_dict : list (string * value) → list (string * value))
    (tokenise_datasource : value → option Tokens) (py_str : value → string)
    map_desc data_source_templates flag rs :
  create_replacement_data_sources_list lowercase_dict tokenise_datasource
    py_str map_desc data_source_templates flag = Ok rs →
  Forall2 (λ df r, length (new_layers r) = length (df_layers df)
                   ∧ length (new_tables r) = length (df_tables df))
    map_desc rs.
Proof.
  unfold create_replacement_data_sources_list.
  destruct (comprehension (template_set lowercase_dict) data_source_templates)
    as [template_sets|]; [|done].
  simpl. intros Hrs%comprehension_ok.
  eapply Forall2_impl; [exact Hrs|]. intros df r. unfold replace_frame.
  destruct (comprehension _ (df_layers df)) as [ls|] eqn:Hls; [|done].
  destruct (comprehension _ (df_tables df)) as [ts|] eqn:Hts; [|done].
  simpl. intros [= <-]. simpl.
  by rewrite (comprehension_length _ _ _ Hls), (comprehension_length _ _ _ Hts).
Qed.

Section change_fit.
Context {Path Document MapFrame Item LayerError Foreign World : Type}.
Implicit Types mh : @Arcpy Path Document MapFrame Item LayerError Foreign World.
Implicit Types w : World.

Local Abbreviation foreign :=
  (λ e : Exception LayerError Foreign, ∃ x, e = OtherError x).

(** The frame has as many layers and tables as the entry has sources. *)
Local Abbreviation fits mh doc :=
  (λ (f : MapFrame) (r : Replacements),
     ∀ w, (∃ w' ls, _list_layers mh doc (Some f) w = (w', Returned ls)
                    ∧ length ls = length (new_layers r))
          ∧ (∃ w' ts, _list_tables mh doc (Some f) w = (w', Returned ts)
                      ∧ length ts = length (new_tables r))).

Lemma raises_only_bind_returned {A B} P
    (m : stateful World (Exception LayerError Foreign) A)
    (k : A → stateful World (Exception LayerError Foreign) B) :
  raises_only P m →
  (∀ a, (∃ w w', m w = (w', Returned a)) → raises_only P (k a)) →
  raises_only P (bind m k).
Proof.
  intros Hm Hk w w' e [(w1 & a & Ha & H)|(e' & H & [= <-])]%bind_inv.
  - eapply Hk; [|done]. eauto.
  - by eapply Hm.
Qed.

Lemma change_items_same_length mh label (items : list Item)
    (srcs : list value) errors :
  length items = length srcs →
  raises_only foreign (change_items mh label (zip_longest items srcs) errors).
Proof.
  intros Hlen w w' e [?|[_ [src Hin]]]%change_items_raised; [done|].
  exfalso. rewrite zip_longest_same_length in Hin by done.
  apply list_elem_of_lookup in Hin as [i Hi].
  apply lookup_zip_with_Some in Hi as (a & b & [= <- _] & Hla & _).
  rewrite list_lookup_fmap in Hla. by destruct (items !! i).
Qed.

Lemma change_frame_fits mh doc f r errors :
  fits mh doc f r →
  raises_only foreign
    (change_frame mh doc (Some f) (Some (replacements_dict r)) errors).
Proof.
  intros Hfit. unfold change_frame.
  change (negb (has_key "layers" (replacements_dict r))
          || negb (has_key "tables" (replacements_dict r))) with false.
  cbn match.
  apply raises_only_bind_returned.
  { intros w w' e. unfold call. destruct (Hfit w) as [(w1 & ls & -> & _) _].
    done. }
  intros layers (w & w' & Hcall%call_returned).
  destruct (Hfit w) as [(w1 & ls & Hls & Hlen) _].
  rewrite Hcall in Hls. injection Hls as _ Heq. subst ls.
  change (dict_item "layers" (replacements_dict r))
    with (Ok (VList (map replacement_value (new_layers r)))).
  cbn [lift]. apply raises_only_bind_returned; [apply raises_only_ret|].
  intros layer_sources (w2 & w3 & [= _ <-]). cbn [py_eq py_len lift].
  apply raises_only_bind_returned; [apply raises_only_ret|].
  intros n (w4 & w5 & [= _ <-]).
  rewrite length_map, Hlen, Nat.eqb_refl. cbn [negb iterate lift].
  apply raises_only_bind_returned; [apply raises_only_ret|].
  intros srcs (w4' & w5' & [= _ <-]).
  apply raises_only_bind.
  { apply change_items_same_length. by rewrite length_map. }
  intros errors'. apply raises_only_bind_returned.
  { intros w6 w7 e. unfold call.
    destruct (Hfit w6) as [_ (w8 & ts & -> & _)]. done. }
  intros tables (w6 & w7 & Hcall'%call_returned).
  destruct (Hfit w6) as [_ (w8 & ts & Hts & Hlen')].
  rewrite Hcall' in Hts. injection Hts as _ Heq. subst ts.
  change (dict_item "tables" (replacements_dict r))
    with (Ok (VList (map replacement_value (new_tables r)))).
  cbn [lift]. apply raises_only_bind_returned; [apply raises_only_ret|].
  intros table_sources (w9' & w10' & [= _ <-]). cbn [py_len lift].
  apply raises_only_bind_returned; [apply raises_only_ret|].
  intros m (w9 & w10 & [= _ <-]).
  rewrite length_map, Hlen', Nat.eqb_refl. cbn [negb iterate lift].
  apply raises_only_bind_returned; [apply raises_only_ret|].
  intros srcs' (w11 & w12 & [= _ <-]).
  apply change_items_same_length. by rewrite length_map.
Qed.

Lemma change_frames_fit mh doc frames rs :
  Forall2 (fits mh doc) frames rs →
  ∀ errors,
    raises_only foreign
      (change_frames mh doc (zip_longest frames (replacements_dict <$> rs))
         errors).
Proof.
  induction 1 as [|f r frames rs Hfit _ IH]; intros errors;
    [apply raises_only_ret|].
  rewrite fmap_cons. cbn [zip_longest change_frames].
  apply raises_only_bind; [by apply change_frame_fits|]. intros errors'.
  apply IH.
Qed.
End change_fit.

(** X30.  The replacements computed for a description fit the document
    it describes.  When the document has a frame for each frame of the
    description, with as many layers and tables, [change_data_sources] on
    the list that [create_replacement_data_sources_list] returned for the
    description fails no check of its own: it raises neither a
    [ChangeDataSourcesError] without errors (missing keys, mismatched
    numbers) nor a [TypeError] or [AttributeError], but only the
    [ChangeDataSourcesError] that carries the collected errors, or the
    exception of an outside call that is no [MapLayerError]. *)
Theorem replacements_fit_the_document
    {Path Document MapFrame Item LayerError Foreign World : Type}
    (mh : @Arcpy Path Document MapFrame Item LayerError Foreign World)
    (lowercase_dict : list (string * value) → list (string * value))
    (tokenise_datasource : value → option Tokens) (py_str : value → string)
    (doc : Document) (frames : list MapFrame) (map_desc : list DataFrame)
    (data_source_templates : list Template) (flag : bool)
    (rs : list Replacements) (w w1 : World) :
  create_replacement_data_sources_list lowercase_dict tokenise_datasource
    py_str map_desc data_source_templates flag = Ok rs →
  _list_maps mh doc w = (w1, Returned frames) →
  Forall2 (λ f df,
             ∀ w2, (∃ w3 ls, _list_layers mh doc (Some f) w2 = (w3, Returned ls)
                             ∧ length ls = length (df_layers df))
                   ∧ (∃ w3 ts, _list_tables mh doc (Some f) w2
                               = (w3, Returned ts)
                               ∧ length ts = length (df_tables df)))
    frames map_desc →
  ∀ w' e,
    change_data_sources mh (inl doc) (replacements_dict <$> rs) w
    = (w', Raised e) →
    (∃ errors, e = ChangeDataSourcesError errors_encountered (Some errors)
               ∧ errors ≠ [])
    ∨ (∃ x, e = OtherError x).
Proof.
  intros Hrs%create_replacements_lengths Hmaps Hdoc w' e.
  assert (Forall2 (λ (f : MapFrame) (r : Replacements),
            ∀ w, (∃ w' ls, _list_layers mh doc (Some f) w = (w', Returned ls)
                           ∧ length ls = length (new_layers r))
                 ∧ (∃ w' ts, _list_tables mh doc (Some f) w = (w', Returned ts)
                             ∧ length ts = length (new_tables r)))
            frames rs) as Hfit.
  { clear Hmaps. revert rs Hrs.
    induction Hdoc as [|f df frames map_desc Hf _ IH]; intros rs Hrs.
    - apply Forall2_nil_inv_l in Hrs as ->. constructor.
    - apply Forall2_cons_inv_l in Hrs as (r & rs' & [Hl Ht] & Hrs & ->).
      constructor; [|by apply IH].
      intros w2. destruct (Hf w2) as [(w3 & ls & ? & ?) (w4 & ts & ? & ?)].
      split; eexists _, _; split; try done; congruence. }
  unfold change_data_sources.
  rewrite (bind_returned _ _ w w (doc, false)) by done. cbn [fst snd].
  rewrite (bind_returned _ _ w w1 frames) by by apply call_returned.
  intros [(w2 & errors & _ & H)|(e' & H & [= <-])]%bind_inv.
  - destruct (negb (length errors =? 0)%nat) eqn:Hlen; [|done].
    unfold raise in H. injection H as <- <-. left. exists errors.
    split; [done|]. intros ->. by simpl in Hlen.
  - right. by apply (change_frames_fit mh doc frames rs Hfit []) in H.
Qed.

Lemma replacements_fit_the_document_witness :
  let roads := feature_layer "Roads" (roads_tokens None None) in
  let map_desc := [mkDataFrame [Some (("scale", VInt 10) :: roads); None] [None]] in
  let rs := [mkReplacements [Some [("workspacePath", VStr "C:\Other")]; None] [None]] in
  create_replacement_data_sources_list lowercase_dict_model tokens_of_fields
    str_of_scalar map_desc [scale_template_source] false = Ok rs
  ∧ change_data_sources (toy_arcpy toy_document) (inl toy_document)
      (replacements_dict <$> rs) []
    = ([("Roads", gdb "C:\Other")], Returned ())
  ∧ ∀ w' e,
      change_data_sources (toy_arcpy toy_document) (inl toy_document)
        (replacements_dict <$> rs) [] = (w', Raised e) →
      (∃ errors, e = ChangeDataSourcesError errors_encountered (Some errors)
                 ∧ errors ≠ [])
      ∨ (∃ x, e = OtherError x).
Proof.
  intros roads map_desc rs. split; [by vm_compute|]. split; [by vm_compute|].
  apply (replacements_fit_the_document (toy_arcpy toy_document)
           lowercase_dict_model tokens_of_fields str_of_scalar toy_document
           toy_document map_desc [scale_template_source] false rs [] []).
  - by vm_compute.
  - done.
  - repeat constructor; by eexists _, _.
Defined.
